(** * dask-grblas: deferred, block-partitioned sparse algebra ([dask_grblas/expr.py])

    A shallow embedding of the expression layer of dask-grblas: the
    deferred expression [GbDelayed], the write-qualified destination
    [Updater], the lazy indexer ([Extractor], [AmbiguousAssignOrExtract]),
    the two-phase reductions, the slab matrix multiply and the 1-D/2-D
    shape adapters.

    Python exceptions are values of an error monad; every Python function
    that can raise returns a [result].  The sparse kernels of the backend
    (grblas) that the properties depend on are given their GraphBLAS
    meaning on dense lists of optional entries; the kernels no property
    depends on are fields of a [Backend] record.  The task scheduler
    (dask) is represented by the combination trees it builds. *)

From Stdlib Require Import String ZArith Lia Bool Arith Permutation List.
Import ListNotations.

Set Implicit Arguments.
Set Warnings "-register-all".

(* ------------------------------------------------------------------ *)
(** ** Python exceptions and the error monad *)

Module Py.

(** The exception classes raised in [expr.py], by the interpreter on
    the paths the model follows, and by the backend. *)
Inductive exc : Type :=
| AssertionError
| ValueError (msg : string)
| NotImplementedError
| TypeError
| IndexError
| AttributeError
| UnboundLocalError
| DimensionMismatch
| IndexOutOfBound.

(** The error kinds of the specification (section 7). *)
Inductive error_kind : Type :=
| UsageError
| UnsupportedOperation
| BackendError
| InterpreterError.

Definition kind_of (e : exc) : error_kind :=
  match e with
  | AssertionError => UsageError
  | TypeError => UsageError
  | ValueError _ => UnsupportedOperation
  | NotImplementedError => UnsupportedOperation
  | DimensionMismatch => BackendError
  | IndexOutOfBound => BackendError
  | IndexError => InterpreterError
  | AttributeError => InterpreterError
  | UnboundLocalError => InterpreterError
  end.

Inductive result (A : Type) : Type :=
| Ok (a : A)
| Raise (e : exc).

Arguments Ok {A} a.
Arguments Raise {A} e.

Definition bind {A B : Type} (c : result A) (k : A -> result B) : result B :=
  match c with
  | Ok a => k a
  | Raise e => Raise e
  end.

Definition fmap {A B : Type} (f : A -> B) (c : result A) : result B :=
  bind c (fun a => Ok (f a)).

(** [assert cond] *)
Definition assert (cond : bool) : result unit :=
  if cond then Ok tt else Raise AssertionError.

(** A list comprehension whose body can raise. *)
Definition mapM {A B : Type} (f : A -> result B) : list A -> result (list B) :=
  fix go (l : list A) : result (list B) :=
    match l with
    | [] => Ok []
    | x :: l' =>
        bind (f x) (fun y => bind (go l') (fun ys => Ok (y :: ys)))
    end.

(** The loop of [functools.reduce] from an accumulator. *)
Fixpoint foldM {A B : Type} (f : A -> B -> result A) (l : list B) (acc : A)
  : result A :=
  match l with
  | [] => Ok acc
  | y :: l' => bind (f acc y) (foldM f l')
  end.

(** [functools.reduce(f, l)] without initial value: [TypeError] on an
    empty sequence, the single element of a one-element sequence, a left
    fold otherwise. *)
Definition reduce {A : Type} (f : A -> A -> result A) (l : list A) : result A :=
  match l with
  | [] => Raise TypeError
  | x :: l' => foldM f l' x
  end.

(** Does the call fail with an error of kind [k]? *)
Definition fails_with {A : Type} (k : error_kind) (c : result A) : Prop :=
  exists e, c = Raise e /\ kind_of e = k.

End Py.

Import Py.

Notation "x <- c ;; k" := (bind c (fun x => k))
  (at level 61, c at next level, right associativity).
Notation "c ;;; k" := (bind c (fun _ => k))
  (at level 61, right associativity).

(* ------------------------------------------------------------------ *)
(** ** Generic list helpers *)

Section ListHelpers.
Context {A B C : Type}.

(** [zip] with a function, truncating to the shorter list. *)
Fixpoint zipw (f : A -> B -> C) (l : list A) (l' : list B) : list C :=
  match l, l' with
  | x :: t, y :: t' => f x y :: zipw f t t'
  | _, _ => []
  end.

(** The stored values of a list of optional entries, in index order. *)
Fixpoint present (l : list (option A)) : list A :=
  match l with
  | [] => []
  | Some x :: t => x :: present t
  | None :: t => present t
  end.

(** The indices of the stored entries, counted from [base]. *)
Fixpoint positions (base : nat) (l : list (option A)) : list nat :=
  match l with
  | [] => []
  | Some _ :: t => base :: positions (S base) t
  | None :: t => positions (S base) t
  end.
End ListHelpers.

(** Column [j] of a list of rows, and the columns of an [ncols]-wide
    list of rows. *)
Definition column {A : Type} (j : nat) (rows : list (list (option A)))
  : list (option A) :=
  map (fun r => nth j r None) rows.

Definition transpose {A : Type} (ncols : nat) (rows : list (list (option A)))
  : list (list (option A)) :=
  map (fun j => column j rows) (seq 0 ncols).

(* ------------------------------------------------------------------ *)
(** ** The partitioned-array engine (dask)

    A partitioned array is the grid of its blocks.  A reduction applies
    [chunk] to every block and then calls [combine] on groups of partial
    results, tree-wise, and [aggregate] on the last group; the grouping
    ([split_every]) is the scheduler's choice. *)

Inductive Array (B : Type) : Type :=
| Array0 (block : B)
| Array1 (blocks : list B)
| Array2 (blocks : list (list B))
| Array3 (blocks : list (list (list B))).

Arguments Array0 {B} block.
Arguments Array1 {B} blocks.
Arguments Array2 {B} blocks.
Arguments Array3 {B} blocks.

Definition ndim {B : Type} (x : Array B) : nat :=
  match x with
  | Array0 _ => 0
  | Array1 _ => 1
  | Array2 _ => 2
  | Array3 _ => 3
  end.

(** What a combine function is called with when [concatenate=False]:
    one block (a reduction over no axis), a list of blocks (one axis) or
    a list of lists of blocks (two axes). *)
Inductive Partials (B : Type) : Type :=
| One (x : B)
| Flat (xs : list B)
| Nested (xss : list (list B)).

Arguments One {B} x.
Arguments Flat {B} xs.
Arguments Nested {B} xss.

(** The combination trees below the final aggregation, over one axis and
    over two axes. *)
Inductive Tree1 (A : Type) : Type :=
| Leaf1 (a : A)
| Node1 (children : list (Tree1 A)).

Inductive Tree2 (A : Type) : Type :=
| Leaf2 (a : A)
| Node2 (children : list (list (Tree2 A))).

Arguments Leaf1 {A} a.
Arguments Node1 {A} children.
Arguments Leaf2 {A} a.
Arguments Node2 {A} children.

Definition is_nil {A : Type} (l : list A) : bool :=
  match l with
  | [] => true
  | _ :: _ => false
  end.

Fixpoint leaves1 {A : Type} (t : Tree1 A) : list A :=
  match t with
  | Leaf1 a => [a]
  | Node1 ts => flat_map leaves1 ts
  end.

Fixpoint leaves2 {A : Type} (t : Tree2 A) : list A :=
  match t with
  | Leaf2 a => [a]
  | Node2 tss => flat_map (flat_map leaves2) tss
  end.

(** No combine call on an empty group. *)
Fixpoint proper1 {A : Type} (t : Tree1 A) : bool :=
  match t with
  | Leaf1 _ => true
  | Node1 ts => negb (is_nil ts) && forallb proper1 ts
  end.

Fixpoint proper2 {A : Type} (t : Tree2 A) : bool :=
  match t with
  | Leaf2 _ => true
  | Node2 tss => negb (is_nil tss) && forallb (forallb proper2) tss
  end.

Section TreeReduce.
Context {A B : Type}.
Variable chunk : A -> result B.
Variable combine : Partials B -> result B.

Fixpoint run1 (t : Tree1 A) : result B :=
  match t with
  | Leaf1 a => chunk a
  | Node1 ts => xs <- mapM run1 ts ;; combine (Flat xs)
  end.

Fixpoint run2 (t : Tree2 A) : result B :=
  match t with
  | Leaf2 a => chunk a
  | Node2 tss => xss <- mapM (mapM run2) tss ;; combine (Nested xss)
  end.
End TreeReduce.

(** The scheduler: how it groups the blocks of one axis ([plan1]) and of
    a two-axis grid ([plan2]) for the final aggregation, and how it slices
    an array of blocks ([getitem]).  Every block is used exactly once and
    no group is empty. *)
Record Scheduler : Type := mkScheduler {
  plan1 : forall A : Type, list A -> list (Tree1 A);
  plan2 : forall A : Type, list (list A) -> list (list (Tree2 A));
  getitem :
    forall (B I : Type), (B -> I -> result B) -> Array B -> I -> result (Array B);
  plan1_leaves :
    forall (A : Type) (l : list A), Permutation (flat_map leaves1 (plan1 l)) l;
  plan1_proper :
    forall (A : Type) (l : list A),
      l <> [] -> plan1 l <> [] /\ forallb proper1 (plan1 l) = true;
  plan2_leaves :
    forall (A : Type) (g : list (list A)),
      Permutation (flat_map (flat_map leaves2) (plan2 g)) (concat g);
  plan2_proper :
    forall (A : Type) (g : list (list A)),
      g <> [] -> plan2 g <> [] /\ forallb (forallb proper2) (plan2 g) = true
}.

(** The columns of a grid of blocks whose rows have [w] blocks. *)
Definition block_columns {B : Type} (w : nat) (g : list (list B)) : list (list B) :=
  fold_right (zipw cons) (repeat [] w) g.

Definition width {B : Type} (g : list (list B)) : nat := length (hd [] g).

(** [x.map_blocks(f)] *)
Definition map_blocks {A B : Type} (f : A -> result B) (x : Array A)
  : result (Array B) :=
  match x with
  | Array0 b => y <- f b ;; Ok (Array0 y)
  | Array1 bs => ys <- mapM f bs ;; Ok (Array1 ys)
  | Array2 g => ys <- mapM (mapM f) g ;; Ok (Array2 ys)
  | Array3 c => ys <- mapM (mapM (mapM f)) c ;; Ok (Array3 ys)
  end.

(** Pairing the blocks of two lists of equal length. *)
Fixpoint zipM {A B C : Type} (f : A -> B -> result C) (l : list A) (l' : list B)
  : result (list C) :=
  match l, l' with
  | [], [] => Ok []
  | x :: t, y :: t' => z <- f x y ;; zs <- zipM f t t' ;; Ok (z :: zs)
  | _, _ => Raise (ValueError "operands could not be broadcast together")
  end.

(** [da.core.elemwise(f, x, y)] on two arrays whose chunks agree: the
    blocks at the same position are paired.  dask unifies the chunks of
    its operands first and re-chunks the operands whose blocks differ in
    number or in size; the model takes the blocks as they are, as dask
    does when the blocks at every position have one shape, and the
    properties that use it state that agreement. *)
Definition elemwise2 {A B C : Type} (f : A -> B -> result C)
           (x : Array A) (y : Array B) : result (Array C) :=
  match x, y with
  | Array0 a, Array0 b => z <- f a b ;; Ok (Array0 z)
  | Array1 l, Array1 l' => zs <- zipM f l l' ;; Ok (Array1 zs)
  | Array2 g, Array2 g' => zs <- zipM (zipM f) g g' ;; Ok (Array2 zs)
  | Array3 c, Array3 c' => zs <- zipM (zipM (zipM f)) c c' ;; Ok (Array3 zs)
  | _, _ => Raise (ValueError "operands could not be broadcast together")
  end.

(** [da.core.blockwise(f, (0, 1, 2), a, (0, 1), b, (1, 2), concatenate=False)]:
    block [(i, j, k)] of the result is [f a[i][j] b[j][k]]. *)
Definition blockwise_ij_jk {A B C : Type} (f : A -> B -> result C)
           (a : Array A) (b : Array B) : result (Array C) :=
  match a, b with
  | Array2 ga, Array2 gb =>
      c <- mapM (fun arow => zipM (fun aij brow => mapM (f aij) brow) arow gb) ga ;;
      Ok (Array3 c)
  | _, _ => Raise (ValueError "index does not match the array dimensions")
  end.

Section DaskReduction.
Context {A B : Type}.
Variable sched : Scheduler.
(** [chunk(x, axis=axis, keepdims=True)], [combine(x, axis=axis,
    keepdims=True)] and [aggregate(x, axis=axis, keepdims=keepdims)];
    [combine] defaults to [aggregate]. *)
Variable chunk : list nat -> bool -> A -> result B.
Variable aggregate : list nat -> bool -> Partials B -> result B.

Definition reduce_line (axis : list nat) (keepdims : bool) (line : list A)
  : result B :=
  xs <- mapM (run1 (chunk axis true) (aggregate axis true)) (plan1 sched line) ;;
  aggregate axis keepdims (Flat xs).

Definition reduce_grid (axis : list nat) (keepdims : bool) (g : list (list A))
  : result B :=
  xss <- mapM (mapM (run2 (chunk axis true) (aggregate axis true)))
              (plan2 sched g) ;;
  aggregate axis keepdims (Nested xss).

(** [da.reduction(x, chunk, aggregate, axis=axis, keepdims=keepdims,
    concatenate=False)]; [axis = None] reduces over every axis, a
    negative axis counts from the last one. *)
Definition reduction (x : Array A) (axis : option Z) (keepdims : bool)
  : result (Array B) :=
  match x, axis with
  | Array0 b, None =>
      y <- chunk [] true b ;;
      r <- aggregate [] keepdims (One y) ;;
      Ok (Array0 r)
  | Array1 bs, None => r <- reduce_line [0] keepdims bs ;; Ok (Array0 r)
  | Array1 bs, Some 0%Z => r <- reduce_line [0] keepdims bs ;; Ok (Array0 r)
  | Array1 bs, Some (-1)%Z => r <- reduce_line [0] keepdims bs ;; Ok (Array0 r)
  | Array2 g, None => r <- reduce_grid [0; 1] keepdims g ;; Ok (Array0 r)
  | Array2 g, Some 1%Z => rs <- mapM (reduce_line [1] keepdims) g ;; Ok (Array1 rs)
  | Array2 g, Some (-1)%Z => rs <- mapM (reduce_line [1] keepdims) g ;; Ok (Array1 rs)
  | Array2 g, Some 0%Z =>
      rs <- mapM (reduce_line [0] keepdims) (block_columns (width g) g) ;;
      Ok (Array1 rs)
  | Array2 g, Some (-2)%Z =>
      rs <- mapM (reduce_line [0] keepdims) (block_columns (width g) g) ;;
      Ok (Array1 rs)
  | Array3 c, Some 1%Z =>
      rs <- mapM (fun slab => mapM (reduce_line [1] keepdims)
                                   (block_columns (width slab) slab)) c ;;
      Ok (Array2 rs)
  | Array3 c, Some (-2)%Z =>
      rs <- mapM (fun slab => mapM (reduce_line [1] keepdims)
                                   (block_columns (width slab) slab)) c ;;
      Ok (Array2 rs)
  | _, _ => Raise (ValueError "axis is out of bounds for the array")
  end.
End DaskReduction.

(* ------------------------------------------------------------------ *)
(** ** The sparse-algebra backend (grblas)

    Sparse scalars, vectors and matrices over an element universe [T],
    tagged with their dtype.  An entry that is not stored is [None]. *)

Section Model.
Variables (T DType : Type).

(** [gb.Scalar]: [is_empty] is [s_value = None], and [.value] is then
    Python's [None]. *)
Record Scalar : Type := mkScalar { s_dtype : DType; s_value : option T }.

(** [gb.Vector]: [size] is the length of [v_entries]. *)
Record Vector : Type := mkVector { v_dtype : DType; v_entries : list (option T) }.

(** [gb.Matrix]: [nrows] is the length of [m_rows]; every row has
    [m_ncols] entries. *)
Record Matrix : Type :=
  mkMatrix { m_dtype : DType; m_ncols : nat; m_rows : list (list (option T)) }.

Inductive GbObject : Type :=
| GbScalar (s : Scalar)
| GbVector (v : Vector)
| GbMatrix (m : Matrix).

(** A monoid (binary operator with identity) and a semiring-like pair
    [op] whose [op.monoid] combines the products. *)
Record Monoid : Type := mkMonoid { m_op : T -> T -> T; m_identity : T }.
Record Semiring : Type := mkSemiring { sr_mult : T -> T -> T; sr_monoid : Monoid }.

(** The laws the engine asks of a monoid. *)
Record CommMonoid (op : Monoid) : Prop := {
  op_assoc : forall x y z, m_op op x (m_op op y z) = m_op op (m_op op x y) z;
  op_comm : forall x y, m_op op x y = m_op op y x;
  op_identity : forall x, m_op op (m_identity op) x = x
}.

(** The four mask wrappers of grblas ([get_grblas_type(mask)]). *)
Inductive MaskKind : Type :=
| StructuralMask
| ValueMask
| ComplementedStructuralMask
| ComplementedValueMask.

(** The per-block values that travel through the task graph: the
    wrappers built by [wrap_inner], the [FakeInnerTensor] of the slab
    multiply, [np.empty(0, dtype)] of the meta computations, and
    Python's [None]. *)
Inductive Inner : Type :=
| InnerScalar (value : Scalar)
| InnerVector (value : Vector)
| InnerMatrix (value : Matrix)
| FakeInnerTensor (value : Matrix)
| NpEmpty (dtype : DType)
| PyNone.

Definition wrap_inner (x : GbObject) : Inner :=
  match x with
  | GbScalar s => InnerScalar s
  | GbVector v => InnerVector v
  | GbMatrix m => InnerMatrix m
  end.

(** [x.value] *)
Definition value_of (x : Inner) : result GbObject :=
  match x with
  | InnerScalar s => Ok (GbScalar s)
  | InnerVector v => Ok (GbVector v)
  | InnerMatrix m => Ok (GbMatrix m)
  | FakeInnerTensor m => Ok (GbMatrix m)
  | NpEmpty _ => Raise AttributeError
  | PyNone => Raise AttributeError
  end.

(** Index expressions of [__getitem__]. *)
Inductive atom : Type :=
| AInt (i : Z)
| ASlice (start stop : option Z)
| AList (l : list Z).

Inductive index : Type :=
| Single (a : atom)
| Tuple (l : list atom).

(** Arguments of a deferred method call: operators, numbers and flags,
    or a collection ([isinstance(x, BaseType)]). *)
Inductive PyConst : Type :=
| ArgMonoid (op : Monoid)
| ArgSemiring (op : Semiring)
| ArgBinary (f : T -> T -> T)
| ArgUnary (f : T -> T)
| ArgValue (x : T)
| ArgBool (b : bool).

Inductive PyArg (Coll : Type) : Type :=
| Const (c : PyConst)
| Collected (c : Coll).

Arguments Const {Coll} c.
Arguments Collected {Coll} c.

Definition Mask_value : Type := (MaskKind * GbObject)%type.

(** The conversion of values between dtypes, and the kernels that the
    model leaves to the backend:
    - [gb_dup]: [x.dup(dtype=dtype, mask=mask)];
    - [gb_extract]: [x[index].new(dtype=dtype, mask=mask)];
    - [gb_method]: [getattr(x, name)( *args, **kwargs).new(dtype=dtype,
      mask=mask)] for the element-wise methods;
    - [gb_assign]: the content of [c] after
      [c(accum=accum, mask=mask, replace=replace) << x];
    - [gb_vector_new_default]: [gb.Vector.new()] without arguments;
    - [unify]: the dtype that the backend gives the result of a binary
      operation on operands of two dtypes when none is requested, the
      common dtype when they agree;
    - [truthy]: [bool(x)] of a stored value, as a value mask reads it;
    - [raw_slack]: the slots that the raw buffers of an object with [n]
      stored values keep beyond them ([raw=True] hands the buffers out
      as they are allocated, not cut to [nvals]). *)
Record Backend : Type := mkBackend {
  cast : DType -> T -> T;
  gb_dup : GbObject -> option DType -> option Mask_value -> result GbObject;
  gb_extract :
    GbObject -> index -> option DType -> option Mask_value -> result GbObject;
  gb_method :
    string -> GbObject -> list (PyArg GbObject) -> list (string * PyConst) ->
    option DType -> option Mask_value -> result GbObject;
  gb_assign :
    GbObject -> option (T -> T -> T) -> option Mask_value -> option bool ->
    GbObject -> result GbObject;
  gb_vector_new_default : result Vector;
  unify : DType -> DType -> DType;
  unify_same : forall d, unify d d = d;
  truthy : T -> bool;
  raw_slack : nat -> list (nat * T)
}.

Variable gb : Backend.

Definition pick (dtype : option DType) (default : DType) : DType :=
  match dtype with
  | Some d => d
  | None => default
  end.

Definition is_empty (s : Scalar) : bool :=
  match s_value s with
  | None => true
  | Some _ => false
  end.

Definition size (v : Vector) : nat := length (v_entries v).
Definition nrows (m : Matrix) : nat := length (m_rows m).

(** Attribute values that the model compares: integers, tuples of
    integers and dtypes. *)
Inductive PyVal : Type :=
| PyInt (n : Z)
| PyTuple (l : list Z)
| PyDType (d : DType).

(** [v == n] for an integer literal [n]: an integer equals it when it is
    the same number; a tuple or a dtype never does. *)
Definition eq_int (v : PyVal) (n : Z) : bool :=
  match v with
  | PyInt m => Z.eqb m n
  | PyTuple _ => false
  | PyDType _ => false
  end.

(** [x.shape], [x.dtype], [x.nvals], [x._is_scalar], [x.clear()] of a
    grblas object. *)
Definition shape_of (x : GbObject) : PyVal :=
  match x with
  | GbScalar _ => PyTuple []
  | GbVector v => PyTuple [Z.of_nat (size v)]
  | GbMatrix m => PyTuple [Z.of_nat (nrows m); Z.of_nat (m_ncols m)]
  end.

Definition dtype_of (x : GbObject) : DType :=
  match x with
  | GbScalar s => s_dtype s
  | GbVector v => v_dtype v
  | GbMatrix m => m_dtype m
  end.

Definition nvals_of (x : GbObject) : nat :=
  match x with
  | GbScalar s => if is_empty s then 0 else 1
  | GbVector v => length (present (v_entries v))
  | GbMatrix m => length (present (concat (m_rows m)))
  end.

Definition is_scalar (x : GbObject) : bool :=
  match x with
  | GbScalar _ => true
  | _ => false
  end.

Definition clear (x : GbObject) : GbObject :=
  match x with
  | GbScalar s => GbScalar (mkScalar (s_dtype s) None)
  | GbVector v => GbVector (mkVector (v_dtype v) (repeat None (size v)))
  | GbMatrix m =>
      GbMatrix (mkMatrix (m_dtype m) (m_ncols m)
                         (map (fun r => repeat None (length r)) (m_rows m)))
  end.

(** The same pattern at dtype [d], every stored value converted. *)
Definition retype (d : DType) (x : GbObject) : GbObject :=
  match x with
  | GbScalar s => GbScalar (mkScalar d (option_map (cast gb d) (s_value s)))
  | GbVector v => GbVector (mkVector d (map (option_map (cast gb d)) (v_entries v)))
  | GbMatrix m =>
      GbMatrix (mkMatrix d (m_ncols m)
                         (map (map (option_map (cast gb d))) (m_rows m)))
  end.

(** *** Masks on a new object *)

Definition is_some {A : Type} (o : option A) : bool :=
  match o with
  | Some _ => true
  | None => false
  end.

(** A mask admits a position according to its kind: a structural mask
    where the mask stores an entry, a value mask where the stored value
    is true, and the complemented masks everywhere else. *)
Definition admits (k : MaskKind) (m : option T) : bool :=
  match k with
  | StructuralMask => is_some m
  | ValueMask => match m with
                 | Some x => truthy gb x
                 | None => false
                 end
  | ComplementedStructuralMask => negb (is_some m)
  | ComplementedValueMask => negb (match m with
                                   | Some x => truthy gb x
                                   | None => false
                                   end)
  end.

Definition keep (k : MaskKind) (m o : option T) : option T :=
  if admits k m then o else None.

Fixpoint keep_entries (k : MaskKind) (ms os : list (option T))
  : list (option T) :=
  match os with
  | [] => []
  | o :: os' => keep k (hd None ms) o :: keep_entries k (tl ms) os'
  end.

Fixpoint keep_rows (k : MaskKind) (mss oss : list (list (option T)))
  : list (list (option T)) :=
  match oss with
  | [] => []
  | os :: oss' => keep_entries k (hd [] mss) os :: keep_rows k (tl mss) oss'
  end.

(** The entries of a new object [x] written under a mask: those at the
    positions that the mask admits. *)
Definition masked (mask : Mask_value) (x : GbObject) : GbObject :=
  match x, snd mask with
  | GbVector v, GbVector k =>
      GbVector (mkVector (v_dtype v)
                         (keep_entries (fst mask) (v_entries k) (v_entries v)))
  | GbMatrix a, GbMatrix k =>
      GbMatrix (mkMatrix (m_dtype a) (m_ncols a)
                         (keep_rows (fst mask) (m_rows k) (m_rows a)))
  | _, _ => x
  end.

(** The validation of a mask against the output it is for: the [new] of
    a scalar expression takes no mask; a vector takes a mask over a
    vector of its size, a matrix a mask over a matrix of its shape. *)
Definition check_mask (out : GbObject) (mask : Mask_value) : result unit :=
  match out, snd mask with
  | GbScalar _, _ => Raise TypeError
  | GbVector v, GbVector k =>
      if Nat.eqb (size v) (size k) then Ok tt else Raise DimensionMismatch
  | GbMatrix a, GbMatrix k =>
      if Nat.eqb (nrows a) (nrows k) && Nat.eqb (m_ncols a) (m_ncols k)
      then Ok tt
      else Raise DimensionMismatch
  | _, _ => Raise TypeError
  end.

(** The content of [expr.new(dtype=dtype, mask=mask)] on a metadata
    placeholder: the placeholder of the result, at the requested dtype
    when one is given, with the entries that the mask admits. *)
Definition meta_new (expr : GbObject) (dtype : option DType)
           (mask : option Mask_value) : GbObject :=
  let out := match dtype with
             | Some d => retype d expr
             | None => expr
             end in
  match mask with
  | Some m => masked m out
  | None => out
  end.

(** [expr.new(dtype=dtype, mask=mask)] on a metadata placeholder: the
    backend validates the mask before it builds the result. *)
Definition Gb_new (expr : GbObject) (dtype : option DType)
           (mask : option Mask_value) : result GbObject :=
  match mask with
  | Some m => check_mask expr m ;;; Ok (meta_new expr dtype mask)
  | None => Ok (meta_new expr dtype None)
  end.

(** [c.update(x)], that is [c << x], on grblas objects: [c] takes the
    content of [x], converted to the dtype of [c]; the shapes have to
    agree. *)
Definition Gb_update (c x : GbObject) : result GbObject :=
  match c, x with
  | GbScalar _, GbScalar _ => Ok (retype (dtype_of c) x)
  | GbVector u, GbVector v =>
      if Nat.eqb (size u) (size v) then Ok (retype (dtype_of c) x)
      else Raise DimensionMismatch
  | GbMatrix a, GbMatrix b =>
      if Nat.eqb (nrows a) (nrows b) && Nat.eqb (m_ncols a) (m_ncols b)
      then Ok (retype (dtype_of c) x)
      else Raise DimensionMismatch
  | _, _ => Raise TypeError
  end.

(** [gb.Vector.new(dtype, size)] *)
Definition Vector_new (dtype : DType) (n : nat) : Vector :=
  mkVector dtype (repeat None n).

(** Storing [x] at position [i] of a pattern: the position has to exist
    and to be free. *)
Fixpoint set_entry (i : nat) (x : T) (l : list (option T))
  : result (list (option T)) :=
  match l, i with
  | [], _ => Raise IndexOutOfBound
  | None :: t, O => Ok (Some x :: t)
  | Some _ :: _, O => Raise (ValueError "duplicate index")
  | o :: t, S j => t' <- set_entry j x t ;; Ok (o :: t')
  end.

Fixpoint fill (indices : list nat) (values : list T) (acc : list (option T))
  : result (list (option T)) :=
  match indices, values with
  | [], [] => Ok acc
  | i :: indices', x :: values' =>
      acc' <- set_entry i x acc ;; fill indices' values' acc'
  | _, _ => Raise (ValueError "indices and values differ in length")
  end.

(** [gb.Vector.from_values(indices, values, size=size, dtype=dtype)].
    A Python [None] among the values is not a number. *)
Definition Vector_from_values (indices : list nat) (values : list (option T))
           (n : option nat) (dtype : DType) : result Vector :=
  vals <- mapM (fun o => match o with
                         | Some x => Ok (cast gb dtype x)
                         | None => Raise TypeError
                         end) values ;;
  let n' := match n with
            | Some k => k
            | None => match indices with
                      | [] => 0
                      | _ :: _ => S (list_max indices)
                      end
            end in
  entries <- fill indices vals (repeat None n') ;;
  Ok (mkVector dtype entries).

(** [v[i].new()] *)
Definition Vector_getitem (v : Vector) (i : nat) : result Scalar :=
  match nth_error (v_entries v) i with
  | Some o => Ok (mkScalar (v_dtype v) o)
  | None => Raise IndexOutOfBound
  end.

(** *** Reductions *)

Definition fold_monoid (op : Monoid) (l : list T) : T :=
  fold_right (m_op op) (m_identity op) l.

(** The element-wise union of two optional entries. *)
Definition union (f : T -> T -> T) (a b : option T) : option T :=
  match a, b with
  | Some x, Some y => Some (f x y)
  | Some x, None => Some x
  | None, Some y => Some y
  | None, None => None
  end.

(** Reduction of the stored entries of one row or column: no entry when
    none is stored. *)
Definition reduce_entries (op : Monoid) (l : list (option T)) : option T :=
  fold_right (union (m_op op)) None l.

(** [v.reduce(op).new(dtype=dtype)]: reduction to a typed scalar, the
    identity of the monoid when nothing is stored. *)
Definition Vector_reduce (op : Monoid) (v : Vector) (dtype : option DType)
  : Scalar :=
  let d := pick dtype (v_dtype v) in
  mkScalar d (Some (cast gb d (fold_monoid op (present (v_entries v))))).

(** [m.reduce_scalar(op).new(dtype=dtype)] *)
Definition Matrix_reduce_scalar (op : Monoid) (m : Matrix) (dtype : option DType)
  : Scalar :=
  let d := pick dtype (m_dtype m) in
  mkScalar d (Some (cast gb d (fold_monoid op (present (concat (m_rows m)))))).

(** [m.reduce_rowwise(op).new(dtype=dtype)] *)
Definition Matrix_reduce_rowwise (op : Monoid) (m : Matrix) (dtype : option DType)
  : Vector :=
  let d := pick dtype (m_dtype m) in
  mkVector d (map (fun r => option_map (cast gb d) (reduce_entries op r)) (m_rows m)).

(** [m.reduce_columnwise(op).new(dtype=dtype)] *)
Definition Matrix_reduce_columnwise (op : Monoid) (m : Matrix)
           (dtype : option DType) : Vector :=
  let d := pick dtype (m_dtype m) in
  mkVector d (map (fun c => option_map (cast gb d) (reduce_entries op c))
                  (transpose (m_ncols m) (m_rows m))).

(** *** Element-wise union and matrix product *)

(** [u.ewise_add(v, op).new(dtype=dtype)]: without a requested dtype
    the result has the dtype that unifies the dtypes of the operands. *)
Definition Vector_ewise_add (f : T -> T -> T) (u v : Vector)
           (dtype : option DType) : result Vector :=
  if Nat.eqb (size u) (size v) then
    let d := pick dtype (unify gb (v_dtype u) (v_dtype v)) in
    Ok (mkVector d (map (option_map (cast gb d))
                        (zipw (union f) (v_entries u) (v_entries v))))
  else Raise DimensionMismatch.

Definition Matrix_ewise_add (f : T -> T -> T) (a b : Matrix)
           (dtype : option DType) : result Matrix :=
  if Nat.eqb (nrows a) (nrows b) && Nat.eqb (m_ncols a) (m_ncols b) then
    let d := pick dtype (unify gb (m_dtype a) (m_dtype b)) in
    Ok (mkMatrix d (m_ncols a)
                 (zipw (fun r r' => map (option_map (cast gb d)) (zipw (union f) r r'))
                       (m_rows a) (m_rows b)))
  else Raise DimensionMismatch.

(** [x.ewise_add(y, op).new(dtype=dtype)] on grblas objects; a scalar
    has no [ewise_add]. *)
Definition Gb_ewise_add (f : T -> T -> T) (x y : GbObject) (dtype : option DType)
  : result GbObject :=
  match x, y with
  | GbVector u, GbVector v => r <- Vector_ewise_add f u v dtype ;; Ok (GbVector r)
  | GbMatrix a, GbMatrix b => r <- Matrix_ewise_add f a b dtype ;; Ok (GbMatrix r)
  | GbScalar _, _ => Raise AttributeError
  | _, _ => Raise TypeError
  end.

Definition times (f : T -> T -> T) (a b : option T) : option T :=
  match a, b with
  | Some x, Some y => Some (f x y)
  | _, _ => None
  end.

Definition dot (op : Semiring) (row col : list (option T)) : option T :=
  reduce_entries (sr_monoid op) (zipw (times (sr_mult op)) row col).

(** [op(a @ b).new(dtype=dtype)] *)
Definition Matrix_mxm (op : Semiring) (a b : Matrix) (dtype : option DType)
  : result Matrix :=
  if Nat.eqb (m_ncols a) (nrows b) then
    let d := pick dtype (unify gb (m_dtype a) (m_dtype b)) in
    Ok (mkMatrix d (m_ncols b)
                 (map (fun r => map (fun c => option_map (cast gb d) (dot op r c))
                                    (transpose (m_ncols b) (m_rows b)))
                      (m_rows a)))
  else Raise DimensionMismatch.

(** *** Raw compressed storage *)

(** [v.ss.export(format='sparse', raw=True, give_ownership=False)]: the
    buffers of indices and values are the allocated ones, [nvals] stored
    entries followed by the unused slots. *)
Record SparseContents : Type := mkSparse {
  sp_dtype : DType;
  sp_size : nat;
  sp_nvals : nat;
  sp_indices : list nat;
  sp_values : list T
}.

Definition Vector_ss_export (v : Vector) : SparseContents :=
  let nvals := length (present (v_entries v)) in
  mkSparse (v_dtype v) (size v) nvals
           (positions 0 (v_entries v) ++ map fst (raw_slack gb nvals))
           (present (v_entries v) ++ map snd (raw_slack gb nvals)).

(** [gb.Vector.ss.import_sparse(size=, indices=, values=)] without
    [nvals=]: every slot of the buffers is an entry. *)
Definition Vector_ss_import_sparse (dtype : DType) (n : nat)
           (indices : list nat) (values : list T) : result Vector :=
  entries <- fill indices values (repeat None n) ;;
  Ok (mkVector dtype entries).

Definition slice {A : Type} (lo hi : nat) (l : list A) : list A :=
  firstn (hi - lo) (skipn lo l).

(** One compressed line: a row of CSR, a column of CSC. *)
Definition import_line (nminor : nat) (indptr indices : list nat)
           (values : list T) (r : nat) : result (list (option T)) :=
  match nth_error indptr r, nth_error indptr (S r) with
  | Some lo, Some hi =>
      fill (slice lo hi indices) (slice lo hi values) (repeat None nminor)
  | _, _ => Raise (ValueError "indptr is too short")
  end.

Definition import_compressed (nmajor nminor : nat) (indptr indices : list nat)
           (values : list T) : result (list (list (option T))) :=
  mapM (import_line nminor indptr indices values) (seq 0 nmajor).

(** [gb.Matrix.ss.import_csr(nrows=, ncols=, indptr=, values=,
    col_indices=)] *)
Definition Matrix_ss_import_csr (dtype : DType) (nr nc : nat) (indptr : list nat)
           (values : list T) (col_indices : list nat) : result Matrix :=
  rows <- import_compressed nr nc indptr col_indices values ;;
  Ok (mkMatrix dtype nc rows).

(** [gb.Matrix.ss.import_csc(nrows=, ncols=, indptr=, values=,
    row_indices=)] *)
Definition Matrix_ss_import_csc (dtype : DType) (nr nc : nat) (indptr : list nat)
           (values : list T) (row_indices : list nat) : result Matrix :=
  cols <- import_compressed nc nr indptr row_indices values ;;
  Ok (mkMatrix dtype nc (transpose nr cols)).

(** The offsets of consecutive lines with the given numbers of stored
    entries. *)
Fixpoint offsets (start : nat) (counts : list nat) : list nat :=
  match counts with
  | [] => [start]
  | c :: t => start :: offsets (start + c) t
  end.

(** [m.ss.unpack(format='csr', raw=True)] and
    [m.ss.unpack(format='csc', raw=True)]: the buffers of indices and
    values are the allocated ones, the stored entries line by line
    followed by the unused slots. *)
Record CompressedContents : Type := mkCompressed {
  c_dtype : DType;
  c_nrows : nat;
  c_ncols : nat;
  c_indptr : list nat;
  c_indices : list nat;
  c_values : list T
}.

Definition compress (dtype : DType) (nr nc : nat) (lines : list (list (option T)))
  : CompressedContents :=
  let nvals := length (concat (map (@present T) lines)) in
  mkCompressed dtype nr nc
               (offsets 0 (map (fun l => length (present l)) lines))
               (concat (map (positions 0) lines) ++ map fst (raw_slack gb nvals))
               (concat (map (@present T) lines) ++ map snd (raw_slack gb nvals)).

Definition Matrix_ss_unpack_csr (m : Matrix) : CompressedContents :=
  compress (m_dtype m) (nrows m) (m_ncols m) (m_rows m).

Definition Matrix_ss_unpack_csc (m : Matrix) : CompressedContents :=
  compress (m_dtype m) (nrows m) (m_ncols m) (transpose (m_ncols m) (m_rows m)).

(** [a @ b] under the semiring [op], between matrices and vectors. *)
Definition Gb_matmul (op : Semiring) (a b : GbObject) (dtype : option DType)
  : result GbObject :=
  match a, b with
  | GbMatrix x, GbMatrix y => r <- Matrix_mxm op x y dtype ;; Ok (GbMatrix r)
  | GbMatrix x, GbVector v =>
      if Nat.eqb (m_ncols x) (size v) then
        let d := pick dtype (unify gb (m_dtype x) (v_dtype v)) in
        Ok (GbVector (mkVector d (map (fun r => option_map (cast gb d)
                                                  (dot op r (v_entries v)))
                                      (m_rows x))))
      else Raise DimensionMismatch
  | GbVector u, GbMatrix y =>
      if Nat.eqb (size u) (nrows y) then
        let d := pick dtype (unify gb (v_dtype u) (m_dtype y)) in
        Ok (GbVector (mkVector d (map (fun c => option_map (cast gb d)
                                                  (dot op (v_entries u) c))
                                      (transpose (m_ncols y) (m_rows y)))))
      else Raise DimensionMismatch
  | GbVector u, GbVector v =>
      if Nat.eqb (size u) (size v) then
        let d := pick dtype (unify gb (v_dtype u) (v_dtype v)) in
        Ok (GbScalar (mkScalar d (option_map (cast gb d)
                                             (dot op (v_entries u) (v_entries v)))))
      else Raise DimensionMismatch
  | _, _ => Raise TypeError
  end.

(* ---------------------------------------------------------------- *)
(** ** [expr.py]: the shape adapters *)

Definition asOneColMatrix (inner_vector : Inner) : result Inner :=
  match inner_vector with
  | InnerVector vector =>
      let contents := Vector_ss_export vector in
      m <- Matrix_ss_import_csc (sp_dtype contents)
             (sp_size contents) 1
             [0; sp_nvals contents]
             (sp_values contents)
             (sp_indices contents) ;;
      Ok (wrap_inner (GbMatrix m))
  | InnerMatrix _ | FakeInnerTensor _ =>
      Raise (ValueError "Invalid format: sparse")
  | _ => Raise AttributeError
  end.

Definition asOneRowMatrix (inner_vector : Inner) : result Inner :=
  match inner_vector with
  | InnerVector vector =>
      let contents := Vector_ss_export vector in
      m <- Matrix_ss_import_csr (sp_dtype contents)
             1 (sp_size contents)
             [0; sp_nvals contents]
             (sp_values contents)
             (sp_indices contents) ;;
      Ok (wrap_inner (GbMatrix m))
  | InnerMatrix _ | FakeInnerTensor _ =>
      Raise (ValueError "Invalid format: sparse")
  | _ => Raise AttributeError
  end.

Definition asVector (matrix : Matrix) : result Vector :=
  if Nat.eqb (nrows matrix) 1 then
    let contents := Matrix_ss_unpack_csr matrix in
    Vector_ss_import_sparse (c_dtype contents)
      (c_ncols contents) (c_indices contents) (c_values contents)
  else if Nat.eqb (m_ncols matrix) 1 then
    let contents := Matrix_ss_unpack_csc matrix in
    Vector_ss_import_sparse (c_dtype contents)
      (c_nrows contents) (c_indices contents) (c_values contents)
  else Raise NotImplementedError.

(* ---------------------------------------------------------------- *)
(** ** [expr.py]: the block functions of the reductions *)

(** [type(grblas_matrix) is gb.Matrix] is asserted by
    [FakeInnerTensor.__init__]. *)
Definition FakeInnerTensor_init (grblas_matrix : GbObject) : result Inner :=
  match grblas_matrix with
  | GbMatrix m => Ok (FakeInnerTensor m)
  | _ => Raise AssertionError
  end.

Definition _reduce_axis (op : Monoid) (gb_dtype : DType) (x : Inner)
           (axis : list nat) (computing_meta : bool) (dtype : DType)
  : result Inner :=
  if computing_meta then Ok (NpEmpty dtype)
  else if list_eq_dec Nat.eq_dec axis [1] then
    match x with
    | InnerMatrix m | FakeInnerTensor m =>
        Ok (wrap_inner (GbVector (Matrix_reduce_rowwise op m (Some gb_dtype))))
    | _ => Raise AttributeError
    end
  else if list_eq_dec Nat.eq_dec axis [0] then
    match x with
    | InnerMatrix m | FakeInnerTensor m =>
        Ok (wrap_inner (GbVector (Matrix_reduce_columnwise op m (Some gb_dtype))))
    | _ => Raise AttributeError
    end
  else Ok PyNone.

Definition _reduce_axis_combine (op : Monoid) (x : Partials Inner)
           (computing_meta : bool) (dtype : DType) : result Inner :=
  if computing_meta then Ok (NpEmpty dtype)
  else
    match x with
    | Flat xs =>
        vals <- mapM value_of xs ;;
        r <- reduce (fun x y => Gb_ewise_add (m_op op) x y None) vals ;;
        Ok (wrap_inner r)
    | Nested [] => Raise TypeError
    | Nested (_ :: _) => Raise AttributeError
    | One x => Ok x
    end.

Definition _reduce_scalar (op : Monoid) (gb_dtype : DType) (x : Inner)
           (computing_meta : bool) (dtype : DType) : result Inner :=
  if computing_meta then Ok (NpEmpty dtype)
  else
    match x with
    | InnerMatrix m | FakeInnerTensor m =>
        Ok (wrap_inner (GbScalar (Matrix_reduce_scalar op m (Some gb_dtype))))
    | _ => Raise AttributeError
    end.

Definition _reduce (op : Monoid) (gb_dtype : DType) (x : Inner)
           (computing_meta : bool) (dtype : DType) : result Inner :=
  if computing_meta then Ok (NpEmpty dtype)
  else
    match x with
    | InnerVector v =>
        Ok (wrap_inner (GbScalar (Vector_reduce op v (Some gb_dtype))))
    | _ => Raise AttributeError
    end.

(** [val.value.value]: the Python number of a wrapped scalar, [None]
    when it is empty. *)
Definition scalar_value (val : Inner) : result (option T) :=
  match val with
  | InnerScalar s => Ok (s_value s)
  | _ => Raise AttributeError
  end.

Definition _reduce_combine (op : Monoid) (x : Partials Inner)
           (computing_meta : bool) (dtype : DType) : result Inner :=
  if computing_meta then Ok (NpEmpty dtype)
  else
    match x with
    | Flat [] | Nested [] => Raise IndexError
    | Nested xss =>
        vals <- mapM scalar_value (concat xss) ;;
        values <- Vector_from_values (seq 0 (length vals)) vals
                                     (Some (length vals)) dtype ;;
        Ok (wrap_inner (GbScalar (Vector_reduce op values None)))
    | Flat xs =>
        vals <- mapM scalar_value xs ;;
        values <- Vector_from_values (seq 0 (length vals)) vals
                                     (Some (length vals)) dtype ;;
        Ok (wrap_inner (GbScalar (Vector_reduce op values None)))
    | One x => Ok x
    end.

Definition _reduce_accum (output reduced : Inner) (accum : T -> T -> T)
  : result Inner :=
  match output, reduced with
  | InnerScalar o, InnerScalar r =>
      let dtype := s_dtype o in
      left <- (if is_empty o then Ok (Vector_new dtype 1)
               else Vector_from_values [0] [s_value o] None dtype) ;;
      right <- (if is_empty r then Ok (Vector_new (s_dtype r) 1)
                else Vector_from_values [0] [s_value r] None (s_dtype r)) ;;
      result <- Vector_ewise_add accum left right (Some dtype) ;;
      result <- Vector_getitem result 0 ;;
      Ok (wrap_inner (GbScalar result))
  | _, _ => Raise AttributeError
  end.

Definition _reduce_axis_accum (output reduced : Inner) (accum : T -> T -> T)
  : result Inner :=
  match reduced with
  | NpEmpty _ => v <- gb_vector_new_default gb ;; Ok (wrap_inner (GbVector v))
  | _ =>
      o <- value_of output ;;
      let dtype := dtype_of o in
      let left := if eq_int (shape_of o) 0 then GbVector (Vector_new dtype 1)
                  else o in
      r <- value_of reduced ;;
      let right := if eq_int (shape_of r) 0
                   then GbVector (Vector_new (dtype_of r) 1)
                   else r in
      result <- Gb_ewise_add accum left right (Some dtype) ;;
      Ok (wrap_inner result)
  end.

(** ** [expr.py]: the block functions of the slab multiply *)

Definition _matmul2 (op : Semiring) (dtype : DType) (a b : Inner)
           (computing_meta : bool) : result Inner :=
  if computing_meta then Ok (NpEmpty dtype)
  else
    va <- value_of a ;;
    vb <- value_of b ;;
    r <- Gb_matmul op va vb (Some dtype) ;;
    FakeInnerTensor_init r.

Definition _sum_by_monoid (monoid : Monoid) (a : Partials Inner) (keepdims : bool)
  : result Inner :=
  out <- match a with
         | One x => Ok x
         | Flat xs =>
             vals <- mapM value_of xs ;;
             out <- reduce (fun x y => Gb_ewise_add (m_op monoid) x y None) vals ;;
             FakeInnerTensor_init out
         | Nested [] => Raise TypeError
         | Nested (_ :: _) => Raise AttributeError
         end ;;
  if negb keepdims then v <- value_of out ;; Ok (wrap_inner v)
  else Ok out.

(* ---------------------------------------------------------------- *)
(** ** Collections, masks and deferred expressions *)

Variable sched : Scheduler.

Definition Delayed : Type := Array Inner.

(** A partitioned scalar, vector or matrix of dask-grblas
    ([BaseType]): the array of its blocks and its metadata placeholder,
    a grblas object of the same kind and dtype. *)
Record Collection : Type := mkCollection {
  c_delayed : Delayed;
  c_meta : GbObject
}.

(** [get_return_type(meta)(delayed)] *)
Definition get_return_type (meta : GbObject) (delayed : Delayed) : Collection :=
  mkCollection delayed meta.

(** A mask: the masking collection [mask.mask] and the grblas wrapper
    [get_grblas_type(mask)]; [mask._meta] is built from the placeholder
    of [mask.mask]. *)
Record Mask : Type := mkMask {
  mask_kind : MaskKind;
  mask_mask : Collection
}.

Definition get_grblas_type (mask : Mask) : MaskKind := mask_kind mask.

Definition Mask_meta (mask : Mask) : Mask_value :=
  (mask_kind mask, c_meta (mask_mask mask)).

Record GbDelayed : Type := mkGbDelayed {
  parent : Collection;
  method_name : string;
  args : list (PyArg Collection);
  kwargs : list (string * PyConst);
  gd_meta : GbObject
}.

(** [mask_type(mask.value)] when a mask block is given. *)
Definition mask_value (mask_type : option MaskKind) (mask : option Inner)
  : result (option Mask_value) :=
  match mask with
  | None => Ok None
  | Some m =>
      v <- value_of m ;;
      match mask_type with
      | Some k => Ok (Some (k, v))
      | None => Raise TypeError
      end
  end.

(** [x.value if isinstance(x, InnerBaseType) else x] *)
Definition unwrap_arg (x : PyArg Inner) : result (PyArg GbObject) :=
  match x with
  | Const c => Ok (Const c)
  | Collected i => v <- value_of i ;; Ok (Collected v)
  end.

(** [x._delayed if isinstance(x, BaseType) else x] *)
Definition delayed_arg (x : PyArg Collection) : PyArg Delayed :=
  match x with
  | Const c => Const c
  | Collected c => Collected (c_delayed c)
  end.

(** [da.core.elemwise(f, *args)]: the arrays among the arguments are
    paired block by block, every other argument is passed on to each
    call. *)
Fixpoint first_array (l : list (PyArg Delayed)) : result Delayed :=
  match l with
  | [] => Raise (ValueError "no array among the arguments")
  | Collected x :: _ => Ok x
  | Const _ :: t => first_array t
  end.

Fixpoint gather (l : list (PyArg Delayed))
         (acc : Array (list (PyArg Inner) * option Inner))
  : result (Array (list (PyArg Inner) * option Inner)) :=
  match l with
  | [] => Ok acc
  | Const c :: t =>
      acc' <- map_blocks (fun p => Ok (fst p ++ [Const c], snd p)) acc ;;
      gather t acc'
  | Collected x :: t =>
      acc' <- elemwise2 (fun p b => Ok (fst p ++ [Collected b], snd p)) acc x ;;
      gather t acc'
  end.

Definition elemwise (f : list (PyArg Inner) -> result Inner)
           (l : list (PyArg Delayed)) : result Delayed :=
  x0 <- first_array l ;;
  t <- map_blocks (fun _ => Ok ([], @None Inner)) x0 ;;
  a <- gather l t ;;
  map_blocks (fun p => f (fst p)) a.

(** An optional array argument: Python's [None] is passed on as it is. *)
Definition optional_arg (x : option Delayed) : list (PyArg Delayed) :=
  match x with
  | Some d => [Collected d]
  | None => []
  end.

Definition _expr_new (method_name : string) (dtype : option DType)
           (grblas_mask_type : option MaskKind) (kwargs : list (string * PyConst))
           (x : Inner) (mask : option Inner) (args : list (PyArg Inner))
  : result Inner :=
  args <- mapM unwrap_arg args ;;
  xv <- value_of x ;;
  mask <- mask_value grblas_mask_type mask ;;
  r <- gb_method gb method_name xv args kwargs dtype mask ;;
  Ok (wrap_inner r).

Definition _update_expr (method_name : string) (updating x : Inner)
           (kwargs : list (string * PyConst)) (args : list (PyArg Inner))
  : result Inner :=
  args <- mapM unwrap_arg args ;;
  xv <- value_of x ;;
  expr <- gb_method gb method_name xv args kwargs None None ;;
  u <- value_of updating ;;
  r <- Gb_update u expr ;;
  Ok (wrap_inner r).

Definition _update_expr_full (method_name : string) (updating : Inner)
           (accum : option (T -> T -> T)) (mask : option Inner)
           (mask_type : option MaskKind) (replace : option bool) (x : Inner)
           (kwargs : list (string * PyConst)) (args : list (PyArg Inner))
  : result Inner :=
  args <- mapM unwrap_arg args ;;
  xv <- value_of x ;;
  expr <- gb_method gb method_name xv args kwargs None None ;;
  mask <- mask_value mask_type mask ;;
  u <- value_of updating ;;
  r <- gb_assign gb u accum mask replace expr ;;
  Ok (wrap_inner r).

(** [self.args[i]] read as a monoid, a semiring or a collection. *)
Definition arg_monoid (l : list (PyArg Collection)) (i : nat) : result Monoid :=
  match nth_error l i with
  | None => Raise IndexError
  | Some (Const (ArgMonoid op)) => Ok op
  | Some _ => Raise TypeError
  end.

Definition arg_semiring (l : list (PyArg Collection)) (i : nat) : result Semiring :=
  match nth_error l i with
  | None => Raise IndexError
  | Some (Const (ArgSemiring op)) => Ok op
  | Some _ => Raise AttributeError
  end.

Definition arg_delayed (l : list (PyArg Collection)) (i : nat) : result Delayed :=
  match nth_error l i with
  | None => Raise IndexError
  | Some (Collected c) => Ok (c_delayed c)
  | Some (Const _) => Raise AttributeError
  end.

Definition sum_by_monoid (monoid : Monoid) (a : Delayed) (axis : option Z)
           (keepdims : bool) : result Delayed :=
  reduction sched
    (fun _ kd x => _sum_by_monoid monoid (One x) kd)
    (fun _ kd x => _sum_by_monoid monoid x kd)
    a axis keepdims.

(** [a.map_blocks(f, new_axis=0)] and [b.map_blocks(f, new_axis=1)] on a
    1-dimensional array: a single row, a single column of blocks. *)
Definition map_blocks_new_axis (f : Inner -> result Inner) (new_axis : nat)
           (x : Delayed) : result Delayed :=
  match x with
  | Array1 bs =>
      ys <- mapM f bs ;;
      Ok (Array2 (match new_axis with
                  | O => [ys]
                  | S _ => map (fun y => [y]) ys
                  end))
  | _ => Raise (ValueError "new_axis")
  end.

(** Modelled from the spec: the block indexing behind [out[..., 0, :]]
    and [out[..., 0]] is in [dask_grblas/base.py] and
    [dask_grblas/matrix.py], which are not under src/.  Section 4.4,
    step 5: the axis added in step 1 is dropped again, independently for
    each lifted operand; section 4.6: the inverse of the lifting
    requires the block to have exactly one row or exactly one column
    and fails with [UnsupportedOperation] otherwise; section 8: the
    lifting and its inverse give the original block, with the same
    indices and values. *)
Definition unlift (m : Matrix) : result Vector :=
  if Nat.eqb (nrows m) 1 then Ok (mkVector (m_dtype m) (hd [] (m_rows m)))
  else if Nat.eqb (m_ncols m) 1 then
    Ok (mkVector (m_dtype m) (column 0 (m_rows m)))
  else Raise NotImplementedError.

Definition as_inner_vector (b : Inner) : result Inner :=
  match b with
  | InnerMatrix m => v <- unlift m ;; Ok (InnerVector v)
  | _ => Raise TypeError
  end.

Definition drop_row_axis (out : Delayed) : result Delayed :=
  match out with
  | Array2 (row :: _) => vs <- mapM as_inner_vector row ;; Ok (Array1 vs)
  | _ => Raise IndexError
  end.

Definition drop_col_axis (out : Delayed) : result Delayed :=
  match out with
  | Array2 g =>
      vs <- mapM (fun row => match row with
                             | b :: _ => as_inner_vector b
                             | [] => Raise IndexError
                             end) g ;;
      Ok (Array1 vs)
  | Array1 (InnerVector v :: _) =>
      s <- Vector_getitem v 0 ;; Ok (Array0 (InnerScalar s))
  | _ => Raise IndexError
  end.

Definition GbDelayed__matmul2 (self : GbDelayed) (meta : GbObject)
  : result Delayed :=
  let a := c_delayed (parent self) in
  b <- arg_delayed (args self) 0 ;;
  op <- arg_semiring (args self) 1 ;;
  a1 <- (if Nat.eqb (ndim a) 1 then
           sum_meta <- asOneRowMatrix (wrap_inner meta) ;;
           a' <- map_blocks_new_axis asOneRowMatrix 0 a ;;
           Ok (a', true, Some sum_meta)
         else Ok (a, false, None)) ;;
  let '(a, a_is_1d, sum_meta) := a1 in
  b1 <- (if Nat.eqb (ndim b) 1 then
           sum_meta' <- asOneColMatrix (wrap_inner meta) ;;
           b' <- map_blocks_new_axis asOneColMatrix 1 b ;;
           Ok (b', true, Some sum_meta')
         else Ok (b, false, sum_meta)) ;;
  let '(b, b_is_1d, sum_meta) := b1 in
  sum_meta <- match sum_meta with
              | Some m => Ok m
              | None => Raise UnboundLocalError
              end ;;
  v <- value_of sum_meta ;;
  FakeInnerTensor_init v ;;;
  out <- blockwise_ij_jk (fun x y => _matmul2 op (dtype_of meta) x y false) a b ;;
  out <- sum_by_monoid (sr_monoid op) out (Some (-2)%Z) false ;;
  out <- (if a_is_1d then drop_row_axis out else Ok out) ;;
  out <- (if b_is_1d then drop_col_axis out else Ok out) ;;
  Ok out.

Definition GbDelayed__reduce_along_axis (self : GbDelayed) (axis : Z)
           (dtype : DType) : result Delayed :=
  assert (is_nil (kwargs self)) ;;;
  op <- arg_monoid (args self) 0 ;;
  reduction sched
    (fun ax _ x => _reduce_axis op dtype x ax false dtype)
    (fun _ _ x => _reduce_axis_combine op x false dtype)
    (c_delayed (parent self)) (Some axis) false.

Definition GbDelayed__reduce_scalar (self : GbDelayed) (dtype : DType)
  : result Delayed :=
  assert (is_nil (kwargs self)) ;;;
  op <- arg_monoid (args self) 0 ;;
  reduction sched
    (fun _ _ x => _reduce_scalar op dtype x false dtype)
    (fun _ _ x => _reduce_combine op x false dtype)
    (c_delayed (parent self)) None false.

Definition GbDelayed__reduce (self : GbDelayed) (dtype : DType)
  : result Delayed :=
  assert (is_nil (kwargs self)) ;;;
  op <- arg_monoid (args self) 0 ;;
  reduction sched
    (fun _ _ x => _reduce op dtype x false dtype)
    (fun _ _ x => _reduce_combine op x false dtype)
    (c_delayed (parent self)) None false.

Definition name_in (name : string) (names : list string) : bool :=
  existsb (String.eqb name) names.

(** The operation names that [new] and [_update] dispatch on. *)
Definition known_operations : list string :=
  ["reduce"; "reduce_scalar"; "reduce_rowwise"; "reduce_columnwise";
   "apply"; "ewise_add"; "ewise_mult"; "vxm"; "mxv"]%string.

Definition GbDelayed_new (self : GbDelayed) (dtype : option DType)
           (mask : option Mask) : result Collection :=
  meta <- Gb_new (gd_meta self) dtype (option_map Mask_meta mask) ;;
  let delayed_mask := option_map (fun m => c_delayed (mask_mask m)) mask in
  let grblas_mask_type := option_map get_grblas_type mask in
  delayed <-
    (if String.eqb (method_name self) "reduce" then
       GbDelayed__reduce self (dtype_of meta)
     else if String.eqb (method_name self) "reduce_scalar" then
       GbDelayed__reduce_scalar self (dtype_of meta)
     else if String.eqb (method_name self) "reduce_rowwise" then
       GbDelayed__reduce_along_axis self 1 (dtype_of meta)
     else if String.eqb (method_name self) "reduce_columnwise" then
       GbDelayed__reduce_along_axis self 0 (dtype_of meta)
     else if name_in (method_name self) ["apply"; "ewise_add"; "ewise_mult"]%string then
       match delayed_mask with
       | Some dm =>
           elemwise
             (fun l => match l with
                       | Collected x :: Collected m :: rest =>
                           _expr_new (method_name self) dtype grblas_mask_type
                                     (kwargs self) x (Some m) rest
                       | _ => Raise TypeError
                       end)
             (Collected (c_delayed (parent self)) :: Collected dm
                :: map delayed_arg (args self))
       | None =>
           elemwise
             (fun l => match l with
                       | Collected x :: rest =>
                           _expr_new (method_name self) dtype grblas_mask_type
                                     (kwargs self) x None rest
                       | _ => Raise TypeError
                       end)
             (Collected (c_delayed (parent self)) :: map delayed_arg (args self))
       end
     else if name_in (method_name self) ["vxm"; "mxv"]%string then
       GbDelayed__matmul2 self meta
     else Raise (ValueError (method_name self))) ;;
  Ok (get_return_type meta delayed).

(* ---------------------------------------------------------------- *)
(** ** Updater and the write path *)

Definition is_none {A : Type} (o : option A) : bool :=
  match o with
  | None => true
  | Some _ => false
  end.

(** The metadata-level qualified target [parent._meta(mask=..., accum=...,
    replace=...)], a grblas [Updater]. *)
Record MetaUpdater : Type := mkMetaUpdater {
  mu_parent : GbObject;
  mu_mask : option Mask_value;
  mu_accum : option (T -> T -> T);
  mu_replace : option bool
}.

(** Modelled from the spec: the call [parent._meta(mask=..., accum=...,
    replace=...)] is answered by the backend, whose code is not under
    src/.  Section 4.2: "constructing without a mask must reject any
    non-default [replace] as a usage error"; section 7 lists "replace
    set without mask" under [UsageError]. *)
Definition meta_call (meta : GbObject) (mask : option Mask_value)
           (accum : option (T -> T -> T)) (replace : option bool)
  : result MetaUpdater :=
  match mask, replace with
  | None, Some true => Raise TypeError
  | _, _ => Ok (mkMetaUpdater meta mask accum replace)
  end.

Record Updater : Type := mkUpdater {
  u_parent : Collection;
  u_mask : option Mask;
  u_accum : option (T -> T -> T);
  u_replace : option bool;
  u_meta : MetaUpdater
}.

(** The default of the keyword [replace] of [Updater.__init__]. *)
Definition replace_default : option bool := Some false.

(** [Updater.__init__(self, parent, *, mask=None, accum=None,
    replace=False)] *)
Definition Updater_init (parent : Collection) (mask : option Mask)
           (accum : option (T -> T -> T)) (replace : option bool)
  : result Updater :=
  let self_replace := match mask with
                      | None => None
                      | Some _ => replace
                      end in
  meta <- meta_call (c_meta parent) (option_map Mask_meta mask) accum replace ;;
  Ok (mkUpdater parent mask accum self_replace meta).

(** [Updater.update(self, delayed)]; [self.parent.update] and
    [self.parent._update] are methods of [BaseType]
    ([dask_grblas/base.py]) and [get_meta] is in [dask_grblas/utils.py]:
    they are arguments here.  The metadata update is done in place:
    [_is_scalar] is read from the placeholder the parent had from the
    start.  The result is the parent after the write. *)
Definition Updater_update {S : Type} (get_meta : S -> GbObject)
           (parent_update : Collection -> S -> result Collection)
           (parent__update :
              Collection -> S -> option Mask -> option (T -> T -> T) ->
              option bool -> result Collection)
           (self : Updater) (delayed : S) : result Collection :=
  if is_none (u_mask self) && is_none (u_accum self) then
    parent_update (u_parent self) delayed
  else
    meta <- gb_assign gb (c_meta (u_parent self)) (u_accum self)
                      (option_map Mask_meta (u_mask self)) (u_replace self)
                      (get_meta delayed) ;;
    let parent := mkCollection (c_delayed (u_parent self)) meta in
    if is_scalar (c_meta (u_parent self)) then
      parent__update parent delayed None (u_accum self) None
    else
      parent__update parent delayed (u_mask self) (u_accum self) (u_replace self).

(** Modelled from the spec: [BaseType.update] and [BaseType._update]
    with a materialized collection as source are in
    [dask_grblas/base.py], not under src/.  Section 4.2: the plain
    update is the unqualified write of the source into the target;
    section 6: the qualified one is the block-local masked, accumulated,
    replace-qualified write of the backend. *)
Definition BaseType_update_collection (self source : Collection)
  : result Collection :=
  meta <- Gb_update (c_meta self) (c_meta source) ;;
  delayed <- elemwise2 (fun u x =>
                          uv <- value_of u ;;
                          xv <- value_of x ;;
                          r <- Gb_update uv xv ;;
                          Ok (wrap_inner r))
                       (c_delayed self) (c_delayed source) ;;
  Ok (mkCollection delayed (clear meta)).

Definition BaseType__update_collection (self source : Collection)
           (mask : option Mask) (accum : option (T -> T -> T))
           (replace : option bool) : result Collection :=
  delayed <-
    match mask with
    | Some m =>
        um <- elemwise2 (fun u k => Ok (u, k))
                        (c_delayed self) (c_delayed (mask_mask m)) ;;
        elemwise2 (fun p x =>
                     uv <- value_of (fst p) ;;
                     kv <- value_of (snd p) ;;
                     xv <- value_of x ;;
                     r <- gb_assign gb uv accum (Some (mask_kind m, kv)) replace xv ;;
                     Ok (wrap_inner r))
                  um (c_delayed source)
    | None =>
        elemwise2 (fun u x =>
                     uv <- value_of u ;;
                     xv <- value_of x ;;
                     r <- gb_assign gb uv accum None replace xv ;;
                     Ok (wrap_inner r))
                  (c_delayed self) (c_delayed source)
    end ;;
  Ok (mkCollection delayed (c_meta self)).

(** [updating._optional_dup()] ([dask_grblas/base.py]): the blocks of the
    target, duplicated where they are shared.  A block is a value here,
    and its duplicate is the block. *)
Definition _optional_dup (updating : Collection) : Delayed := c_delayed updating.

(** The accumulation step of the reductions:
    [da.core.elemwise(f, updating._delayed, delayed, accum)]. *)
Definition accumulate (f : Inner -> Inner -> (T -> T -> T) -> result Inner)
           (updating : Collection) (delayed : Delayed) (accum : T -> T -> T)
  : result Delayed :=
  elemwise (fun l => match l with
                     | [Collected o; Collected r; Const (ArgBinary g)] => f o r g
                     | _ => Raise TypeError
                     end)
           [Collected (c_delayed updating); Collected delayed;
            Const (ArgBinary accum)].

(** [GbDelayed._update(self, updating, *, mask=None, accum=None,
    replace=None)]; the result is [updating] after the write. *)
Definition GbDelayed__update (self : GbDelayed) (updating : Collection)
           (mask : option Mask) (accum : option (T -> T -> T))
           (replace : option bool) : result Collection :=
  meta <- Gb_update (c_meta updating) (gd_meta self) ;;
  assert (is_scalar meta || Nat.eqb (nvals_of meta) 0) ;;;
  if String.eqb (method_name self) "reduce" then
    let meta := clear meta in
    delayed <- GbDelayed__reduce self (dtype_of meta) ;;
    delayed <- match accum with
               | Some f => accumulate _reduce_accum updating delayed f
               | None => Ok delayed
               end ;;
    Ok (mkCollection delayed meta)
  else if String.eqb (method_name self) "reduce_scalar" then
    let meta := clear meta in
    delayed <- GbDelayed__reduce_scalar self (dtype_of meta) ;;
    delayed <- match accum with
               | Some f => accumulate _reduce_accum updating delayed f
               | None => Ok delayed
               end ;;
    Ok (mkCollection delayed meta)
  else if String.eqb (method_name self) "reduce_rowwise" then
    let meta := clear meta in
    delayed <- GbDelayed__reduce_along_axis self 1 (dtype_of meta) ;;
    delayed <- match accum with
               | Some f => accumulate _reduce_axis_accum updating delayed f
               | None => Ok delayed
               end ;;
    Ok (mkCollection delayed meta)
  else if String.eqb (method_name self) "reduce_columnwise" then
    let meta := clear meta in
    delayed <- GbDelayed__reduce_along_axis self 0 (dtype_of meta) ;;
    delayed <- match accum with
               | Some f => accumulate _reduce_axis_accum updating delayed f
               | None => Ok delayed
               end ;;
    Ok (mkCollection delayed meta)
  else if name_in (method_name self) ["apply"; "ewise_add"; "ewise_mult"]%string then
    let delayed := _optional_dup updating in
    delayed <-
      (if is_none mask && is_none accum then
         elemwise
           (fun l => match l with
                     | Collected u :: Collected x :: rest =>
                         _update_expr (method_name self) u x (kwargs self) rest
                     | _ => Raise TypeError
                     end)
           (Collected delayed :: Collected (c_delayed (parent self))
              :: map delayed_arg (args self))
       else
         match mask with
         | Some m =>
             elemwise
               (fun l => match l with
                         | Collected u :: Collected k :: Collected x :: rest =>
                             _update_expr_full (method_name self) u accum (Some k)
                               (Some (get_grblas_type m)) replace x
                               (kwargs self) rest
                         | _ => Raise TypeError
                         end)
               (Collected delayed :: Collected (c_delayed (mask_mask m))
                  :: Collected (c_delayed (parent self))
                  :: map delayed_arg (args self))
         | None =>
             elemwise
               (fun l => match l with
                         | Collected u :: Collected x :: rest =>
                             _update_expr_full (method_name self) u accum None
                               None replace x (kwargs self) rest
                         | _ => Raise TypeError
                         end)
               (Collected delayed :: Collected (c_delayed (parent self))
                  :: map delayed_arg (args self))
         end) ;;
    Ok (mkCollection delayed meta)
  else if name_in (method_name self) ["vxm"; "mxv"]%string then
    delayed <- GbDelayed__matmul2 self meta ;;
    u <- Updater_init (mkCollection (c_delayed updating) meta) mask accum replace ;;
    Updater_update c_meta BaseType_update_collection BaseType__update_collection
                   u (get_return_type meta delayed)
  else Raise (ValueError (method_name self)).

(** Modelled from the spec: [BaseType.update] and [BaseType._update]
    with a deferred expression as source are in [dask_grblas/base.py],
    not under src/.  Section 4.2: the plain update is the unqualified
    write of the expression, and the qualified one performs
    [expr.writeInto(target, mask, accum, replace)]. *)
Definition BaseType_update (self : Collection) (delayed : GbDelayed)
  : result Collection :=
  GbDelayed__update delayed self None None None.

Definition BaseType__update (self : Collection) (delayed : GbDelayed)
           (mask : option Mask) (accum : option (T -> T -> T))
           (replace : option bool) : result Collection :=
  GbDelayed__update delayed self mask accum replace.

(** [Updater.update] with a deferred expression: [C(params) << expr]. *)
Definition Updater_update_expr (self : Updater) (delayed : GbDelayed)
  : result Collection :=
  Updater_update gd_meta BaseType_update BaseType__update self delayed.

(* ---------------------------------------------------------------- *)
(** ** The lazy indexer *)

(** [Extractor]: [inner] is a block or another [Extractor]. *)
Inductive Extractor : Type :=
| mkExtractor (inner : Inner + Extractor) (index : option index)
              (dtype : DType) (ndim : PyVal).

Definition e_inner (e : Extractor) : Inner + Extractor :=
  match e with mkExtractor i _ _ _ => i end.
Definition e_index (e : Extractor) : option index :=
  match e with mkExtractor _ i _ _ => i end.
Definition e_dtype (e : Extractor) : DType :=
  match e with mkExtractor _ _ d _ => d end.
Definition e_ndim (e : Extractor) : PyVal :=
  match e with mkExtractor _ _ _ n => n end.

(** [inner.dtype] of a block. *)
Definition inner_dtype (x : Inner) : result DType :=
  match x with
  | NpEmpty d => Ok d
  | _ => v <- value_of x ;; Ok (dtype_of v)
  end.

(** [Extractor.__init__(self, inner, index=None)] *)
Definition Extractor_init (inner : Inner + Extractor) (index : option index)
  : result Extractor :=
  d <- match inner with
       | inl b => inner_dtype b
       | inr e => Ok (e_dtype e)
       end ;;
  Ok (mkExtractor inner index d (PyDType d)).

(** [Extractor.__getitem__(self, index)] *)
Definition Extractor_getitem (self : Extractor) (index : index)
  : result Extractor :=
  Extractor_init (inr self) (Some index).

(** The loop of [_extractor_new] and the assignment after it. *)
Fixpoint walk (inner : Extractor) (indices : list index)
  : result (list index * (Inner + Extractor)) :=
  match inner with
  | mkExtractor i (Some ix) _ _ =>
      match i with
      | inr e => walk e (indices ++ [ix])
      | inl _ => Raise AttributeError
      end
  | mkExtractor i None _ _ => Ok (indices, i)
  end.

Definition inner_value (inner : Inner + Extractor) : result GbObject :=
  match inner with
  | inl b => value_of b
  | inr _ => Raise AttributeError
  end.

Definition _extractor_new (x : Extractor) (dtype : option DType)
           (mask : option Inner) (mask_type : option MaskKind) : result Inner :=
  p <- walk x [] ;;
  let '(indices, inner) := p in
  mask <- mask_value mask_type mask ;;
  value <- match indices with
           | [] =>
               v <- inner_value inner ;;
               gb_dup gb v dtype mask
           | [index] =>
               let index := match index with
                            | Tuple [a] => Single a
                            | _ => index
                            end in
               v <- inner_value inner ;;
               gb_extract gb v index dtype mask
           | _ => Raise NotImplementedError
           end ;;
  Ok (wrap_inner value).

(** The chain [Extractor(block)[i1]...[in]] that the slicing of an array
    of [Extractor] blocks builds on one block. *)
Definition lazy_chain (block : Inner) (indices : list index) : result Extractor :=
  e <- Extractor_init (inl block) None ;;
  foldM Extractor_getitem indices e.

(** The mask arguments that [AmbiguousAssignOrExtract.new] passes on: a
    wrapped block of the mask and its grblas wrapper, or neither. *)
Definition mask_block (m : option Mask_value) : option Inner :=
  option_map (fun p => wrap_inner (snd p)) m.

Definition mask_type_of (m : option Mask_value) : option MaskKind :=
  option_map fst m.

(** [AmbiguousAssignOrExtract] over a collection; [_meta] is the
    placeholder of [parent._meta[index]]. *)
Record AmbiguousAssignOrExtract : Type := mkAmbiguous {
  a_parent : Collection;
  a_index : index;
  a_meta : GbObject
}.

(** [len(indices)] *)
Definition index_len (i : index) : result nat :=
  match i with
  | Tuple l => Ok (length l)
  | Single (AList l) => Ok (length l)
  | Single _ => Raise TypeError
  end.

Definition AmbiguousAssignOrExtract_new (self : AmbiguousAssignOrExtract)
           (dtype : option DType) (mask : option Mask) : result Collection :=
  pre <- match mask with
         | Some m =>
             assert (Nat.eqb (nvals_of (c_meta (a_parent self))) 0) ;;;
             meta <- Gb_new (a_meta self) dtype (Some (Mask_meta m)) ;;
             Ok (meta, Some (c_delayed (mask_mask m)), Some (get_grblas_type m))
         | None =>
             meta <- Gb_new (a_meta self) dtype None ;;
             Ok (meta, None, None)
         end ;;
  let '(meta, delayed_mask, grblas_mask_type) := pre in
  let indices := match c_meta (a_parent self), a_index self with
                 | GbVector _, Single a => Tuple [a]
                 | _, i => i
                 end in
  n <- index_len indices ;;
  if Nat.eqb n 1 || Nat.eqb n 2 then
    delayed <- map_blocks (fun b => Extractor_init (inl b) None)
                          (c_delayed (a_parent self)) ;;
    delayed <- getitem sched Extractor_getitem delayed indices ;;
    delayed <- match delayed_mask with
               | Some dm =>
                   elemwise2 (fun x m => _extractor_new x dtype (Some m)
                                                        grblas_mask_type)
                             delayed dm
               | None =>
                   map_blocks (fun x => _extractor_new x dtype None
                                                       grblas_mask_type)
                              delayed
               end ;;
    Ok (get_return_type meta delayed)
  else Raise NotImplementedError.

(* ---------------------------------------------------------------- *)
(** ** Materialization *)

Definition as_vector (b : Inner) : result Vector :=
  match b with
  | InnerVector v => Ok v
  | _ => Raise TypeError
  end.

Definition as_matrix (b : Inner) : result Matrix :=
  match b with
  | InnerMatrix m => Ok m
  | _ => Raise TypeError
  end.

(** The blocks of one row of the grid side by side. *)
Definition height (ms : list Matrix) : nat :=
  match ms with
  | [] => 0
  | m :: _ => nrows m
  end.

Definition hstack_from (h : nat) (ms : list Matrix) : list (list (option T)) :=
  fold_right (fun m acc => zipw (@app (option T)) (m_rows m) acc)
             (repeat [] h) ms.

Definition hstack (ms : list Matrix) : list (list (option T)) :=
  hstack_from (height ms) ms.

(** Modelled from the spec: the materialization of a partitioned object
    ([compute] in [dask_grblas/base.py]) is not under src/.  Section 3:
    the blocks partition the global shape with no gaps and no overlaps;
    the object is its blocks put side by side, at the dtype of the
    collection. *)
Definition compute (c : Collection) : result GbObject :=
  let d := dtype_of (c_meta c) in
  match c_delayed c with
  | Array0 b => value_of b
  | Array1 bs =>
      vs <- mapM as_vector bs ;;
      Ok (GbVector (mkVector d (concat (map v_entries vs))))
  | Array2 g =>
      ms <- mapM (mapM as_matrix) g ;;
      Ok (GbMatrix (mkMatrix d (list_sum (map m_ncols (hd [] ms)))
                             (concat (map hstack ms))))
  | Array3 _ => Raise (ValueError "a collection has at most two dimensions")
  end.

(** A grid of blocks partitions a matrix when the blocks of row [i] of
    the grid are [h_i] rows high and the blocks of column [k] are [w_k]
    columns wide. *)
Definition block_shape (h w : nat) (m : Matrix) : Prop :=
  nrows m = h /\ m_ncols m = w /\ Forall (fun r => length r = w) (m_rows m).

Definition partitioned (heights widths : list nat) (ms : list (list Matrix))
  : Prop :=
  Forall2 (fun h row => Forall2 (block_shape h) widths row) heights ms.

(** The reduction called [name] that the backend applies to a whole
    object: [getattr(x, name)(op).new(dtype=dtype)]. *)
Definition Gb_reduce (name : string) (op : Monoid) (x : GbObject)
           (dtype : option DType) : result GbObject :=
  match x with
  | GbVector v =>
      if String.eqb name "reduce" then Ok (GbScalar (Vector_reduce op v dtype))
      else Raise AttributeError
  | GbMatrix m =>
      if String.eqb name "reduce_scalar" then
        Ok (GbScalar (Matrix_reduce_scalar op m dtype))
      else if String.eqb name "reduce_rowwise" then
        Ok (GbVector (Matrix_reduce_rowwise op m dtype))
      else if String.eqb name "reduce_columnwise" then
        Ok (GbVector (Matrix_reduce_columnwise op m dtype))
      else Raise AttributeError
  | GbScalar _ => Raise AttributeError
  end.

(** The reference of the specification (section 8): the same reduction
    with the same monoid applied to an unpartitioned copy of the object. *)
Definition reduce_unpartitioned (name : string) (op : Monoid) (c : Collection)
           (dtype : option DType) : result GbObject :=
  x <- compute c ;;
  Gb_reduce name op x dtype.

(** The materialized result of the deferred reduction [name] of [parent]:
    [getattr(parent, name)(op).new(dtype=dtype)] on the partitioned
    object, computed. *)
Definition reduce_partitioned (name : string) (op : Monoid) (parent : Collection)
           (meta : GbObject) (dtype : option DType) : result GbObject :=
  c <- GbDelayed_new (mkGbDelayed parent name [Const (ArgMonoid op)] [] meta)
                     dtype None ;;
  compute c.

End Model.

Arguments PyNone {T DType}.
Arguments PyInt {DType} n.
Arguments PyTuple {DType} l.
Arguments Const {T Coll} c.
Arguments Collected {T Coll} c.

(* ------------------------------------------------------------------ *)
(** ** A backend over the integers

    Signed integers of 8 and of 64 bits with wrap-around conversion, the
    [plus] monoid and the [plus_times] semiring at each width.  The
    kernels the model leaves to the backend are the mask-less,
    accumulator-less ones. *)

Module IntBackend.

Inductive dtype : Type := INT8 | INT64.

Definition wrap (bits : Z) (z : Z) : Z :=
  ((z + 2 ^ (bits - 1)) mod 2 ^ bits - 2 ^ (bits - 1))%Z.

Definition cast (d : dtype) (z : Z) : Z :=
  match d with
  | INT8 => wrap 8 z
  | INT64 => wrap 64 z
  end.

Definition plus (d : dtype) : Monoid Z :=
  mkMonoid (fun x y => cast d (x + y)%Z) 0%Z.

Definition plus_times (d : dtype) : Semiring Z :=
  mkSemiring (fun x y => cast d (x * y)%Z) (plus d).

Definition retype_with (d : option dtype) (x : GbObject Z dtype)
  : GbObject Z dtype :=
  match d with
  | None => x
  | Some d' =>
      match x with
      | GbScalar s => GbScalar (mkScalar d' (option_map (cast d') (s_value s)))
      | GbVector v =>
          GbVector (mkVector d' (map (option_map (cast d')) (v_entries v)))
      | GbMatrix m =>
          GbMatrix (mkMatrix d' (m_ncols m)
                             (map (map (option_map (cast d'))) (m_rows m)))
      end
  end.

(** The dtype of a binary operation on two dtypes: the wider one. *)
Definition unify (a b : dtype) : dtype :=
  match a, b with
  | INT8, INT8 => INT8
  | _, _ => INT64
  end.

Lemma unify_same (d : dtype) : unify d d = d.
Proof. now destruct d. Qed.

(** The raw buffers of an object without stored values keep one slot,
    holding index 0 and value 0; the buffers of the other objects are
    full. *)
Definition raw_slack (nvals : nat) : list (nat * Z) :=
  match nvals with
  | O => [(0, 0%Z)]
  | S _ => []
  end.

(** A qualified write into a scalar takes no mask. *)
Definition assign (c : GbObject Z dtype) (mask : option (Mask_value Z dtype))
           (x : GbObject Z dtype) : result (GbObject Z dtype) :=
  match c, mask with
  | GbScalar _, Some _ => Raise TypeError
  | _, _ => Ok (retype_with (Some (dtype_of c)) x)
  end.

Definition backend : Backend Z dtype :=
  mkBackend cast
            (fun x d _ => Ok (retype_with d x))
            (fun x _ d _ => Ok (retype_with d x))
            (fun _ x _ _ d _ => Ok (retype_with d x))
            (fun c _ mask _ x => assign c mask x)
            (Raise TypeError)
            unify unify_same
            (fun z => negb (Z.eqb z 0))
            raw_slack.

(** A schedule that aggregates all the partial results in one call. *)
Definition flat_plan1 (A : Type) (l : list A) : list (Tree1 A) := map Leaf1 l.
Definition flat_plan2 (A : Type) (g : list (list A)) : list (list (Tree2 A)) :=
  map (map Leaf2) g.

(** A schedule with one level of combination: the blocks of one axis
    are combined two by two, the blocks of a grid all at once. *)
Fixpoint pair_plan1 (A : Type) (l : list A) : list (Tree1 A) :=
  match l with
  | a :: b :: t => Node1 [Leaf1 a; Leaf1 b] :: pair_plan1 t
  | [a] => [Leaf1 a]
  | [] => []
  end.

Definition whole_plan2 (A : Type) (g : list (list A)) : list (list (Tree2 A)) :=
  match g with
  | [] => []
  | _ :: _ => [[Node2 (map (map Leaf2) g)]]
  end.

(** Slicing keeps every block and indexes it. *)
Definition getitem_all (B I : Type) (f : B -> I -> result B) (x : Array B) (i : I)
  : result (Array B) :=
  map_blocks (fun b => f b i) x.

End IntBackend.

(* ------------------------------------------------------------------ *)
(** * Properties *)

Section Theory.
Variables (T DType : Type).
Variable gb : Backend T DType.
Variable sched : Scheduler.

Lemma value_of_wrap_inner (x : GbObject T DType) : value_of (wrap_inner x) = Ok x.
Proof. destruct x; reflexivity. Qed.

Lemma inner_dtype_wrap_inner (x : GbObject T DType) :
  inner_dtype (wrap_inner x) = Ok (dtype_of x).
Proof. destruct x; reflexivity. Qed.

(** ** The lazy indexer *)

Lemma walk_getitem_chain (indices : list index) :
  forall e : Extractor T DType,
  exists e',
    foldM (@Extractor_getitem T DType) indices e = Ok e' /\
    forall acc, walk e' acc = walk e (acc ++ rev indices).
Proof.
  induction indices as [| i indices IH]; intros e.
  - exists e. split; [reflexivity |].
    intros acc. simpl. now rewrite app_nil_r.
  - simpl.
    destruct (IH (mkExtractor (inr e) (Some i) (e_dtype e) (PyDType (e_dtype e))))
      as [e' [He' Hw]].
    exists e'. split; [exact He' |].
    intros acc. rewrite Hw. simpl. now rewrite app_assoc.
Qed.

Lemma walk_lazy_chain (x : GbObject T DType) (indices : list index) :
  exists e,
    lazy_chain (wrap_inner x) indices = Ok e /\
    walk e [] = Ok (rev indices, inl (wrap_inner x)).
Proof.
  unfold lazy_chain, Extractor_init.
  rewrite inner_dtype_wrap_inner. simpl.
  destruct (walk_getitem_chain indices
              (mkExtractor (inl (wrap_inner x)) None (dtype_of x) (PyDType (dtype_of x))))
    as [e [He Hw]].
  exists e. split; [exact He |]. rewrite Hw. reflexivity.
Qed.

Lemma mask_value_wrapped (m : option (Mask_value T DType)) :
  mask_value (mask_type_of m) (mask_block m) = Ok m.
Proof.
  destruct m as [[k v] |]; simpl; [| reflexivity].
  now rewrite value_of_wrap_inner.
Qed.

(** C6.  The chain [Extractor(block)[i1]...[in]] always exists, and
    resolving it as a read fails with [NotImplementedError] (an
    unsupported operation) as soon as it has two index levels or more;
    with no level it duplicates the block, and with one level it performs
    one indexed extraction with exactly that index: no level is dropped. *)
Theorem extractor_new_one_level :
  forall (x : GbObject T DType) (indices : list index) (dtype : option DType)
         (m : option (Mask_value T DType)),
  exists e,
    lazy_chain (wrap_inner x) indices = Ok e /\
    (2 <= length indices ->
     _extractor_new gb e dtype (mask_block m) (mask_type_of m)
     = Raise NotImplementedError /\
     kind_of NotImplementedError = UnsupportedOperation) /\
    (indices = [] ->
     _extractor_new gb e dtype (mask_block m) (mask_type_of m)
     = fmap (@wrap_inner T DType) (gb_dup gb x dtype m)) /\
    (forall i, indices = [i] ->
     _extractor_new gb e dtype (mask_block m) (mask_type_of m)
     = fmap (@wrap_inner T DType)
            (gb_extract gb x (match i with Tuple [a] => Single a | _ => i end)
                        dtype m)).
Proof.
  intros x indices dtype m.
  destruct (walk_lazy_chain x indices) as [e [He Hw]].
  exists e. split; [exact He |].
  unfold _extractor_new. rewrite Hw. simpl. rewrite mask_value_wrapped. simpl.
  repeat split.
  - destruct (rev indices) as [| i [| j r]] eqn:Hrev; try reflexivity;
      apply (f_equal (@length index)) in Hrev; rewrite length_rev in Hrev;
      simpl in Hrev; lia.
  - intros ->. simpl. rewrite value_of_wrap_inner. reflexivity.
  - intros i ->. simpl. rewrite value_of_wrap_inner. reflexivity.
Qed.

(** C10.  An [Extractor] built over a block has the dtype of the block
    in its [ndim] attribute; whatever it is built over, [ndim] is its own
    dtype and is never an integer, so it is never the rank 1 or 2. *)
Theorem Extractor_ndim_is_dtype :
  (forall (x : GbObject T DType) (index : option index),
      Extractor_init (inl (wrap_inner x)) index
      = Ok (mkExtractor (inl (wrap_inner x)) index (dtype_of x)
                        (PyDType (dtype_of x))))
  /\
  (forall (inner : Inner T DType + Extractor T DType) (index : option index)
          (e : Extractor T DType),
      Extractor_init inner index = Ok e ->
      e_ndim e = PyDType (e_dtype e) /\
      match inner with
      | inl b => inner_dtype b = Ok (e_dtype e)
      | inr e' => e_dtype e' = e_dtype e
      end /\
      forall n : Z, e_ndim e <> PyInt n /\ eq_int (e_ndim e) n = false).
Proof.
  split.
  - intros x index. unfold Extractor_init. now rewrite inner_dtype_wrap_inner.
  - intros inner index e H. unfold Extractor_init in H.
    destruct inner as [b | e'].
    + destruct (inner_dtype b) as [d |] eqn:Hd; simpl in H; [| discriminate].
      injection H as <-. simpl. repeat split; discriminate.
    + simpl in H. injection H as <-. simpl. repeat split; discriminate.
Qed.

(** C7.  An indexed extraction materialized with a mask fails with
    [AssertionError] (a usage error), before anything is extracted, when
    the placeholder of the parent holds a value; when it succeeds, the
    placeholder held none. *)
Theorem masked_extraction_needs_empty_placeholder :
  forall (self : AmbiguousAssignOrExtract T DType) (dtype : option DType)
         (mask : Mask T DType),
    (nvals_of (c_meta (a_parent self)) <> 0 ->
     AmbiguousAssignOrExtract_new gb sched self dtype (Some mask)
     = Raise AssertionError /\
     fails_with UsageError
                (AmbiguousAssignOrExtract_new gb sched self dtype (Some mask))) /\
    (forall c, AmbiguousAssignOrExtract_new gb sched self dtype (Some mask) = Ok c ->
               nvals_of (c_meta (a_parent self)) = 0).
Proof.
  intros self dtype mask. unfold AmbiguousAssignOrExtract_new.
  destruct (Nat.eqb_spec (nvals_of (c_meta (a_parent self))) 0) as [E | N].
  - split; [intros H; contradiction | intros; exact E].
  - split.
    + intros _. simpl. split; [reflexivity |].
      exists AssertionError. split; reflexivity.
    + intros c H. simpl in H. discriminate.
Qed.

(** ** Updater *)

(** C5.  With a mask and the default [replace], the Updater has
    [replace = False]; without a mask, [replace = True] is rejected with
    [TypeError] (a usage error), and every Updater that is constructed
    without a mask has [replace] unset. *)
Theorem Updater_replace_qualifier :
  forall (parent : Collection T DType) (accum : option (T -> T -> T)),
    (forall mask : Mask T DType,
        exists u, Updater_init parent (Some mask) accum replace_default = Ok u /\
                  u_replace u = Some false) /\
    (Updater_init parent None accum (Some true) = Raise TypeError /\
     fails_with UsageError (Updater_init parent None accum (Some true))) /\
    (forall (replace : option bool) (u : Updater T DType),
        Updater_init parent None accum replace = Ok u -> u_replace u = None).
Proof.
  intros parent accum. repeat split.
  - intros mask. eexists. split; reflexivity.
  - exists TypeError. split; reflexivity.
  - intros replace u H. unfold Updater_init in H. simpl in H.
    destruct replace as [[|] |]; simpl in H; try discriminate;
      injection H as <-; reflexivity.
Qed.

(** ** The shape adapters *)

Lemma set_entry_free (x : T) (pre rest : list (option T)) :
  set_entry (length pre) x (pre ++ None :: rest) = Ok (pre ++ Some x :: rest).
Proof.
  induction pre as [| o pre IH]; simpl; [reflexivity |].
  rewrite IH. destruct o; reflexivity.
Qed.

Lemma length_positions (l : list (option T)) (base : nat) :
  length (positions base l) = length (present l).
Proof.
  revert base. induction l as [| [x |] l IH]; intros base; simpl; auto.
Qed.

(** Refilling an empty pattern with the stored entries of [l] at their
    positions gives [l] back. *)
Lemma fill_positions (l : list (option T)) :
  forall pre : list (option T),
    fill (positions (length pre) l) (present l) (pre ++ repeat None (length l))
    = Ok (pre ++ l).
Proof.
  induction l as [| [x |] l IH]; intros pre; simpl.
  - reflexivity.
  - rewrite set_entry_free. simpl.
    replace (pre ++ Some x :: repeat None (length l))
      with ((pre ++ [Some x]) ++ repeat None (length l))
      by now rewrite <- app_assoc.
    replace (S (length pre)) with (length (pre ++ [Some x]))
      by (rewrite length_app; simpl; lia).
    rewrite IH. now rewrite <- app_assoc.
  - replace (pre ++ None :: repeat None (length l))
      with ((pre ++ [None]) ++ repeat None (length l))
      by now rewrite <- app_assoc.
    replace (S (length pre)) with (length (pre ++ [@None T]))
      by (rewrite length_app; simpl; lia).
    rewrite IH. now rewrite <- app_assoc.
Qed.

Lemma fill_positions_0 (l : list (option T)) :
  fill (positions 0 l) (present l) (repeat None (length l)) = Ok l.
Proof. exact (fill_positions l []). Qed.

Lemma import_export_sparse (v : Vector T DType) :
  Vector_ss_import_sparse (v_dtype v) (size v) (positions 0 (v_entries v))
                          (present (v_entries v))
  = Ok v.
Proof.
  unfold Vector_ss_import_sparse, size.
  rewrite fill_positions_0. simpl. now destruct v.
Qed.

Lemma set_entry_nvals (i : nat) (x : T) (l l' : list (option T)) :
  set_entry i x l = Ok l' -> length (present l') = S (length (present l)).
Proof.
  revert i l'. induction l as [| o l IH]; intros [| j] l' H; simpl in H;
    try discriminate.
  - destruct o; [discriminate |]. injection H as <-. reflexivity.
  - destruct (set_entry j x l) as [t |] eqn:E; simpl in H;
      [| destruct o; discriminate].
    assert (H' : l' = o :: t) by (destruct o; congruence).
    subst l'. specialize (IH j t E).
    destruct o; simpl; congruence.
Qed.

(** Every slot that [fill] reads becomes a stored entry. *)
Lemma fill_nvals (indices : list nat) (values : list T) :
  forall acc r : list (option T),
    fill indices values acc = Ok r ->
    length (present r) = length (present acc) + length indices.
Proof.
  revert values. induction indices as [| i indices IH]; intros [| x values] acc r H;
    simpl in H; try discriminate.
  - injection H as <-. simpl. lia.
  - destruct (set_entry i x acc) as [acc' |] eqn:E; simpl in H; [| discriminate].
    rewrite (IH _ _ _ H), (set_entry_nvals _ _ _ E). simpl. lia.
Qed.

Lemma slice_prefix (A : Type) (l rest : list A) :
  slice 0 (length l) (l ++ rest) = l.
Proof.
  unfold slice. simpl. rewrite Nat.sub_0_r, firstn_app, Nat.sub_diag.
  simpl. now rewrite firstn_all, app_nil_r.
Qed.

(** The import of one line reads the slots below [nvals] only. *)
Lemma import_single_line (n : nat) (l : list (option T))
      (si : list nat) (sv : list T) :
  n = length l ->
  import_compressed 1 n [0; length (present l)]
                    (positions 0 l ++ si) (present l ++ sv)
  = Ok [l].
Proof.
  intros ->. unfold import_compressed, import_line. simpl.
  rewrite slice_prefix.
  rewrite <- (length_positions l 0), slice_prefix.
  rewrite fill_positions_0. reflexivity.
Qed.

Lemma map_nth_seq (A : Type) (d : A) (l : list A) :
  map (fun j => nth j l d) (seq 0 (length l)) = l.
Proof.
  induction l as [| a l IH]; simpl; [reflexivity |].
  f_equal. rewrite <- seq_shift, map_map. exact IH.
Qed.

Lemma transpose_single_line (l : list (option T)) :
  transpose (length l) [l] = map (fun o => [o]) l.
Proof.
  unfold transpose, column. simpl.
  transitivity (map (fun o => [o]) (map (fun j => nth j l None) (seq 0 (length l)))).
  - now rewrite map_map.
  - now rewrite map_nth_seq.
Qed.

Lemma column_single_column (l : list (option T)) :
  column 0 (map (fun o => [o]) l) = l.
Proof. unfold column. rewrite map_map. simpl. now rewrite map_id. Qed.

Lemma asOneRowMatrix_value (v : Vector T DType) :
  asOneRowMatrix gb (InnerVector v)
  = Ok (InnerMatrix (mkMatrix (v_dtype v) (size v) [v_entries v])).
Proof.
  unfold asOneRowMatrix, Matrix_ss_import_csr, Vector_ss_export.
  cbn [sp_dtype sp_size sp_nvals sp_values sp_indices].
  now rewrite import_single_line.
Qed.

Lemma asOneColMatrix_value (v : Vector T DType) :
  asOneColMatrix gb (InnerVector v)
  = Ok (InnerMatrix (mkMatrix (v_dtype v) 1 (map (fun o => [o]) (v_entries v)))).
Proof.
  unfold asOneColMatrix, Matrix_ss_import_csc, Vector_ss_export.
  cbn [sp_dtype sp_size sp_nvals sp_values sp_indices].
  rewrite import_single_line by reflexivity. cbn [bind wrap_inner].
  unfold size. now rewrite transpose_single_line.
Qed.

(** The inverse of the lifting, on the lifted blocks. *)
Lemma unlift_row (d : DType) (l : list (option T)) :
  unlift (mkMatrix d (length l) [l]) = Ok (mkVector d l).
Proof. reflexivity. Qed.

Lemma unlift_column (d : DType) (l : list (option T)) :
  unlift (mkMatrix d 1 (map (fun o => [o]) l)) = Ok (mkVector d l).
Proof.
  unfold unlift, nrows. cbn [m_rows m_ncols m_dtype]. rewrite length_map.
  destruct (Nat.eqb_spec (length l) 1) as [E | N].
  - destruct l as [| o [| o' l]]; try discriminate. reflexivity.
  - cbn [Nat.eqb]. now rewrite column_single_column.
Qed.

(** What [asVector] imports: the raw buffers of the single line, every
    slot of them. *)
Lemma asVector_row_buffers (d : DType) (l : list (option T)) :
  asVector gb (mkMatrix d (length l) [l])
  = Vector_ss_import_sparse d (length l)
      (positions 0 l ++ map fst (raw_slack gb (length (present l))))
      (present l ++ map snd (raw_slack gb (length (present l)))).
Proof.
  unfold asVector, Matrix_ss_unpack_csr, compress, nrows.
  cbn [m_rows m_ncols m_dtype length Nat.eqb map concat
       c_dtype c_ncols c_indices c_values].
  now rewrite !app_nil_r.
Qed.

Lemma asVector_column_buffers (d : DType) (l : list (option T)) :
  asVector gb (mkMatrix d 1 (map (fun o => [o]) l))
  = Vector_ss_import_sparse d (length l)
      (positions 0 l ++ map fst (raw_slack gb (length (present l))))
      (present l ++ map snd (raw_slack gb (length (present l)))).
Proof.
  unfold asVector, nrows. cbn [m_rows m_ncols m_dtype]. rewrite length_map.
  destruct (Nat.eqb_spec (length l) 1) as [E | N].
  - destruct l as [| o [| o' l]]; try discriminate.
    unfold Matrix_ss_unpack_csr, compress, nrows.
    cbn [m_rows m_ncols m_dtype length map concat
         c_dtype c_ncols c_indices c_values].
    now rewrite !app_nil_r.
  - cbn [Nat.eqb]. unfold Matrix_ss_unpack_csc, compress, nrows, transpose.
    cbn [m_rows m_ncols m_dtype seq map concat
         c_dtype c_nrows c_indices c_values].
    now rewrite column_single_column, !app_nil_r, length_map.
Qed.

Lemma no_stored_entry (l : list (option T)) :
  length (present l) = 0 -> positions 0 l = [] /\ present l = [].
Proof.
  intros H. split.
  - apply length_zero_iff_nil. now rewrite length_positions.
  - now apply length_zero_iff_nil.
Qed.

(** With full buffers the import gives the line back; the buffers of a
    line without stored entry are unused slots only, and every one of
    them becomes an entry. *)
Lemma import_full_buffers (d : DType) (l : list (option T)) :
  raw_slack gb (length (present l)) = [] ->
  Vector_ss_import_sparse d (length l)
    (positions 0 l ++ map fst (raw_slack gb (length (present l))))
    (present l ++ map snd (raw_slack gb (length (present l))))
  = Ok (mkVector d l).
Proof.
  intros ->. cbn [map]. rewrite !app_nil_r.
  exact (import_export_sparse (mkVector d l)).
Qed.

Lemma import_unused_slots (d : DType) (l : list (option T)) (w : Vector T DType) :
  length (present l) = 0 ->
  Vector_ss_import_sparse d (length l)
    (positions 0 l ++ map fst (raw_slack gb (length (present l))))
    (present l ++ map snd (raw_slack gb (length (present l))))
  = Ok w ->
  length (present (v_entries w)) = length (raw_slack gb 0).
Proof.
  intros E. rewrite E. destruct (no_stored_entry l E) as [-> ->].
  cbn [app]. unfold Vector_ss_import_sparse.
  destruct (fill (map fst (raw_slack gb 0)) (map snd (raw_slack gb 0))
                 (repeat None (length l))) as [r |] eqn:F; [| discriminate].
  intros [= <-]. cbn [v_entries].
  rewrite (fill_nvals _ _ _ F), length_map.
  clear. induction (length l) as [| n IH]; simpl; auto.
Qed.

(** C3.  Lifting works on every 1-dimensional block: [asOneRowMatrix] and
    [asOneColMatrix] read the first [nvals] slots of the raw buffers.
    [asVector] imports every slot of the raw buffers it unpacks: the
    block comes back when the buffers are full, and it does not when the
    block stores no entry and its buffers keep a slot, which then
    becomes an entry of the result. *)
Theorem lift_and_back :
  forall v : Vector T DType,
    asOneRowMatrix gb (InnerVector v)
    = Ok (InnerMatrix (mkMatrix (v_dtype v) (size v) [v_entries v])) /\
    asOneColMatrix gb (InnerVector v)
    = Ok (InnerMatrix (mkMatrix (v_dtype v) 1
                                (map (fun o => [o]) (v_entries v)))) /\
    (raw_slack gb (nvals_of (GbVector v)) = [] ->
     asVector gb (mkMatrix (v_dtype v) (size v) [v_entries v]) = Ok v /\
     asVector gb (mkMatrix (v_dtype v) 1 (map (fun o => [o]) (v_entries v)))
     = Ok v) /\
    (nvals_of (GbVector v) = 0 -> raw_slack gb 0 <> [] ->
     asVector gb (mkMatrix (v_dtype v) (size v) [v_entries v]) <> Ok v /\
     asVector gb (mkMatrix (v_dtype v) 1 (map (fun o => [o]) (v_entries v)))
     <> Ok v /\
     forall w,
       asVector gb (mkMatrix (v_dtype v) (size v) [v_entries v]) = Ok w \/
       asVector gb (mkMatrix (v_dtype v) 1 (map (fun o => [o]) (v_entries v)))
       = Ok w ->
       nvals_of (GbVector w) = length (raw_slack gb 0)).
Proof.
  intros [d l]. unfold size. cbn [v_dtype v_entries nvals_of].
  split; [exact (asOneRowMatrix_value (mkVector d l)) |].
  split; [exact (asOneColMatrix_value (mkVector d l)) |].
  rewrite asVector_row_buffers, asVector_column_buffers.
  split.
  - intros F. split; now apply import_full_buffers.
  - intros E S.
    assert (N : forall w,
               Vector_ss_import_sparse d (length l)
                 (positions 0 l ++ map fst (raw_slack gb (length (present l))))
                 (present l ++ map snd (raw_slack gb (length (present l))))
               = Ok w ->
               length (present (v_entries w)) = length (raw_slack gb 0)).
    { intros w. now apply import_unused_slots. }
    assert (D : Vector_ss_import_sparse d (length l)
                  (positions 0 l ++ map fst (raw_slack gb (length (present l))))
                  (present l ++ map snd (raw_slack gb (length (present l))))
                <> Ok (mkVector d l)).
    { intros H. apply N in H. cbn [v_entries] in H. rewrite E in H.
      symmetry in H. apply length_zero_iff_nil in H. contradiction. }
    split; [exact D |]. split; [exact D |].
    intros w [H | H]; now apply N.
Qed.
(** ** Accumulating a reduction onto the target *)

(** The entry that [accum] makes of a prior entry [o] and a freshly
    reduced entry [r] in a target of dtype [d]: their union under
    [accum], converted to [d]. *)
Definition combined (accum : T -> T -> T) (d : DType) (o r : option T) : option T :=
  option_map (cast gb d) (union accum o r).

(** A stored value that the conversion to [d] leaves as it is. *)
Definition exact (d : DType) (o : option T) : Prop :=
  match o with
  | Some x => cast gb d x = x
  | None => True
  end.

Lemma _reduce_accum_value (o r : Scalar T DType) (accum : T -> T -> T) :
  _reduce_accum gb (InnerScalar o) (InnerScalar r) accum
  = Ok (InnerScalar
          (mkScalar (s_dtype o)
                    (combined accum (s_dtype o)
                              (option_map (cast gb (s_dtype o)) (s_value o))
                              (option_map (cast gb (s_dtype r)) (s_value r))))).
Proof.
  destruct o as [d [a |]], r as [d' [b |]]; reflexivity.
Qed.

Lemma map_zipw (A B C D : Type) (f : A -> B -> C) (g : C -> D)
      (l : list A) (l' : list B) :
  map g (zipw f l l') = zipw (fun a b => g (f a b)) l l'.
Proof.
  revert l'. induction l as [| a l IH]; intros [| b l']; simpl;
    try reflexivity. now rewrite IH.
Qed.

Lemma _reduce_axis_accum_value (o r : Vector T DType) (accum : T -> T -> T) :
  size o = size r ->
  _reduce_axis_accum gb (InnerVector o) (InnerVector r) accum
  = Ok (InnerVector
          (mkVector (v_dtype o)
                    (zipw (combined accum (v_dtype o)) (v_entries o) (v_entries r)))).
Proof.
  intros H. unfold _reduce_axis_accum. simpl.
  unfold Vector_ewise_add. rewrite H, Nat.eqb_refl. simpl.
  now rewrite map_zipw.
Qed.

Lemma zipw_combined_absent (accum : T -> T -> T) (d : DType) (l : list (option T)) :
  Forall (exact d) l ->
  zipw (combined accum d) (repeat None (length l)) l = l.
Proof.
  induction 1 as [| [x |] l H _ IH]; simpl; [reflexivity | |]; rewrite IH.
  - unfold combined. simpl. simpl in H. congruence.
  - reflexivity.
Qed.

(** C8.  The accumulation step of a reduction written with [accum]:
    - on scalars and on vector blocks of one size it never raises, and
      each entry of the result is made of the prior entry and of the
      freshly reduced entry by [combined]: [accum prior reduced] when both
      are stored, the reduced entry when the prior one is empty or absent,
      the prior entry when the reduced one is;
    - an empty prior scalar, and a prior vector without stored entries,
      give the freshly reduced scalar or vector itself when its values are
      values of its dtype and of the dtype of the target;
    - [_update] of [reduce] and of [reduce_scalar] with [accum] stores the
      accumulation of the prior scalar with the reduced scalar. *)
Theorem accumulate_onto_existing :
  forall accum : T -> T -> T,
    (forall o r : Scalar T DType,
        _reduce_accum gb (InnerScalar o) (InnerScalar r) accum
        = Ok (InnerScalar
                (mkScalar (s_dtype o)
                          (combined accum (s_dtype o)
                                    (option_map (cast gb (s_dtype o)) (s_value o))
                                    (option_map (cast gb (s_dtype r)) (s_value r)))))) /\
    (forall o r : Vector T DType,
        size o = size r ->
        _reduce_axis_accum gb (InnerVector o) (InnerVector r) accum
        = Ok (InnerVector
                (mkVector (v_dtype o)
                          (zipw (combined accum (v_dtype o))
                                (v_entries o) (v_entries r))))) /\
    (forall (d : DType) (a b : T) (o r : option T),
        combined accum d (Some a) (Some b) = Some (cast gb d (accum a b)) /\
        combined accum d None r = option_map (cast gb d) r /\
        combined accum d o None = option_map (cast gb d) o) /\
    (forall (d : DType) (r : Scalar T DType),
        exact (s_dtype r) (s_value r) -> exact d (s_value r) ->
        _reduce_accum gb (InnerScalar (mkScalar d None)) (InnerScalar r) accum
        = Ok (InnerScalar (mkScalar d (s_value r)))) /\
    (forall (d : DType) (r : Vector T DType),
        Forall (exact d) (v_entries r) ->
        _reduce_axis_accum gb (InnerVector (Vector_new T d (size r)))
                           (InnerVector r) accum
        = Ok (InnerVector (mkVector d (v_entries r)))) /\
    (forall (self : GbDelayed T DType) (updating : Collection T DType)
            (mask : option (Mask T DType)) (replace : option bool)
            (meta : GbObject T DType) (o r : Scalar T DType),
        method_name self = "reduce"%string ->
        Gb_update gb (c_meta updating) (gd_meta self) = Ok meta ->
        is_scalar meta = true ->
        c_delayed updating = Array0 (InnerScalar o) ->
        GbDelayed__reduce gb sched self (dtype_of (clear meta))
        = Ok (Array0 (InnerScalar r)) ->
        GbDelayed__update gb sched self updating mask (Some accum) replace
        = Ok (mkCollection
                (Array0 (InnerScalar
                           (mkScalar (s_dtype o)
                                     (combined accum (s_dtype o)
                                               (option_map (cast gb (s_dtype o))
                                                           (s_value o))
                                               (option_map (cast gb (s_dtype r))
                                                           (s_value r))))))
                (clear meta))) /\
    (forall (self : GbDelayed T DType) (updating : Collection T DType)
            (mask : option (Mask T DType)) (replace : option bool)
            (meta : GbObject T DType) (o r : Scalar T DType),
        method_name self = "reduce_scalar"%string ->
        Gb_update gb (c_meta updating) (gd_meta self) = Ok meta ->
        is_scalar meta = true ->
        c_delayed updating = Array0 (InnerScalar o) ->
        GbDelayed__reduce_scalar gb sched self (dtype_of (clear meta))
        = Ok (Array0 (InnerScalar r)) ->
        GbDelayed__update gb sched self updating mask (Some accum) replace
        = Ok (mkCollection
                (Array0 (InnerScalar
                           (mkScalar (s_dtype o)
                                     (combined accum (s_dtype o)
                                               (option_map (cast gb (s_dtype o))
                                                           (s_value o))
                                               (option_map (cast gb (s_dtype r))
                                                           (s_value r))))))
                (clear meta))).
Proof.
  intros accum. repeat split.
  - intros o r. apply _reduce_accum_value.
  - intros o r. apply _reduce_axis_accum_value.
  - now destruct r.
  - now destruct o.
  - intros d r E E'. rewrite _reduce_accum_value. simpl.
    destruct r as [d' [x |]]; simpl in *; [| reflexivity].
    unfold combined. simpl. rewrite E. now rewrite E'.
  - intros d r E. rewrite _reduce_axis_accum_value.
    + simpl. unfold size. now rewrite zipw_combined_absent.
    + unfold size, Vector_new. simpl. now rewrite repeat_length.
  - intros self updating mask replace meta o r Hname Hmeta Hscalar Hprior Hred.
    unfold GbDelayed__update. rewrite Hmeta. simpl. rewrite Hscalar. simpl.
    rewrite Hname. simpl. rewrite Hred. simpl.
    unfold accumulate, elemwise. rewrite Hprior.
    cbn [first_array map_blocks gather elemwise2 bind fst snd app].
    rewrite _reduce_accum_value. reflexivity.
  - intros self updating mask replace meta o r Hname Hmeta Hscalar Hprior Hred.
    unfold GbDelayed__update. rewrite Hmeta. simpl. rewrite Hscalar. simpl.
    rewrite Hname. simpl. rewrite Hred. simpl.
    unfold accumulate, elemwise. rewrite Hprior.
    cbn [first_array map_blocks gather elemwise2 bind fst snd app].
    rewrite _reduce_accum_value. reflexivity.
Qed.

(** ** Dispatch on the operation name *)

Lemma name_in_cons (name a : string) (l : list string) :
  name_in name (a :: l) = String.eqb name a || name_in name l.
Proof. reflexivity. Qed.

Lemma unknown_names (name : string) :
  name_in name known_operations = false ->
  String.eqb name "reduce" = false /\
  String.eqb name "reduce_scalar" = false /\
  String.eqb name "reduce_rowwise" = false /\
  String.eqb name "reduce_columnwise" = false /\
  name_in name ["apply"; "ewise_add"; "ewise_mult"]%string = false /\
  name_in name ["vxm"; "mxv"]%string = false.
Proof.
  unfold known_operations. rewrite !name_in_cons.
  intros H. repeat (apply orb_false_elim in H; destruct H as [? H]).
  repeat split; try assumption;
    repeat (apply orb_false_intro; try assumption); reflexivity.
Qed.

(** *** The placeholder of [new] *)

Lemma Gb_new_unmasked (expr : GbObject T DType) (dtype : option DType) :
  Gb_new gb expr dtype None = Ok (meta_new gb expr dtype None).
Proof. reflexivity. Qed.

Lemma Gb_new_accepted (expr meta : GbObject T DType) (dtype : option DType)
      (m : Mask_value T DType) :
  Gb_new gb expr dtype (Some m) = Ok meta ->
  check_mask expr m = Ok tt /\ meta = meta_new gb expr dtype (Some m).
Proof.
  unfold Gb_new. destruct (check_mask expr m) as [[] | e]; [| discriminate].
  intros [= <-]. split; reflexivity.
Qed.

Lemma Gb_new_rejected (expr : GbObject T DType) (dtype : option DType)
      (m : Mask_value T DType) (e : exc) :
  Gb_new gb expr dtype (Some m) = Raise e -> check_mask expr m = Raise e.
Proof.
  unfold Gb_new. destruct (check_mask expr m) as [[] | e']; [discriminate |].
  now intros [= <-].
Qed.

(** A mask removes nothing from an object that stores nothing. *)
Lemma keep_absent (k : MaskKind) (m : option T) : keep gb k m None = None.
Proof. unfold keep. now destruct (admits gb k m). Qed.

Lemma no_entry_app (l l' : list (option T)) :
  length (present (l ++ l')) = 0 ->
  length (present l) = 0 /\ length (present l') = 0.
Proof.
  induction l as [| [x |] l IH]; simpl; intros H; auto. discriminate.
Qed.

Lemma keep_entries_empty (k : MaskKind) (os : list (option T)) :
  forall ms, length (present os) = 0 -> keep_entries gb k ms os = os.
Proof.
  induction os as [| [x |] os IH]; intros ms H; simpl in *;
    [reflexivity | discriminate |].
  now rewrite keep_absent, IH.
Qed.

Lemma keep_rows_empty (k : MaskKind) (oss : list (list (option T))) :
  forall mss, length (present (concat oss)) = 0 -> keep_rows gb k mss oss = oss.
Proof.
  induction oss as [| os oss IH]; intros mss H; simpl in *; [reflexivity |].
  destruct (no_entry_app _ _ H) as [H1 H2].
  now rewrite keep_entries_empty, IH.
Qed.

Lemma masked_empty (m : Mask_value T DType) (x : GbObject T DType) :
  nvals_of x = 0 -> masked gb m x = x.
Proof.
  destruct m as [k [s | u | a]], x as [s' | v | b]; try reflexivity;
    cbn [masked snd fst nvals_of]; intros H.
  - rewrite keep_entries_empty by exact H. now destruct v.
  - rewrite keep_rows_empty by exact H. now destruct b.
Qed.

Lemma length_present_map (f : T -> T) (l : list (option T)) :
  length (present (map (option_map f) l)) = length (present l).
Proof.
  induction l as [| [x |] l IH]; simpl; auto.
Qed.

Lemma length_present_rows (f : T -> T) (rows : list (list (option T))) :
  length (present (concat (map (map (option_map f)) rows)))
  = length (present (concat rows)).
Proof.
  rewrite <- concat_map. apply length_present_map.
Qed.

Lemma nvals_of_retype (d : DType) (x : GbObject T DType) :
  nvals_of (retype gb d x) = nvals_of x.
Proof.
  destruct x as [[d' [a |]] | v | m]; cbn [retype nvals_of]; try reflexivity.
  - apply length_present_map.
  - apply length_present_rows.
Qed.

Lemma meta_new_empty (expr : GbObject T DType) (dtype : option DType)
      (m : Mask_value T DType) :
  nvals_of expr = 0 ->
  meta_new gb expr dtype (Some m) = meta_new gb expr dtype None.
Proof.
  intros H. unfold meta_new. apply masked_empty.
  destruct dtype as [d |]; [now rewrite nvals_of_retype | exact H].
Qed.

(** A mask changes neither the kind nor the dtype of the placeholder. *)
Definition same_placeholder (x y : GbObject T DType) : Prop :=
  dtype_of x = dtype_of y /\
  match x, y with
  | GbScalar _, GbScalar _ => True
  | GbVector _, GbVector _ => True
  | GbMatrix _, GbMatrix _ => True
  | _, _ => False
  end.

Lemma masked_placeholder (m : Mask_value T DType) (x : GbObject T DType) :
  same_placeholder (masked gb m x) x.
Proof.
  destruct m as [k [s | u | a]], x as [s' | v | b]; split; exact I || reflexivity.
Qed.

Lemma meta_new_placeholder (expr : GbObject T DType) (dtype : option DType)
      (m : Mask_value T DType) :
  same_placeholder (meta_new gb expr dtype (Some m)) (meta_new gb expr dtype None).
Proof. unfold meta_new. apply masked_placeholder. Qed.

(** The slab multiply reads the kind and the dtype of the placeholder
    only. *)
Lemma matmul2_placeholder (self : GbDelayed T DType) (x y : GbObject T DType) :
  same_placeholder x y ->
  GbDelayed__matmul2 gb sched self x = GbDelayed__matmul2 gb sched self y.
Proof.
  intros [D K]. unfold GbDelayed__matmul2. rewrite D.
  destruct (arg_delayed (args self) 0) as [b |]; [| reflexivity].
  destruct (arg_semiring (args self) 1) as [op |]; [| reflexivity].
  cbn [bind].
  destruct x as [s | v | m], y as [s' | v' | m']; try contradiction;
    cbn [wrap_inner]; rewrite ?asOneRowMatrix_value, ?asOneColMatrix_value;
    try reflexivity.
  destruct (Nat.eqb (ndim (c_delayed (parent self))) 1);
    destruct (Nat.eqb (ndim b) 1); cbn [bind];
    repeat match goal with
           | |- context [map_blocks_new_axis ?f ?n ?a] =>
               destruct (map_blocks_new_axis f n a); cbn [bind]
           end;
    reflexivity.
Qed.

(** C4, as the code has it.  For an operation name that is not known,
    [new] computes the placeholder of the result first, where the
    backend validates the mask, and then fails with [ValueError] (an
    unsupported operation): it never succeeds, it fails with
    [ValueError] whenever the placeholder step passes, as it always does
    without a mask, and with the error of that step otherwise.
    [_update] first updates the placeholder of the target and asserts
    that it is a scalar or holds no value, and then fails with
    [ValueError]: it never succeeds, and it fails with [ValueError]
    whenever the metadata step and the assertion pass. *)
Theorem unknown_operation_fails :
  forall self : GbDelayed T DType,
    name_in (method_name self) known_operations = false ->
    (forall (dtype : option DType) (mask : option (Mask T DType)),
        GbDelayed_new gb sched self dtype mask
        = (Gb_new gb (gd_meta self) dtype
                  (option_map (@Mask_meta T DType) mask) ;;;
           Raise (ValueError (method_name self))) /\
        (forall c, GbDelayed_new gb sched self dtype mask <> Ok c) /\
        (forall meta,
            Gb_new gb (gd_meta self) dtype (option_map (@Mask_meta T DType) mask)
            = Ok meta ->
            GbDelayed_new gb sched self dtype mask
            = Raise (ValueError (method_name self)) /\
            fails_with UnsupportedOperation
                       (GbDelayed_new gb sched self dtype mask))) /\
    (forall dtype : option DType,
        GbDelayed_new gb sched self dtype None
        = Raise (ValueError (method_name self)) /\
        fails_with UnsupportedOperation (GbDelayed_new gb sched self dtype None)) /\
    (forall (updating : Collection T DType) (mask : option (Mask T DType))
            (accum : option (T -> T -> T)) (replace : option bool),
        GbDelayed__update gb sched self updating mask accum replace
        = (meta <- Gb_update gb (c_meta updating) (gd_meta self) ;;
           assert (is_scalar meta || Nat.eqb (nvals_of meta) 0) ;;;
           Raise (ValueError (method_name self))) /\
        (forall c, GbDelayed__update gb sched self updating mask accum replace
                   <> Ok c) /\
        (forall meta,
            Gb_update gb (c_meta updating) (gd_meta self) = Ok meta ->
            is_scalar meta || Nat.eqb (nvals_of meta) 0 = true ->
            GbDelayed__update gb sched self updating mask accum replace
            = Raise (ValueError (method_name self)) /\
            fails_with UnsupportedOperation
              (GbDelayed__update gb sched self updating mask accum replace))).
Proof.
  intros self H.
  destruct (unknown_names _ H) as (H1 & H2 & H3 & H4 & H5 & H6).
  assert (N : forall dtype mask,
             GbDelayed_new gb sched self dtype mask
             = (Gb_new gb (gd_meta self) dtype
                       (option_map (@Mask_meta T DType) mask) ;;;
                Raise (ValueError (method_name self)))).
  { intros dtype mask. unfold GbDelayed_new.
    rewrite H1, H2, H3, H4, H5, H6. reflexivity. }
  assert (U : forall updating mask accum replace,
             GbDelayed__update gb sched self updating mask accum replace
             = (meta <- Gb_update gb (c_meta updating) (gd_meta self) ;;
                assert (is_scalar meta || Nat.eqb (nvals_of meta) 0) ;;;
                Raise (ValueError (method_name self)))).
  { intros updating mask accum replace. unfold GbDelayed__update.
    rewrite H1, H2, H3, H4, H5, H6. reflexivity. }
  split; [| split].
  - intros dtype mask. split; [apply N |]. split.
    + intros c. rewrite N.
      destruct (Gb_new gb (gd_meta self) dtype
                       (option_map (@Mask_meta T DType) mask));
        discriminate.
    + intros meta Hm.
      assert (E : GbDelayed_new gb sched self dtype mask
                  = Raise (ValueError (method_name self))).
      { now rewrite N, Hm. }
      split; [exact E |].
      exists (ValueError (method_name self)). split; [exact E | reflexivity].
  - intros dtype.
    assert (E : GbDelayed_new gb sched self dtype None
                = Raise (ValueError (method_name self))).
    { now rewrite N. }
    split; [exact E |].
    exists (ValueError (method_name self)). split; [exact E | reflexivity].
  - intros updating mask accum replace. split; [apply U |]. split.
    + intros c. rewrite U.
      destruct (Gb_update gb (c_meta updating) (gd_meta self)) as [meta |];
        simpl; [| discriminate].
      destruct (is_scalar meta || Nat.eqb (nvals_of meta) 0); discriminate.
    + intros meta Hm Ha.
      assert (E : GbDelayed__update gb sched self updating mask accum replace
                  = Raise (ValueError (method_name self))).
      { rewrite U, Hm. simpl. rewrite Ha. reflexivity. }
      split; [exact E |].
      exists (ValueError (method_name self)). split; [exact E | reflexivity].
Qed.


(** C2, as the code has it.  For [vxm] and [mxv], [new] hands the mask
    to the placeholder of the result only, where the backend validates
    it: a mask that is rejected makes [new] fail with the error of the
    backend; a mask that is accepted has no effect on the blocks, which
    are those of materializing without a mask at the same dtype, and the
    whole result is that one when the placeholder holds no value.  The
    dtype is not ignored: [new] takes the placeholder at the requested
    dtype and hands it to the multiply. *)
Theorem matmul_new_ignores_mask :
  forall (self : GbDelayed T DType) (dtype : option DType) (mask : Mask T DType),
    name_in (method_name self) ["vxm"; "mxv"]%string = true ->
    (forall e : exc,
        Gb_new gb (gd_meta self) dtype (Some (Mask_meta mask)) = Raise e ->
        GbDelayed_new gb sched self dtype (Some mask) = Raise e) /\
    (forall meta : GbObject T DType,
        Gb_new gb (gd_meta self) dtype (Some (Mask_meta mask)) = Ok meta ->
        fmap (@c_delayed T DType) (GbDelayed_new gb sched self dtype (Some mask))
        = fmap (@c_delayed T DType) (GbDelayed_new gb sched self dtype None) /\
        (nvals_of (gd_meta self) = 0 ->
         GbDelayed_new gb sched self dtype (Some mask)
         = GbDelayed_new gb sched self dtype None)) /\
    GbDelayed_new gb sched self dtype None
    = (delayed <- GbDelayed__matmul2 gb sched self
                    (meta_new gb (gd_meta self) dtype None) ;;
       Ok (get_return_type (meta_new gb (gd_meta self) dtype None) delayed)).
Proof.
  intros self dtype mask H.
  rewrite !name_in_cons in H. simpl in H. rewrite orb_false_r in H.
  assert (N : forall m,
             GbDelayed_new gb sched self dtype m
             = (meta <- Gb_new gb (gd_meta self) dtype
                               (option_map (@Mask_meta T DType) m) ;;
                delayed <- GbDelayed__matmul2 gb sched self meta ;;
                Ok (get_return_type meta delayed))).
  { intros m. unfold GbDelayed_new.
    apply orb_true_iff in H. destruct H as [H | H];
      apply String.eqb_eq in H; rewrite H; reflexivity. }
  split; [| split].
  - intros e He. rewrite N. cbn [option_map]. now rewrite He.
  - intros meta Hm. destruct (Gb_new_accepted _ _ _ Hm) as [_ ->].
    rewrite !N. cbn [option_map]. rewrite Hm, Gb_new_unmasked. cbn [bind].
    split.
    + rewrite (matmul2_placeholder self (meta_new_placeholder _ _ _)).
      destruct (GbDelayed__matmul2 gb sched self
                  (meta_new gb (gd_meta self) dtype None)); reflexivity.
    + intros E. now rewrite (@meta_new_empty _ dtype (Mask_meta mask) E).
  - rewrite N. reflexivity.
Qed.
(** ** Tree-shaped combination *)

Lemma mapM_cons (A B : Type) (f : A -> result B) (a : A) (l : list A) :
  mapM f (a :: l) = (y <- f a ;; ys <- mapM f l ;; Ok (y :: ys)).
Proof. reflexivity. Qed.

Lemma mapM_ok (A B : Type) (f : A -> result B) (g : A -> B) (l : list A) :
  Forall (fun a => f a = Ok (g a)) l -> mapM f l = Ok (map g l).
Proof.
  induction 1 as [| a l H _ IH]; [reflexivity |].
  rewrite mapM_cons, H, IH. reflexivity.
Qed.

Lemma Tree1_induction (A : Type) (P : Tree1 A -> Prop) :
  (forall a, P (Leaf1 a)) ->
  (forall ts, Forall P ts -> P (Node1 ts)) ->
  forall t, P t.
Proof.
  intros HL HN.
  fix IH 1. intros [a | ts].
  - apply HL.
  - apply HN. induction ts as [| t ts IHts]; constructor; [apply IH | exact IHts].
Qed.

Lemma Tree2_induction (A : Type) (P : Tree2 A -> Prop) :
  (forall a, P (Leaf2 a)) ->
  (forall tss, Forall (Forall P) tss -> P (Node2 tss)) ->
  forall t, P t.
Proof.
  intros HL HN.
  fix IH 1. intros [a | tss].
  - apply HL.
  - apply HN. induction tss as [| ts tss IHtss]; constructor; [| exact IHtss].
    induction ts as [| t ts IHts]; constructor; [apply IH | exact IHts].
Qed.

Section TreeFold.
Variables (A X : Type).
Variable plus : X -> X -> X.
Variable unit : X.
Variable Good : X -> Prop.
Hypothesis plus_assoc : forall x y z, plus x (plus y z) = plus (plus x y) z.
Hypothesis plus_comm : forall x y, plus x y = plus y x.
Hypothesis unit_left : forall x, Good x -> plus unit x = x.
Hypothesis Good_unit : Good unit.
Hypothesis Good_plus : forall x y, Good x -> Good y -> Good (plus x y).

(** The combination of a list of partial results. *)
Definition big (l : list X) : X := fold_right plus unit l.

Lemma Good_big (l : list X) : Forall Good l -> Good (big l).
Proof. induction 1; simpl; auto. Qed.

Lemma big_app (l l' : list X) :
  Forall Good l' -> big (l ++ l') = plus (big l) (big l').
Proof.
  intros H. induction l as [| x l IH]; simpl.
  - symmetry. apply unit_left. now apply Good_big.
  - rewrite IH. apply plus_assoc.
Qed.

Lemma big_perm (l l' : list X) : Permutation l l' -> big l = big l'.
Proof.
  induction 1 as [| x l l' _ IH | x y l | l l' l'' _ IH _ IH']; simpl.
  - reflexivity.
  - now rewrite IH.
  - rewrite !plus_assoc. f_equal. apply plus_comm.
  - now rewrite IH.
Qed.

Lemma big_concat (ls : list (list X)) :
  Forall (Forall Good) ls -> big (concat ls) = big (map big ls).
Proof.
  induction 1 as [| l ls H Hs IH]; simpl; [reflexivity |].
  rewrite big_app, IH; [reflexivity |].
  apply Forall_concat. exact Hs.
Qed.

Lemma fold_left_big (l : list X) (x : X) :
  Good x -> Forall Good l -> fold_left plus l x = big (x :: l).
Proof.
  revert x. induction l as [| y l IH]; intros x Hx Hl; simpl.
  - rewrite plus_comm. symmetry. now apply unit_left.
  - inversion Hl as [| ? ? Hy Hl']; subst.
    rewrite IH by auto. simpl. symmetry. apply plus_assoc.
Qed.

Variable inject : X -> Inner T DType.
Variable val : A -> X.
Variable Block : A -> Prop.
Variable chunk : A -> result (Inner T DType).
Variable combine : Partials (Inner T DType) -> result (Inner T DType).
Hypothesis chunk_ok : forall a, Block a -> chunk a = Ok (inject (val a)).
Hypothesis Good_val : forall a, Block a -> Good (val a).

Lemma Good_vals (l : list A) : Forall Block l -> Forall Good (map val l).
Proof. induction 1; simpl; auto. Qed.

Section OneAxis.
Hypothesis combine_flat :
  forall xs, xs <> [] -> Forall Good xs ->
             combine (Flat (map inject xs)) = Ok (inject (big xs)).

Lemma run1_big :
  forall t : Tree1 A,
    proper1 t = true -> Forall Block (leaves1 t) ->
    run1 chunk combine t = Ok (inject (big (map val (leaves1 t)))).
Proof.
  induction t as [a | ts IH] using Tree1_induction; intros Hp Hb.
  - simpl in *. inversion Hb; subst. rewrite chunk_ok by assumption.
    do 2 f_equal. rewrite plus_comm. symmetry. now apply unit_left, Good_val.
  - simpl in Hp. apply andb_true_iff in Hp. destruct Hp as [Hne Hp].
    simpl in Hb. cbn [run1].
    assert (E : mapM (run1 chunk combine) ts
                = Ok (map (fun t => inject (big (map val (leaves1 t)))) ts)).
    { apply mapM_ok. rewrite Forall_forall in IH |- *. intros t Ht.
      apply IH; [exact Ht | |].
      - rewrite forallb_forall in Hp. now apply Hp.
      - rewrite Forall_forall in Hb |- *. intros a Ha. apply Hb.
        apply in_flat_map. now exists t. }
    rewrite E. simpl.
    rewrite <- (map_map (fun t => big (map val (leaves1 t))) inject).
    rewrite combine_flat.
    + do 2 f_equal.
      rewrite <- (map_map (fun t => map val (leaves1 t)) big).
      rewrite <- big_concat.
      * f_equal. rewrite flat_map_concat_map, concat_map, map_map. reflexivity.
      * rewrite Forall_map, Forall_forall. intros t Ht. apply Good_vals.
        rewrite Forall_forall in Hb |- *. intros a Ha. apply Hb.
        apply in_flat_map. now exists t.
    + destruct ts; [discriminate | discriminate].
    + rewrite Forall_map, Forall_forall. intros t Ht. apply Good_big, Good_vals.
      rewrite Forall_forall in Hb |- *. intros a Ha. apply Hb.
      apply in_flat_map. now exists t.
Qed.

Lemma reduce_line_big (chunkf : list nat -> bool -> A -> result (Inner T DType))
      (aggregate : list nat -> bool -> Partials (Inner T DType) ->
                   result (Inner T DType))
      (axis : list nat) (keepdims : bool) (line : list A) :
  chunkf axis true = chunk ->
  aggregate axis true = combine ->
  aggregate axis keepdims = combine ->
  line <> [] -> Forall Block line ->
  reduce_line sched chunkf aggregate axis keepdims line
  = Ok (inject (big (map val line))).
Proof.
  intros Hc Ha Hk Hne Hb. unfold reduce_line. rewrite Hc, Ha, Hk.
  destruct (plan1_proper sched Hne) as [Hn Hp].
  pose proof (plan1_leaves sched line) as Hperm.
  assert (Hb' : Forall Block (flat_map leaves1 (plan1 sched line))).
  { rewrite Forall_forall in Hb |- *. intros a Ha'.
    apply Hb. eapply Permutation_in; eauto. }
  assert (E : mapM (run1 chunk combine) (plan1 sched line)
              = Ok (map (fun t => inject (big (map val (leaves1 t))))
                        (plan1 sched line))).
  { apply mapM_ok. rewrite Forall_forall. intros t Ht.
    apply run1_big.
    - rewrite forallb_forall in Hp. now apply Hp.
    - rewrite Forall_forall in Hb' |- *. intros a Ha'. apply Hb'.
      apply in_flat_map. now exists t. }
  rewrite E. simpl.
  rewrite <- (map_map (fun t => big (map val (leaves1 t))) inject).
  rewrite combine_flat.
  - do 2 f_equal.
    rewrite <- (map_map (fun t => map val (leaves1 t)) big).
    rewrite <- big_concat.
    + rewrite <- map_map, <- concat_map, <- flat_map_concat_map.
      apply big_perm, Permutation_map, Hperm.
    + rewrite Forall_map, Forall_forall. intros t Ht. apply Good_vals.
      rewrite Forall_forall in Hb' |- *. intros a Ha'. apply Hb'.
      apply in_flat_map. now exists t.
  - intros C. apply map_eq_nil in C. contradiction.
  - rewrite Forall_map, Forall_forall. intros t Ht. apply Good_big, Good_vals.
    rewrite Forall_forall in Hb' |- *. intros a Ha'. apply Hb'.
    apply in_flat_map. now exists t.
Qed.
End OneAxis.

Section TwoAxes.
Hypothesis combine_nested :
  forall xss, xss <> [] -> Forall (Forall Good) xss ->
              combine (Nested (map (map inject) xss))
              = Ok (inject (big (concat xss))).

(** The partial result of a tree. *)
Let part2 (t : Tree2 A) : X := big (map val (leaves2 t)).

Lemma big_forest2 (ts : list (Tree2 A)) :
  Forall Block (flat_map leaves2 ts) ->
  big (map part2 ts) = big (map val (flat_map leaves2 ts)) /\
  Forall Good (map part2 ts).
Proof.
  intros Hb.
  assert (G : Forall (Forall Good) (map (fun t => map val (leaves2 t)) ts)).
  { rewrite Forall_map, Forall_forall. intros t Ht. apply Good_vals.
    rewrite Forall_forall in Hb |- *. intros a Ha. apply Hb.
    apply in_flat_map. now exists t. }
  split.
  - unfold part2. rewrite <- (map_map (fun t => map val (leaves2 t)) big).
    rewrite <- big_concat by exact G.
    f_equal. rewrite flat_map_concat_map, concat_map, map_map. reflexivity.
  - rewrite Forall_map in G |- *. rewrite Forall_forall in G |- *.
    intros t Ht. apply Good_big, G, Ht.
Qed.

Lemma flat_map_flat_map (B C : Type) (f : B -> list C) (ls : list (list B)) :
  flat_map (flat_map f) ls = flat_map f (concat ls).
Proof.
  induction ls as [| l ls IH]; simpl; [reflexivity |].
  now rewrite IH, flat_map_app.
Qed.

Lemma big_grid2 (tss : list (list (Tree2 A))) :
  Forall Block (flat_map (flat_map leaves2) tss) ->
  big (concat (map (map part2) tss))
  = big (map val (flat_map (flat_map leaves2) tss)) /\
  Forall (Forall Good) (map (map part2) tss).
Proof.
  intros Hb. rewrite flat_map_flat_map in Hb. split.
  - rewrite <- concat_map, flat_map_flat_map. now apply big_forest2.
  - rewrite Forall_map, Forall_forall. intros ts Hts.
    apply big_forest2.
    rewrite Forall_forall in Hb |- *. intros a Ha. apply Hb.
    apply in_flat_map in Ha. destruct Ha as [t [Ht Ha]].
    apply in_flat_map. exists t. split; [| exact Ha].
    apply in_concat. now exists ts.
Qed.

Lemma run2_big :
  forall t : Tree2 A,
    proper2 t = true -> Forall Block (leaves2 t) ->
    run2 chunk combine t = Ok (inject (part2 t)).
Proof.
  induction t as [a | tss IH] using Tree2_induction; intros Hp Hb.
  - simpl in *. inversion Hb; subst. rewrite chunk_ok by assumption.
    do 2 f_equal. unfold part2. simpl.
    rewrite plus_comm. symmetry. now apply unit_left, Good_val.
  - simpl in Hp. apply andb_true_iff in Hp. destruct Hp as [Hne Hp].
    cbn [leaves2] in Hb. cbn [run2].
    assert (E : mapM (mapM (run2 chunk combine)) tss
                = Ok (map (map (fun t => inject (part2 t))) tss)).
    { apply mapM_ok. rewrite Forall_forall in IH |- *. intros ts Hts.
      apply mapM_ok. specialize (IH ts Hts).
      rewrite Forall_forall in IH |- *. intros t Ht.
      apply IH; [exact Ht | |].
      - rewrite forallb_forall in Hp. specialize (Hp ts Hts).
        rewrite forallb_forall in Hp. now apply Hp.
      - rewrite Forall_forall in Hb |- *. intros a Ha. apply Hb.
        apply in_flat_map. exists ts. split; [exact Hts |].
        apply in_flat_map. now exists t. }
    rewrite E. simpl.
    replace (map (map (fun t => inject (part2 t))) tss)
      with (map (map inject) (map (map part2) tss))
      by (rewrite map_map; apply map_ext; intros; now rewrite map_map).
    destruct (big_grid2 tss Hb) as [Hbig Hgood].
    rewrite combine_nested.
    + now rewrite Hbig.
    + destruct tss; discriminate.
    + exact Hgood.
Qed.

Lemma reduce_grid_big
      (chunkf : list nat -> bool -> A -> result (Inner T DType))
      (aggregate : list nat -> bool -> Partials (Inner T DType) ->
                   result (Inner T DType))
      (axis : list nat) (keepdims : bool) (g : list (list A)) :
  chunkf axis true = chunk ->
  aggregate axis true = combine ->
  aggregate axis keepdims = combine ->
  g <> [] -> Forall Block (concat g) ->
  reduce_grid sched chunkf aggregate axis keepdims g
  = Ok (inject (big (map val (concat g)))).
Proof.
  intros Hc Ha Hk Hne Hb. unfold reduce_grid. rewrite Hc, Ha, Hk.
  destruct (plan2_proper sched Hne) as [Hn Hp].
  pose proof (plan2_leaves sched g) as Hperm.
  assert (Hb' : Forall Block (flat_map (flat_map leaves2) (plan2 sched g))).
  { rewrite Forall_forall in Hb |- *. intros a Ha'.
    apply Hb. eapply Permutation_in; eauto. }
  assert (E : mapM (mapM (run2 chunk combine)) (plan2 sched g)
              = Ok (map (map (fun t => inject (part2 t))) (plan2 sched g))).
  { apply mapM_ok. rewrite Forall_forall. intros ts Hts.
    apply mapM_ok. rewrite Forall_forall. intros t Ht.
    apply run2_big.
    - rewrite forallb_forall in Hp. specialize (Hp ts Hts).
      rewrite forallb_forall in Hp. now apply Hp.
    - rewrite Forall_forall in Hb' |- *. intros a Ha'. apply Hb'.
      apply in_flat_map. exists ts. split; [exact Hts |].
      apply in_flat_map. now exists t. }
  rewrite E. simpl.
  replace (map (map (fun t => inject (part2 t))) (plan2 sched g))
    with (map (map inject) (map (map part2) (plan2 sched g)))
    by (rewrite map_map; apply map_ext; intros; now rewrite map_map).
  destruct (big_grid2 (plan2 sched g) Hb') as [Hbig Hgood].
  rewrite combine_nested.
  - rewrite Hbig. do 2 f_equal. apply big_perm, Permutation_map, Hperm.
  - intros C. apply map_eq_nil in C. contradiction.
  - exact Hgood.
Qed.
End TwoAxes.
End TreeFold.

(** ** Reductions over a partitioned object *)

Section Reductions.
Variable op : Monoid T.
Hypothesis CM : CommMonoid op.

(** The dtype [d] of the materialization.  The monoid stays within the
    values of [d]: converting its identity, or the combination of two
    values of [d], to [d] changes nothing. *)
Variable d : DType.
Hypothesis d_identity : cast gb d (m_identity op) = m_identity op.
Hypothesis d_closed :
  forall x y, cast gb d x = x -> cast gb d y = y ->
              cast gb d (m_op op x y) = m_op op x y.

Definition exact_value (x : T) : Prop := cast gb d x = x.

Lemma exact_present (l : list (option T)) :
  Forall (exact d) l -> Forall exact_value (present l).
Proof.
  induction 1 as [| [x |] l H _ IH]; simpl; auto.
Qed.

Lemma present_app (A : Type) (l l' : list (option A)) :
  present (l ++ l') = present l ++ present l'.
Proof.
  induction l as [| [x |] l IH]; simpl; [reflexivity | now rewrite IH | exact IH].
Qed.

Lemma present_concat (A : Type) (ls : list (list (option A))) :
  present (concat ls) = concat (map (@present A) ls).
Proof.
  induction ls as [| l ls IH]; simpl; [reflexivity |].
  now rewrite present_app, IH.
Qed.

Lemma present_map_Some (A : Type) (l : list A) : present (map Some l) = l.
Proof. induction l as [| x l IH]; simpl; [reflexivity | now rewrite IH]. Qed.

Lemma positions_map_Some (A : Type) (l : list A) (base : nat) :
  positions base (map Some l) = seq base (length l).
Proof.
  revert base. induction l as [| x l IH]; intros base; simpl;
    [reflexivity | now rewrite IH].
Qed.

Lemma exact_fold (l : list T) :
  Forall exact_value l -> exact_value (fold_monoid op l).
Proof.
  induction 1 as [| x l H _ IH]; simpl; [exact d_identity |].
  now apply d_closed.
Qed.

(** The scalar partial result with value [x]. *)
Definition scalar_part (x : T) : Inner T DType := InnerScalar (mkScalar d (Some x)).

Lemma from_values_exact (l : list T) :
  Forall exact_value l ->
  Vector_from_values gb (seq 0 (length (map Some l))) (map Some l)
                     (Some (length (map Some l))) d
  = Ok (mkVector d (map Some l)).
Proof.
  intros H. unfold Vector_from_values.
  assert (E : mapM (fun o : option T => match o with
                                        | Some x => Ok (cast gb d x)
                                        | None => Raise TypeError
                                        end) (map Some l) = Ok l).
  { induction H as [| x l Hx _ IH]; [reflexivity |].
    simpl map. rewrite mapM_cons, Hx, IH. reflexivity. }
  rewrite E. simpl.
  pose proof (fill_positions_0 (map Some l)) as F.
  rewrite positions_map_Some, present_map_Some in F.
  rewrite length_map in F |- *. rewrite F. reflexivity.
Qed.

Lemma combine_scalars (l : list T) :
  Forall exact_value l ->
  (vals <- mapM (@scalar_value T DType) (map scalar_part l) ;;
   values <- Vector_from_values gb (seq 0 (length vals)) vals
                                (Some (length vals)) d ;;
   Ok (wrap_inner (GbScalar (Vector_reduce gb op values None))))
  = Ok (scalar_part (fold_monoid op l)).
Proof.
  intros H.
  assert (E : mapM (@scalar_value T DType) (map scalar_part l) = Ok (map Some l)).
  { rewrite <- (map_map scalar_part (fun b => match b with
                                               | InnerScalar s => s_value s
                                               | _ => None
                                               end)).
    apply mapM_ok. rewrite Forall_map, Forall_forall. now intros. }
  rewrite E. simpl. rewrite from_values_exact by exact H. simpl.
  unfold Vector_reduce, scalar_part. simpl. rewrite present_map_Some.
  now rewrite (exact_fold H).
Qed.

Lemma _reduce_combine_flat (xs : list T) :
  xs <> [] -> Forall exact_value xs ->
  _reduce_combine gb op (Flat (map scalar_part xs)) false d
  = Ok (scalar_part (big (m_op op) (m_identity op) xs)).
Proof.
  intros Hne H. destruct xs as [| x xs]; [contradiction |].
  exact (combine_scalars H).
Qed.

Lemma _reduce_combine_nested (xss : list (list T)) :
  xss <> [] -> Forall (Forall exact_value) xss ->
  _reduce_combine gb op (Nested (map (map scalar_part) xss)) false d
  = Ok (scalar_part (big (m_op op) (m_identity op) (concat xss))).
Proof.
  intros Hne H. destruct xss as [| xs xss]; [contradiction |].
  unfold _reduce_combine. cbn [map]. rewrite <- map_cons, <- concat_map.
  apply combine_scalars. now apply Forall_concat.
Qed.

(** The stored values of a block, and the blocks whose stored values are
    values of [d]. *)
Definition block_values (b : Inner T DType) : list T :=
  match b with
  | InnerVector v => present (v_entries v)
  | InnerMatrix m | FakeInnerTensor m => present (concat (m_rows m))
  | _ => []
  end.

Definition exact_vector (v : Vector T DType) : Prop := Forall (exact d) (v_entries v).
Definition exact_matrix (m : Matrix T DType) : Prop :=
  Forall (Forall (exact d)) (m_rows m).

Definition vector_block (b : Inner T DType) : Prop :=
  exists v, b = InnerVector v /\ exact_vector v.

Definition matrix_block (b : Inner T DType) : Prop :=
  exists m, b = InnerMatrix m /\ exact_matrix m.

Lemma vector_block_values (b : Inner T DType) :
  vector_block b -> Forall exact_value (block_values b).
Proof. intros [v [-> H]]. now apply exact_present. Qed.

Lemma matrix_block_values (b : Inner T DType) :
  matrix_block b -> Forall exact_value (block_values b).
Proof.
  intros [m [-> H]]. simpl. apply exact_present, Forall_concat. exact H.
Qed.

Lemma _reduce_block (b : Inner T DType) :
  vector_block b ->
  _reduce gb op d b false d = Ok (scalar_part (fold_monoid op (block_values b))).
Proof.
  intros Hb. pose proof (vector_block_values Hb) as E.
  destruct Hb as [v [-> H]]. simpl. unfold Vector_reduce, scalar_part. simpl.
  simpl in E. now rewrite (exact_fold E).
Qed.

Lemma _reduce_scalar_block (b : Inner T DType) :
  matrix_block b ->
  _reduce_scalar gb op d b false d
  = Ok (scalar_part (fold_monoid op (block_values b))).
Proof.
  intros Hb. pose proof (matrix_block_values Hb) as E.
  destruct Hb as [m [-> H]]. simpl. unfold Matrix_reduce_scalar, scalar_part. simpl.
  simpl in E. now rewrite (exact_fold E).
Qed.

(** A full reduction of a line or of a grid of blocks is the combination
    of the stored values of all the blocks. *)
Lemma fold_blocks (bs : list (Inner T DType)) :
  Forall (fun b => Forall exact_value (block_values b)) bs ->
  big (m_op op) (m_identity op) (map (fun b => fold_monoid op (block_values b)) bs)
  = fold_monoid op (concat (map block_values bs)).
Proof.
  intros H. rewrite <- (map_map block_values (fold_monoid op)).
  symmetry.
  apply (@big_concat T (m_op op) (m_identity op) exact_value
                     (op_assoc CM) (fun x _ => op_identity CM x)
                     d_identity d_closed).
  now rewrite Forall_map.
Qed.

Lemma reduce_vector_blocks (bs : list (Inner T DType)) :
  bs <> [] -> Forall vector_block bs ->
  reduce_line sched
    (fun _ _ x => _reduce gb op d x false d)
    (fun _ _ x => _reduce_combine gb op x false d) [0] false bs
  = Ok (scalar_part (fold_monoid op (concat (map block_values bs)))).
Proof.
  intros Hne Hb.
  rewrite (@reduce_line_big
             (Inner T DType) T (m_op op) (m_identity op) exact_value
             (op_assoc CM) (op_comm CM) (fun x _ => op_identity CM x)
             d_identity d_closed
             scalar_part (fun b => fold_monoid op (block_values b))
             vector_block
             (fun x => _reduce gb op d x false d)
             (fun x => _reduce_combine gb op x false d)
             _reduce_block
             (fun a Ha => exact_fold (vector_block_values Ha))
             _reduce_combine_flat
             _ _ [0] false bs eq_refl eq_refl eq_refl Hne Hb).
  rewrite fold_blocks; [reflexivity |].
  rewrite Forall_forall in Hb |- *. intros b Hin. apply vector_block_values, Hb, Hin.
Qed.

Lemma reduce_matrix_blocks (g : list (list (Inner T DType))) :
  g <> [] -> Forall matrix_block (concat g) ->
  reduce_grid sched
    (fun _ _ x => _reduce_scalar gb op d x false d)
    (fun _ _ x => _reduce_combine gb op x false d) [0; 1] false g
  = Ok (scalar_part (fold_monoid op (concat (map block_values (concat g))))).
Proof.
  intros Hne Hb.
  rewrite (@reduce_grid_big
             (Inner T DType) T (m_op op) (m_identity op) exact_value
             (op_assoc CM) (op_comm CM) (fun x _ => op_identity CM x)
             d_identity d_closed
             scalar_part (fun b => fold_monoid op (block_values b))
             matrix_block
             (fun x => _reduce_scalar gb op d x false d)
             (fun x => _reduce_combine gb op x false d)
             _reduce_scalar_block
             (fun a Ha => exact_fold (matrix_block_values Ha))
             _reduce_combine_nested
             _ _ [0; 1] false g eq_refl eq_refl eq_refl Hne Hb).
  rewrite fold_blocks; [reflexivity |].
  rewrite Forall_forall in Hb |- *. intros b Hin. apply matrix_block_values, Hb, Hin.
Qed.

(** *** Row-wise and column-wise reductions *)

(** The element-wise union of two partial vectors under the monoid. *)
Definition vsum (l l' : list (option T)) : list (option T) :=
  zipw (union (m_op op)) l l'.

(** The partial vectors of one line of blocks: [n] entries, each a value
    of [d]. *)
Definition exact_line (n : nat) (l : list (option T)) : Prop :=
  length l = n /\ Forall (exact d) l.

Definition vector_part (l : list (option T)) : Inner T DType :=
  InnerVector (mkVector d l).

Lemma union_assoc (a b c : option T) :
  union (m_op op) a (union (m_op op) b c) = union (m_op op) (union (m_op op) a b) c.
Proof.
  destruct a, b, c; simpl; try reflexivity. now rewrite (op_assoc CM).
Qed.

Lemma union_comm (a b : option T) : union (m_op op) a b = union (m_op op) b a.
Proof.
  destruct a, b; simpl; try reflexivity. now rewrite (op_comm CM).
Qed.

Lemma exact_union (a b : option T) :
  exact d a -> exact d b -> exact d (union (m_op op) a b).
Proof.
  destruct a, b; simpl; auto.
Qed.

Lemma vsum_assoc (x y z : list (option T)) :
  vsum x (vsum y z) = vsum (vsum x y) z.
Proof.
  unfold vsum. revert y z.
  induction x as [| a x IH]; intros [| b y] [| c z]; simpl; try reflexivity.
  now rewrite union_assoc, IH.
Qed.

Lemma vsum_comm (x y : list (option T)) : vsum x y = vsum y x.
Proof.
  unfold vsum. revert y.
  induction x as [| a x IH]; intros [| b y]; simpl; try reflexivity.
  now rewrite union_comm, IH.
Qed.

Lemma vsum_unit (n : nat) (x : list (option T)) :
  exact_line n x -> vsum (repeat None n) x = x.
Proof.
  intros [<- _]. unfold vsum.
  induction x as [| [a |] x IH]; simpl; [reflexivity | |]; now rewrite IH.
Qed.

Lemma exact_line_unit (n : nat) : exact_line n (repeat None n).
Proof.
  split; [apply repeat_length |].
  induction n; simpl; constructor; simpl; auto.
Qed.

Lemma length_zipw (A B C : Type) (f : A -> B -> C) (l : list A) (l' : list B) :
  length l = length l' -> length (zipw f l l') = length l.
Proof.
  revert l'. induction l as [| a l IH]; intros [| b l'] H; simpl in *;
    try reflexivity; try discriminate. f_equal. apply IH. congruence.
Qed.

Lemma exact_line_vsum (n : nat) (x y : list (option T)) :
  exact_line n x -> exact_line n y -> exact_line n (vsum x y).
Proof.
  intros [Hx Ex] [Hy Ey]. split.
  - unfold vsum. rewrite length_zipw; congruence.
  - clear Hx Hy. unfold vsum. revert y Ey.
    induction Ex as [| a x Ha _ IH]; intros y Ey; simpl; [constructor |].
    destruct Ey as [| b y Hb Ey]; constructor.
    + now apply exact_union.
    + now apply IH.
Qed.

Lemma exact_reduce_entries (l : list (option T)) :
  Forall (exact d) l -> exact d (reduce_entries op l).
Proof.
  induction 1 as [| a l Ha _ IH]; simpl; [exact I |].
  now apply exact_union.
Qed.

Lemma option_map_exact (o : option T) :
  exact d o -> option_map (cast gb d) o = o.
Proof. destruct o; simpl; congruence. Qed.

Lemma map_cast_exact (l : list (option T)) :
  Forall (exact d) l -> map (option_map (cast gb d)) l = l.
Proof.
  induction 1 as [| o l H _ IH]; simpl; [reflexivity |].
  now rewrite IH, option_map_exact.
Qed.

Lemma ewise_add_parts (n : nat) (x y : list (option T)) :
  exact_line n x -> exact_line n y ->
  Gb_ewise_add gb (m_op op) (GbVector (mkVector d x)) (GbVector (mkVector d y)) None
  = Ok (GbVector (mkVector d (vsum x y))).
Proof.
  intros Hx Hy. pose proof (exact_line_vsum Hx Hy) as [_ E].
  destruct Hx as [Hx _], Hy as [Hy _].
  unfold Gb_ewise_add, Vector_ewise_add, size. simpl.
  rewrite Hx, Hy, Nat.eqb_refl, unify_same. simpl.
  fold (vsum x y). now rewrite (map_cast_exact E).
Qed.

Lemma foldM_ewise_add (n : nat) (l : list (list (option T))) :
  forall x,
    exact_line n x -> Forall (exact_line n) l ->
    foldM (fun a b => Gb_ewise_add gb (m_op op) a b None)
          (map (fun y => GbVector (mkVector d y)) l) (GbVector (mkVector d x))
    = Ok (GbVector (mkVector d (fold_left vsum l x))).
Proof.
  induction l as [| y l IH]; intros x Hx Hl; [reflexivity |].
  inversion Hl as [| ? ? Hy Hl']; subst. cbn [map foldM fold_left].
  rewrite (ewise_add_parts Hx Hy). cbn [bind].
  apply IH; [now apply exact_line_vsum | exact Hl'].
Qed.

Lemma _reduce_axis_combine_flat (n : nat) (xs : list (list (option T))) :
  xs <> [] -> Forall (exact_line n) xs ->
  _reduce_axis_combine gb op (Flat (map vector_part xs)) false d
  = Ok (vector_part (big vsum (repeat None n) xs)).
Proof.
  intros Hne H. destruct xs as [| x xs]; [contradiction |].
  inversion H as [| ? ? Hx Hxs]; subst.
  unfold _reduce_axis_combine.
  assert (E : mapM (@value_of T DType) (map vector_part (x :: xs))
              = Ok (map (fun y => GbVector (mkVector d y)) (x :: xs))).
  { rewrite <- (map_map vector_part
                        (fun b => match b with
                                  | InnerVector v => GbVector v
                                  | _ => GbVector (mkVector d [])
                                  end)).
    apply mapM_ok. rewrite Forall_map, Forall_forall. now intros. }
  rewrite E. cbn [bind map reduce].
  rewrite (foldM_ewise_add Hx Hxs). cbn [bind wrap_inner].
  unfold vector_part. do 3 f_equal.
  apply (@fold_left_big (list (option T)) vsum (repeat None n) (exact_line n)
                        vsum_assoc vsum_comm (@vsum_unit n)
                        (@exact_line_vsum n) xs x Hx Hxs).
Qed.

(** The blocks of one row of the grid, [h] rows high, and of one column of
    the grid, [w] columns wide. *)
Definition row_block (h : nat) (b : Inner T DType) : Prop :=
  exists m, b = InnerMatrix m /\ nrows m = h /\ exact_matrix m.

Definition column_block (w : nat) (b : Inner T DType) : Prop :=
  exists m, b = InnerMatrix m /\ m_ncols m = w /\ exact_matrix m.

(** The row sums and the column sums of a block. *)
Definition row_sums (b : Inner T DType) : list (option T) :=
  match b with
  | InnerMatrix m | FakeInnerTensor m => map (reduce_entries op) (m_rows m)
  | _ => []
  end.

Definition column_sums (b : Inner T DType) : list (option T) :=
  match b with
  | InnerMatrix m | FakeInnerTensor m =>
      map (reduce_entries op) (transpose (m_ncols m) (m_rows m))
  | _ => []
  end.

Lemma exact_row_sums (h : nat) (b : Inner T DType) :
  row_block h b -> exact_line h (row_sums b).
Proof.
  intros [m [-> [Hh E]]]. split; simpl.
  - now rewrite length_map.
  - rewrite Forall_map. unfold exact_matrix in E.
    rewrite Forall_forall in E |- *. intros r Hr.
    now apply exact_reduce_entries, E.
Qed.

Lemma exact_column (rows : list (list (option T))) (j : nat) :
  Forall (Forall (exact d)) rows -> Forall (exact d) (column j rows).
Proof.
  intros E. unfold column. rewrite Forall_map.
  rewrite Forall_forall in E |- *. intros r Hr.
  specialize (E r Hr). rewrite Forall_forall in E.
  destruct (Nat.lt_ge_cases j (length r)) as [L | G].
  - apply E, nth_In, L.
  - rewrite nth_overflow by exact G. exact I.
Qed.

Lemma exact_column_sums (w : nat) (b : Inner T DType) :
  column_block w b -> exact_line w (column_sums b).
Proof.
  intros [m [-> [Hw E]]]. split; simpl.
  - unfold transpose. now rewrite !length_map, length_seq.
  - unfold transpose. rewrite !Forall_map, Forall_forall. intros j _.
    now apply exact_reduce_entries, exact_column.
Qed.

Lemma _reduce_axis_rows (h : nat) (b : Inner T DType) :
  row_block h b ->
  _reduce_axis gb op d b [1] false d = Ok (vector_part (row_sums b)).
Proof.
  intros Hb. pose proof (exact_row_sums Hb) as [_ E].
  destruct Hb as [m [-> _]]. unfold _reduce_axis.
  destruct (list_eq_dec Nat.eq_dec [1] [1]) as [_ | C]; [| congruence].
  unfold Matrix_reduce_rowwise, vector_part. simpl. do 3 f_equal.
  rewrite <- (map_map (reduce_entries op) (option_map (cast gb d))).
  now apply map_cast_exact.
Qed.

Lemma _reduce_axis_columns (w : nat) (b : Inner T DType) :
  column_block w b ->
  _reduce_axis gb op d b [0] false d = Ok (vector_part (column_sums b)).
Proof.
  intros Hb. pose proof (exact_column_sums Hb) as [_ E].
  destruct Hb as [m [-> _]]. unfold _reduce_axis.
  destruct (list_eq_dec Nat.eq_dec [0] [1]) as [C | _]; [discriminate |].
  destruct (list_eq_dec Nat.eq_dec [0] [0]) as [_ | C]; [| congruence].
  unfold Matrix_reduce_columnwise, vector_part. simpl. do 3 f_equal.
  rewrite <- (map_map (reduce_entries op) (option_map (cast gb d))).
  now apply map_cast_exact.
Qed.

Lemma reduce_row_of_blocks (h : nat) (line : list (Inner T DType)) :
  line <> [] -> Forall (row_block h) line ->
  reduce_line sched
    (fun ax _ x => _reduce_axis gb op d x ax false d)
    (fun _ _ x => _reduce_axis_combine gb op x false d) [1] false line
  = Ok (vector_part (big vsum (repeat None h) (map row_sums line))).
Proof.
  intros Hne Hb.
  exact (@reduce_line_big
           (Inner T DType) (list (option T)) vsum (repeat None h) (exact_line h)
           vsum_assoc vsum_comm (@vsum_unit h) (exact_line_unit h)
           (@exact_line_vsum h)
           vector_part row_sums (row_block h)
           (fun x => _reduce_axis gb op d x [1] false d)
           (fun x => _reduce_axis_combine gb op x false d)
           (@_reduce_axis_rows h) (@exact_row_sums h)
           (@_reduce_axis_combine_flat h)
           _ _ [1] false line eq_refl eq_refl eq_refl Hne Hb).
Qed.

Lemma reduce_column_of_blocks (w : nat) (line : list (Inner T DType)) :
  line <> [] -> Forall (column_block w) line ->
  reduce_line sched
    (fun ax _ x => _reduce_axis gb op d x ax false d)
    (fun _ _ x => _reduce_axis_combine gb op x false d) [0] false line
  = Ok (vector_part (big vsum (repeat None w) (map column_sums line))).
Proof.
  intros Hne Hb.
  exact (@reduce_line_big
           (Inner T DType) (list (option T)) vsum (repeat None w) (exact_line w)
           vsum_assoc vsum_comm (@vsum_unit w) (exact_line_unit w)
           (@exact_line_vsum w)
           vector_part column_sums (column_block w)
           (fun x => _reduce_axis gb op d x [0] false d)
           (fun x => _reduce_axis_combine gb op x false d)
           (@_reduce_axis_columns w) (@exact_column_sums w)
           (@_reduce_axis_combine_flat w)
           _ _ [0] false line eq_refl eq_refl eq_refl Hne Hb).
Qed.

(** *** The unpartitioned object and its blocks *)

Lemma fold_monoid_app (l l' : list T) :
  fold_monoid op (l ++ l') = m_op op (fold_monoid op l) (fold_monoid op l').
Proof.
  induction l as [| x l IH]; simpl.
  - now rewrite (op_identity CM).
  - now rewrite IH, (op_assoc CM).
Qed.

Lemma fold_monoid_concat (ls : list (list T)) :
  fold_monoid op (concat ls)
  = fold_monoid op (map (fold_monoid op) ls).
Proof.
  induction ls as [| l ls IH]; simpl; [reflexivity |].
  now rewrite fold_monoid_app, IH.
Qed.

Lemma mapM_map (A B C : Type) (f : B -> result C) (g : A -> B) (l : list A) :
  mapM f (map g l) = mapM (fun a => f (g a)) l.
Proof.
  induction l as [| a l IH]; [reflexivity |].
  simpl map. now rewrite !mapM_cons, IH.
Qed.

Lemma mapM_pure (A B : Type) (g : A -> B) (l : list A) :
  mapM (fun a => Ok (g a)) l = Ok (map g l).
Proof. apply mapM_ok. rewrite Forall_forall. now intros. Qed.

Lemma compute_vector_blocks (vs : list (Vector T DType)) (meta : GbObject T DType) :
  compute (mkCollection (Array1 (map (@InnerVector T DType) vs)) meta)
  = Ok (GbVector (mkVector (dtype_of meta) (concat (map (@v_entries T DType) vs)))).
Proof.
  unfold compute. simpl. rewrite mapM_map. simpl.
  now rewrite (mapM_pure (fun v : Vector T DType => v)), map_id.
Qed.

Lemma compute_matrix_blocks (ms : list (list (Matrix T DType)))
      (meta : GbObject T DType) :
  compute (mkCollection (Array2 (map (map (@InnerMatrix T DType)) ms)) meta)
  = Ok (GbMatrix (mkMatrix (dtype_of meta)
                           (list_sum (map (@m_ncols T DType) (hd [] ms)))
                           (concat (map (@hstack T DType) ms)))).
Proof.
  unfold compute. simpl. rewrite mapM_map.
  assert (E : mapM (fun a => mapM (@as_matrix T DType) (map (@InnerMatrix T DType) a)) ms
              = Ok ms).
  { rewrite <- (map_id ms) at 2. apply mapM_ok.
    rewrite Forall_forall. intros row _. rewrite mapM_map. simpl.
    now rewrite (mapM_pure (fun m : Matrix T DType => m)), map_id. }
  now rewrite E.
Qed.

(** The stored values of a vector are those of its blocks. *)
Lemma values_of_vector_blocks (vs : list (Vector T DType)) :
  concat (map (@block_values) (map (@InnerVector T DType) vs))
  = present (concat (map (@v_entries T DType) vs)).
Proof.
  rewrite present_concat, !map_map. reflexivity.
Qed.

(** Putting blocks of the same height side by side keeps the stored values,
    up to their order. *)
Lemma concat_repeat_nil (A : Type) (n : nat) : concat (repeat (@nil A) n) = [].
Proof. induction n; simpl; auto. Qed.

Lemma length_hstack_from (h : nat) (row : list (Matrix T DType)) :
  Forall (fun m => nrows m = h) row -> length (hstack_from h row) = h.
Proof.
  induction 1 as [| m row Hm _ IH]; simpl.
  - apply repeat_length.
  - fold (hstack_from h row). unfold nrows in Hm.
    rewrite length_zipw; congruence.
Qed.

Lemma fold_zipw_app (X Y : list (list (option T))) :
  length X = length Y ->
  fold_monoid op (present (concat (zipw (@app (option T)) X Y)))
  = m_op op (fold_monoid op (present (concat X)))
            (fold_monoid op (present (concat Y))).
Proof.
  revert Y. induction X as [| x X IH]; intros [| y Y] H; simpl in *;
    try discriminate.
  - now rewrite (op_identity CM).
  - rewrite !present_app, !fold_monoid_app, IH by congruence.
    set (a := fold_monoid op (present x)). set (b := fold_monoid op (present y)).
    set (u := fold_monoid op (present (concat X))).
    set (v := fold_monoid op (present (concat Y))).
    rewrite <- !(op_assoc CM). f_equal.
    rewrite !(op_assoc CM). f_equal. apply (op_comm CM).
Qed.

Lemma fold_hstack_from (h : nat) (row : list (Matrix T DType)) :
  Forall (fun m => nrows m = h) row ->
  fold_monoid op (present (concat (hstack_from h row)))
  = fold_monoid op (concat (map (fun m => present (concat (m_rows m))) row)).
Proof.
  induction 1 as [| m row Hm Hrow IH]; simpl.
  - now rewrite concat_repeat_nil.
  - rewrite fold_zipw_app.
    + fold (hstack_from h row). rewrite IH. now rewrite fold_monoid_app.
    + fold (hstack_from h row). rewrite (length_hstack_from Hrow). exact Hm.
Qed.

Lemma height_of_row (h : nat) (row : list (Matrix T DType)) :
  row <> [] -> Forall (fun m => nrows m = h) row -> height row = h.
Proof.
  intros Hne H. destruct H; [contradiction | assumption].
Qed.

Lemma fold_hstack (h : nat) (row : list (Matrix T DType)) :
  Forall (fun m => nrows m = h) row ->
  fold_monoid op (present (concat (hstack row)))
  = fold_monoid op (concat (map (fun m => present (concat (m_rows m))) row)).
Proof.
  intros H. destruct row as [| m row]; [reflexivity |].
  unfold hstack. rewrite (height_of_row (h := h)) by (discriminate || exact H).
  now apply fold_hstack_from.
Qed.

Lemma partitioned_rows (heights widths : list nat) (ms : list (list (Matrix T DType))) :
  partitioned heights widths ms ->
  Forall (fun row => exists h, Forall (fun m => nrows m = h) row) ms.
Proof.
  induction 1 as [| h row heights ms Hrow _ IH]; constructor; [| exact IH].
  exists h. clear IH. induction Hrow as [| w m ws row [Hm _] _ IHrow]; constructor;
    assumption.
Qed.

Lemma values_of_matrix_blocks (heights widths : list nat)
      (ms : list (list (Matrix T DType))) :
  partitioned heights widths ms ->
  fold_monoid op (concat (map (@block_values)
                              (concat (map (map (@InnerMatrix T DType)) ms))))
  = fold_monoid op (present (concat (concat (map (@hstack T DType) ms)))).
Proof.
  intros P. apply partitioned_rows in P.
  rewrite <- concat_map, map_map. simpl.
  induction P as [| row ms [h Hrow] _ IH]; simpl; [reflexivity |].
  rewrite map_app, !concat_app, present_app, !fold_monoid_app.
  rewrite IH. f_equal. symmetry. now apply (fold_hstack (h := h)).
Qed.

(** *** Row sums of blocks side by side *)

Lemma reduce_entries_app (l l' : list (option T)) :
  reduce_entries op (l ++ l')
  = union (m_op op) (reduce_entries op l) (reduce_entries op l').
Proof.
  induction l as [| a l IH]; simpl.
  - now destruct (reduce_entries op l').
  - unfold reduce_entries in IH |- *. now rewrite IH, union_assoc.
Qed.

Lemma row_sums_zipw_app (X Y : list (list (option T))) :
  map (reduce_entries op) (zipw (@app (option T)) X Y)
  = vsum (map (reduce_entries op) X) (map (reduce_entries op) Y).
Proof.
  revert Y. induction X as [| x X IH]; intros [| y Y]; simpl; try reflexivity.
  rewrite reduce_entries_app, IH. reflexivity.
Qed.

Lemma map_repeat_const (A B : Type) (f : A -> B) (a : A) (n : nat) :
  map f (repeat a n) = repeat (f a) n.
Proof. induction n; simpl; [reflexivity | now f_equal]. Qed.

Lemma row_sums_hstack_from (h : nat) (row : list (Matrix T DType)) :
  map (reduce_entries op) (hstack_from h row)
  = big vsum (repeat None h)
        (map (fun m => map (reduce_entries op) (m_rows m)) row).
Proof.
  induction row as [| m row IH]; simpl.
  - now rewrite map_repeat_const.
  - fold (hstack_from h row). now rewrite row_sums_zipw_app, IH.
Qed.

Definition exact_row (h : nat) (row : list (Matrix T DType)) : Prop :=
  Forall (fun m => nrows m = h /\ exact_matrix m) row.

Lemma exact_row_blocks (h : nat) (row : list (Matrix T DType)) :
  exact_row h row -> Forall (row_block h) (map (@InnerMatrix T DType) row).
Proof.
  intros H. rewrite Forall_map. unfold exact_row in H.
  rewrite Forall_forall in H |- *. intros m Hm. exists m.
  destruct (H m Hm). auto.
Qed.

Lemma reduce_row_hstack (h : nat) (row : list (Matrix T DType)) :
  row <> [] -> exact_row h row ->
  reduce_line sched
    (fun ax _ x => _reduce_axis gb op d x ax false d)
    (fun _ _ x => _reduce_axis_combine gb op x false d) [1] false
    (map (@InnerMatrix T DType) row)
  = Ok (vector_part (map (reduce_entries op) (hstack row))) /\
  exact_line h (map (reduce_entries op) (hstack row)).
Proof.
  intros Hne H.
  assert (Hh : height row = h).
  { apply height_of_row; [exact Hne |].
    unfold exact_row in H. rewrite Forall_forall in H |- *.
    intros m Hm. now destruct (H m Hm). }
  pose proof (exact_row_blocks H) as Hb.
  unfold hstack. rewrite Hh, row_sums_hstack_from.
  rewrite <- (map_map (@InnerMatrix T DType) row_sums). split.
  - apply reduce_row_of_blocks; [| exact Hb].
    intros C. apply map_eq_nil in C. contradiction.
  - apply (@Good_big (list (option T)) vsum (repeat None h) (exact_line h)
                     (exact_line_unit h) (@exact_line_vsum h)).
    rewrite Forall_map. rewrite Forall_forall in Hb |- *.
    intros b Hin. now apply exact_row_sums, Hb.
Qed.

Lemma exact_line_entries (n : nat) (l : list (option T)) :
  exact_line n l -> Forall (exact d) l.
Proof. now intros [_ H]. Qed.

Lemma Forall_exact_concat (ls : list (list (option T))) :
  Forall (fun l => exists n, exact_line n l) ls -> Forall (exact d) (concat ls).
Proof.
  intros H. apply Forall_concat. rewrite Forall_forall in H |- *.
  intros l Hl. destruct (H l Hl) as [n E]. now apply (exact_line_entries E).
Qed.

(** Row-wise reduction of the grid: the rows of blocks are reduced one by
    one; put end to end, their results are the row sums of the whole
    matrix. *)
Lemma reduce_rowwise_blocks (heights widths : list nat)
      (ms : list (list (Matrix T DType))) :
  partitioned heights widths ms -> widths <> [] ->
  Forall (Forall (@exact_matrix)) ms ->
  mapM (reduce_line sched
          (fun ax _ x => _reduce_axis gb op d x ax false d)
          (fun _ _ x => _reduce_axis_combine gb op x false d) [1] false)
       (map (map (@InnerMatrix T DType)) ms)
  = Ok (map (fun row => vector_part (map (reduce_entries op) (hstack row))) ms) /\
  map (option_map (cast gb d))
      (map (reduce_entries op) (concat (map (@hstack T DType) ms)))
  = concat (map (fun row => map (reduce_entries op) (hstack row)) ms).
Proof.
  intros P Hw E.
  assert (R : Forall (fun row => exists h, row <> [] /\ exact_row h row) ms).
  { clear - P Hw E. induction P as [| h row heights ms Hrow _ IH].
    - constructor.
    - inversion E as [| ? ? Erow Ems]; subst. constructor; [| now apply IH].
      exists h. split.
      + destruct Hrow; [now contradiction Hw | discriminate].
      + clear - Hrow Erow. unfold exact_row.
        induction Hrow as [| w m ws row [Hm _] _ IHrow]; constructor;
          inversion Erow; subst; auto. }
  split.
  - rewrite mapM_map. apply mapM_ok.
    rewrite Forall_forall in R |- *. intros row Hrow.
    destruct (R row Hrow) as [h [Hne Hex]].
    now apply (reduce_row_hstack Hne Hex).
  - replace (map (reduce_entries op) (concat (map (@hstack T DType) ms)))
      with (concat (map (fun row => map (reduce_entries op) (hstack row)) ms))
      by now rewrite concat_map, map_map.
    apply map_cast_exact, Forall_exact_concat.
    rewrite Forall_map. rewrite Forall_forall in R |- *. intros row Hrow.
    destruct (R row Hrow) as [h [Hne Hex]]. exists h.
    now apply (reduce_row_hstack Hne Hex).
Qed.

(** *** Column sums of a grid of blocks *)

Definition colsums (w : nat) (rows : list (list (option T))) : list (option T) :=
  map (reduce_entries op) (transpose w rows).

Lemma column_app (j : nat) (X Y : list (list (option T))) :
  column j (X ++ Y) = column j X ++ column j Y.
Proof. unfold column. apply map_app. Qed.

Lemma zipw_map_map (A B C D : Type) (f : B -> C -> D) (g : A -> B) (h : A -> C)
      (l : list A) :
  zipw f (map g l) (map h l) = map (fun x => f (g x) (h x)) l.
Proof. induction l as [| a l IH]; simpl; [reflexivity | now rewrite IH]. Qed.

Lemma map_const_seq (A : Type) (a : A) (s n : nat) :
  map (fun _ => a) (seq s n) = repeat a n.
Proof.
  revert s. induction n as [| n IH]; intros s; simpl; [reflexivity |].
  now rewrite IH.
Qed.

Lemma seq_from (a n : nat) : seq a n = map (fun j => a + j) (seq 0 n).
Proof.
  revert a. induction n as [| n IH]; intros a; simpl; [reflexivity |].
  rewrite Nat.add_0_r. f_equal.
  rewrite (IH (S a)), <- (seq_shift n 0), map_map.
  apply map_ext. intros j. lia.
Qed.

Lemma colsums_app (w : nat) (X Y : list (list (option T))) :
  colsums w (X ++ Y) = vsum (colsums w X) (colsums w Y).
Proof.
  unfold colsums, transpose, vsum. rewrite !map_map, zipw_map_map.
  apply map_ext. intros j. now rewrite column_app, reduce_entries_app.
Qed.

Lemma colsums_nil (w : nat) : colsums w [] = repeat None w.
Proof.
  unfold colsums, transpose. rewrite map_map. simpl. apply map_const_seq.
Qed.

Lemma colsums_concat (w : nat) (Rs : list (list (list (option T)))) :
  colsums w (concat Rs) = big vsum (repeat None w) (map (colsums w) Rs).
Proof.
  induction Rs as [| R Rs IH]; simpl; [apply colsums_nil |].
  now rewrite colsums_app, IH.
Qed.

Lemma column_zipw_app_left (w j : nat) (X Y : list (list (option T))) :
  Forall (fun r => length r = w) X -> length X = length Y -> j < w ->
  column j (zipw (@app (option T)) X Y) = column j X.
Proof.
  intros H. revert Y. unfold column.
  induction H as [| x X Hx _ IH]; intros [| y Y] HL Hj; simpl in *;
    try reflexivity; try discriminate.
  rewrite app_nth1 by lia. f_equal. apply IH; [congruence | exact Hj].
Qed.

Lemma column_zipw_app_right (w j : nat) (X Y : list (list (option T))) :
  Forall (fun r => length r = w) X -> length X = length Y ->
  column (w + j) (zipw (@app (option T)) X Y) = column j Y.
Proof.
  intros H. revert Y. unfold column.
  induction H as [| x X Hx _ IH]; intros [| y Y] HL; simpl in *;
    try reflexivity; try discriminate.
  rewrite <- Hx at 1. rewrite app_nth2_plus. f_equal. apply IH. congruence.
Qed.

Lemma colsums_zipw_app (w w' : nat) (X Y : list (list (option T))) :
  Forall (fun r => length r = w) X -> length X = length Y ->
  colsums (w + w') (zipw (@app (option T)) X Y) = colsums w X ++ colsums w' Y.
Proof.
  intros H HL. unfold colsums, transpose.
  rewrite seq_app, !map_app, !map_map. f_equal.
  - apply map_ext_in. intros j Hj. apply in_seq in Hj.
    rewrite column_zipw_app_left with (w := w);
      [reflexivity | assumption | assumption | lia].
  - simpl. rewrite (seq_from w w'), map_map.
    apply map_ext. intros j.
    rewrite column_zipw_app_right; [reflexivity | assumption | assumption].
Qed.

Lemma Forall2_nrows (h : nat) (ws : list nat) (row : list (Matrix T DType)) :
  Forall2 (block_shape h) ws row -> Forall (fun m => nrows m = h) row.
Proof.
  induction 1 as [| w m ws row [Hm _] _ IH]; constructor; assumption.
Qed.

Lemma colsums_hstack_from (h : nat) (ws : list nat) (row : list (Matrix T DType)) :
  Forall2 (block_shape h) ws row ->
  colsums (list_sum ws) (hstack_from h row)
  = concat (map (fun m => colsums (m_ncols m) (m_rows m)) row).
Proof.
  induction 1 as [| w m ws row [Hh [Hw Hr]] Hrow IH]; simpl.
  - reflexivity.
  - fold (hstack_from h row). rewrite colsums_zipw_app.
    + now rewrite IH, Hw.
    + exact Hr.
    + rewrite (length_hstack_from (Forall2_nrows Hrow)). exact Hh.
Qed.

(** The columns of a grid of blocks. *)
Lemma zipw_cons_map (A B : Type) (f : A -> B) (row : list A) (cols : list (list A)) :
  zipw cons (map f row) (map (map f) cols) = map (map f) (zipw cons row cols).
Proof.
  revert cols. induction row as [| a row IH]; intros [| c cols]; simpl;
    try reflexivity. now rewrite IH.
Qed.

Lemma block_columns_map (A B : Type) (f : A -> B) (n : nat) (g : list (list A)) :
  block_columns n (map (map f) g) = map (map f) (block_columns n g).
Proof.
  unfold block_columns. induction g as [| row g IH]; simpl.
  - now rewrite map_repeat_const.
  - now rewrite IH, zipw_cons_map.
Qed.

Lemma Forall2_zipw_cons (A B : Type) (P : B -> A -> Prop) (ws : list B)
      (row : list A) (cols : list (list A)) :
  Forall2 P ws row ->
  Forall2 (fun w col => Forall (P w) col) ws cols ->
  Forall2 (fun w col => col <> [] /\ Forall (P w) col) ws (zipw cons row cols).
Proof.
  intros H. revert cols.
  induction H as [| w a ws row Ha _ IH]; intros cols Hc; inversion Hc; subst;
    simpl; constructor.
  - split; [discriminate | now constructor].
  - now apply IH.
Qed.

Lemma Forall2_weaken (A B : Type) (P Q : A -> B -> Prop) (l : list A) (l' : list B) :
  (forall a b, P a b -> Q a b) -> Forall2 P l l' -> Forall2 Q l l'.
Proof. intros H. induction 1; constructor; auto. Qed.

Lemma block_columns_shape (A : Type) (P : nat -> A -> Prop) (ws : list nat)
      (g : list (list A)) :
  Forall (fun row => Forall2 P ws row) g ->
  Forall2 (fun w col => Forall (P w) col) ws (block_columns (length ws) g).
Proof.
  unfold block_columns. induction 1 as [| row g Hrow _ IH]; simpl.
  - clear. induction ws as [| w ws IH]; simpl; constructor; auto.
  - eapply Forall2_weaken; [| apply (Forall2_zipw_cons Hrow IH)].
    now intros w col [_ H].
Qed.

Lemma block_columns_nonempty (A : Type) (P : nat -> A -> Prop) (ws : list nat)
      (g : list (list A)) :
  g <> [] -> Forall (fun row => Forall2 P ws row) g ->
  Forall2 (fun w col => col <> [] /\ Forall (P w) col) ws
          (block_columns (length ws) g).
Proof.
  intros Hne H. destruct H as [| row g Hrow Hg]; [contradiction |].
  unfold block_columns. simpl.
  apply (Forall2_zipw_cons Hrow). exact (block_columns_shape Hg).
Qed.

Lemma mapM_Forall2 (A B W : Type) (f : A -> result B) (h : W -> A -> B)
      (ws : list W) (l : list A) :
  Forall2 (fun w a => f a = Ok (h w a)) ws l -> mapM f l = Ok (zipw h ws l).
Proof.
  induction 1 as [| w a ws l H _ IH]; [reflexivity |].
  rewrite mapM_cons, H, IH. reflexivity.
Qed.

(** Column by column, then end to end, is row by row over the whole
    width. *)
Lemma vsum_app (a1 a2 b1 b2 : list (option T)) :
  length a1 = length b1 ->
  vsum (a1 ++ a2) (b1 ++ b2) = vsum a1 b1 ++ vsum a2 b2.
Proof.
  unfold vsum. revert b1.
  induction a1 as [| x a1 IH]; intros [| y b1] H; simpl in *;
    try reflexivity; try discriminate.
  f_equal. apply IH. congruence.
Qed.

Lemma concat_zipw_vsum (row R : list (list (option T))) :
  Forall2 (fun c r => length c = length r) row R ->
  concat (zipw vsum row R) = vsum (concat row) (concat R).
Proof.
  induction 1 as [| c r row R H _ IH]; simpl; [reflexivity |].
  now rewrite vsum_app, IH.
Qed.

Lemma length_big_vsum (w : nat) (col : list (list (option T))) :
  Forall (fun c => length c = w) col -> length (big vsum (repeat None w) col) = w.
Proof.
  induction 1 as [| c col Hc _ IH]; simpl; [apply repeat_length |].
  unfold vsum at 1. rewrite length_zipw; congruence.
Qed.

Lemma concat_repeat_None (ws : list nat) :
  concat (map (fun w => repeat (@None T) w) ws) = repeat None (list_sum ws).
Proof.
  induction ws as [| w ws IH]; simpl; [reflexivity |].
  now rewrite IH, repeat_app.
Qed.

Lemma concat_columns (ws : list nat) (C : list (list (list (option T)))) :
  Forall (fun row => Forall2 (fun w c => length c = w) ws row) C ->
  concat (zipw (fun w col => big vsum (repeat None w) col) ws
               (block_columns (length ws) C))
  = big vsum (repeat None (list_sum ws)) (map (@concat (option T)) C).
Proof.
  induction 1 as [| row C Hrow HC IH].
  - unfold block_columns. simpl. rewrite <- concat_repeat_None. f_equal.
    clear. induction ws as [| w ws IH]; simpl; [reflexivity | now rewrite IH].
  - pose proof (block_columns_shape HC) as S.
    unfold block_columns in *. simpl.
    set (cols := fold_right (zipw cons) (repeat [] (length ws)) C) in *.
    rewrite <- IH. rewrite <- concat_zipw_vsum.
    + f_equal. clear IH HC. revert row Hrow.
      induction S as [| w col ws cols Hcol _ IHS]; intros row Hrow;
        inversion Hrow; subst; simpl; [reflexivity |].
      f_equal. now apply IHS.
    + clear IH HC. revert row Hrow.
      induction S as [| w col ws cols Hcol _ IHS]; intros row Hrow;
        inversion Hrow; subst; simpl; constructor.
      * now rewrite length_big_vsum.
      * now apply IHS.
Qed.

Lemma Forall_zipw_app (P : option T -> Prop) (X Y : list (list (option T))) :
  Forall (Forall P) X -> Forall (Forall P) Y ->
  Forall (Forall P) (zipw (@app (option T)) X Y).
Proof.
  intros H. revert Y. induction H as [| x X Hx _ IH]; intros Y HY; simpl;
    [constructor |].
  destruct HY as [| y Y Hy HY]; constructor.
  - apply Forall_app. now split.
  - now apply IH.
Qed.

Lemma exact_hstack (row : list (Matrix T DType)) :
  Forall (@exact_matrix) row -> Forall (Forall (exact d)) (hstack row).
Proof.
  unfold hstack. generalize (height row) as h.
  intros h H. induction H as [| m row Hm _ IH]; simpl.
  - clear. induction h; simpl; constructor; auto.
  - now apply Forall_zipw_app.
Qed.

Lemma exact_assembled (ms : list (list (Matrix T DType))) :
  Forall (Forall (@exact_matrix)) ms ->
  Forall (Forall (exact d)) (concat (map (@hstack T DType) ms)).
Proof.
  intros H. apply Forall_concat. rewrite Forall_map.
  rewrite Forall_forall in H |- *. intros row Hrow.
  now apply exact_hstack, H.
Qed.

Lemma exact_colsums (w : nat) (rows : list (list (option T))) :
  Forall (Forall (exact d)) rows -> Forall (exact d) (colsums w rows).
Proof.
  intros H. unfold colsums, transpose. rewrite !Forall_map, Forall_forall.
  intros j _. now apply exact_reduce_entries, exact_column.
Qed.

Lemma length_colsums (w : nat) (rows : list (list (option T))) :
  length (colsums w rows) = w.
Proof. unfold colsums, transpose. now rewrite !length_map, length_seq. Qed.

Lemma partitioned_columns (heights widths : list nat)
      (ms : list (list (Matrix T DType))) :
  partitioned heights widths ms -> Forall (Forall (@exact_matrix)) ms ->
  Forall (fun row => Forall2 column_block widths row)
         (map (map (@InnerMatrix T DType)) ms) /\
  Forall (fun row => Forall2 (fun w c => length c = w) widths row)
         (map (map column_sums) (map (map (@InnerMatrix T DType)) ms)).
Proof.
  induction 1 as [| h row heights ms Hrow _ IH]; intros E.
  - split; constructor.
  - inversion E as [| ? ? Erow Ems]; subst.
    destruct (IH Ems) as [IH1 IH2]. split; simpl; constructor; try assumption.
    + clear - Hrow Erow.
      induction Hrow as [| w m ws row [_ [Hw _]] _ IHrow]; simpl; constructor;
        inversion Erow; subst; [| now apply IHrow].
      exists m. auto.
    + clear - Hrow.
      induction Hrow as [| w m ws row [_ [Hw _]] _ IHrow]; simpl; constructor;
        [| exact IHrow].
      simpl. fold (colsums (m_ncols m) (m_rows m)). now rewrite length_colsums.
Qed.

Lemma width_partitioned (heights widths : list nat)
      (ms : list (list (Matrix T DType))) :
  partitioned heights widths ms -> heights <> [] ->
  width (map (map (@InnerMatrix T DType)) ms) = length widths.
Proof.
  intros P Hne. destruct P as [| h row heights ms Hrow _]; [contradiction |].
  unfold width. simpl. rewrite length_map. symmetry.
  eapply Forall2_length; eauto.
Qed.

Lemma colsums_assembled (heights widths : list nat)
      (ms : list (list (Matrix T DType))) :
  partitioned heights widths ms -> widths <> [] ->
  colsums (list_sum widths) (concat (map (@hstack T DType) ms))
  = big vsum (repeat None (list_sum widths))
        (map (@concat (option T))
             (map (map column_sums) (map (map (@InnerMatrix T DType)) ms))).
Proof.
  intros P Hw. rewrite colsums_concat. f_equal.
  rewrite !map_map.
  induction P as [| h row heights ms Hrow _ IH]; simpl; [reflexivity |].
  rewrite IH. f_equal.
  unfold hstack. rewrite (height_of_row (h := h)).
  - rewrite map_map. exact (colsums_hstack_from Hrow).
  - destruct Hrow; [now contradiction Hw | discriminate].
  - exact (Forall2_nrows Hrow).
Qed.

(** Column-wise reduction of the grid: the columns of blocks are reduced
    one by one; put end to end, their results are the column sums of the
    whole matrix. *)
Lemma reduce_columnwise_blocks (heights widths : list nat)
      (ms : list (list (Matrix T DType))) :
  partitioned heights widths ms -> heights <> [] -> widths <> [] ->
  Forall (Forall (@exact_matrix)) ms ->
  exists parts : list (list (option T)),
    mapM (reduce_line sched
            (fun ax _ x => _reduce_axis gb op d x ax false d)
            (fun _ _ x => _reduce_axis_combine gb op x false d) [0] false)
         (block_columns (width (map (map (@InnerMatrix T DType)) ms))
                        (map (map (@InnerMatrix T DType)) ms))
    = Ok (map vector_part parts) /\
    concat parts
    = map (option_map (cast gb d))
          (colsums (list_sum widths) (concat (map (@hstack T DType) ms))).
Proof.
  intros P Hh Hw E.
  pose proof (width_partitioned P Hh) as W.
  set (g := map (map (@InnerMatrix T DType)) ms) in *.
  destruct (partitioned_columns P E) as [B L]. fold g in B, L.
  exists (zipw (fun w col => big vsum (repeat None w) col) widths
               (block_columns (length widths) (map (map column_sums) g))).
  split.
  - rewrite W, block_columns_map, map_zipw.
    assert (Hg : g <> []).
    { unfold g. destruct P; [contradiction | discriminate]. }
    pose proof (block_columns_nonempty Hg B) as S.
    assert (M : mapM (reduce_line sched
                        (fun ax _ x => _reduce_axis gb op d x ax false d)
                        (fun _ _ x => _reduce_axis_combine gb op x false d)
                        [0] false)
                     (block_columns (length widths) g)
                = Ok (zipw (fun w col =>
                              vector_part (big vsum (repeat None w)
                                               (map column_sums col)))
                           widths (block_columns (length widths) g))).
    { apply mapM_Forall2. eapply Forall2_weaken; [| exact S].
      intros w col [Hne Hcol]. now apply reduce_column_of_blocks. }
    rewrite M. f_equal. clear.
    generalize (block_columns (length widths) g) as cols.
    induction widths as [| w ws IH]; intros [| col cols]; simpl;
      try reflexivity. now rewrite IH.
  - rewrite (concat_columns L). unfold g.
    rewrite <- (colsums_assembled P Hw).
    symmetry. apply map_cast_exact, exact_colsums, exact_assembled, E.
Qed.

Lemma ncols_of_row (h : nat) (widths : list nat) (row : list (Matrix T DType)) :
  Forall2 (block_shape h) widths row ->
  map (@m_ncols T DType) row = widths.
Proof.
  induction 1 as [| w m ws ms' [_ [Hw _]] _ IH]; [reflexivity |].
  simpl. now rewrite Hw, IH.
Qed.

(** [new] on the four reductions. *)
Lemma new_reduce (bs : list (Inner T DType)) (pmeta meta : GbObject T DType)
      (dtype : option DType) (d' : DType) :
  dtype_of (meta_new gb meta dtype None) = d' ->
  GbDelayed_new gb sched
    (mkGbDelayed (mkCollection (Array1 bs) pmeta) "reduce"
                 [Const (ArgMonoid op)] [] meta) dtype None
  = (delayed <- (r <- reduce_line sched
                        (fun _ _ x => _reduce gb op d' x false d')
                        (fun _ _ x => _reduce_combine gb op x false d')
                        [0] false bs ;;
                 Ok (Array0 r)) ;;
     Ok (mkCollection delayed (meta_new gb meta dtype None))).
Proof. intros <-. reflexivity. Qed.

Lemma new_reduce_scalar (g : list (list (Inner T DType)))
      (pmeta meta : GbObject T DType) (dtype : option DType) (d' : DType) :
  dtype_of (meta_new gb meta dtype None) = d' ->
  GbDelayed_new gb sched
    (mkGbDelayed (mkCollection (Array2 g) pmeta) "reduce_scalar"
                 [Const (ArgMonoid op)] [] meta) dtype None
  = (delayed <- (r <- reduce_grid sched
                        (fun _ _ x => _reduce_scalar gb op d' x false d')
                        (fun _ _ x => _reduce_combine gb op x false d')
                        [0; 1] false g ;;
                 Ok (Array0 r)) ;;
     Ok (mkCollection delayed (meta_new gb meta dtype None))).
Proof. intros <-. reflexivity. Qed.

Lemma new_reduce_rowwise (g : list (list (Inner T DType)))
      (pmeta meta : GbObject T DType) (dtype : option DType) (d' : DType) :
  dtype_of (meta_new gb meta dtype None) = d' ->
  GbDelayed_new gb sched
    (mkGbDelayed (mkCollection (Array2 g) pmeta) "reduce_rowwise"
                 [Const (ArgMonoid op)] [] meta) dtype None
  = (delayed <- (rs <- mapM (reduce_line sched
                               (fun ax _ x => _reduce_axis gb op d' x ax false d')
                               (fun _ _ x => _reduce_axis_combine gb op x false d')
                               [1] false) g ;;
                 Ok (Array1 rs)) ;;
     Ok (mkCollection delayed (meta_new gb meta dtype None))).
Proof. intros <-. reflexivity. Qed.

Lemma new_reduce_columnwise (g : list (list (Inner T DType)))
      (pmeta meta : GbObject T DType) (dtype : option DType) (d' : DType) :
  dtype_of (meta_new gb meta dtype None) = d' ->
  GbDelayed_new gb sched
    (mkGbDelayed (mkCollection (Array2 g) pmeta) "reduce_columnwise"
                 [Const (ArgMonoid op)] [] meta) dtype None
  = (delayed <- (rs <- mapM (reduce_line sched
                               (fun ax _ x => _reduce_axis gb op d' x ax false d')
                               (fun _ _ x => _reduce_axis_combine gb op x false d')
                               [0] false) (block_columns (width g) g) ;;
                 Ok (Array1 rs)) ;;
     Ok (mkCollection delayed (meta_new gb meta dtype None))).
Proof. intros <-. reflexivity. Qed.

Lemma dtype_of_meta_new (meta : GbObject T DType) (dtype : option DType) (d' : DType) :
  dtype_of (meta_new gb meta dtype None) = d' ->
  forall delayed,
    dtype_of (c_meta (mkCollection delayed (meta_new gb meta dtype None))) = d'.
Proof. now intros H delayed. Qed.

(** C1.  Let [op] be an associative and commutative monoid with
    identity, and [d] the dtype of the materialization, such that [op]
    stays within the values of [d] and the stored values of the operand
    are values of [d] (no value is changed by a conversion).  Then, for
    every grouping that the scheduler chooses:
    - [reduce] of a vector partitioned into one block or more, and
    - [reduce_scalar], [reduce_rowwise] and [reduce_columnwise] of a matrix
      partitioned into a grid of blocks
    materialize, without error, to the scalar or vector that the same
    reduction with the same monoid gives on the unpartitioned object. *)
Theorem partitioned_reduction :
  forall (dtype : option DType) (meta : GbObject T DType),
    dtype_of (meta_new gb meta dtype None) = d ->
    (forall (vs : list (Vector T DType)) (pmeta : GbObject T DType),
        vs <> [] -> Forall (@exact_vector) vs ->
        exists r,
          reduce_unpartitioned gb "reduce" op
            (mkCollection (Array1 (map (@InnerVector T DType) vs)) pmeta) (Some d)
          = Ok r /\
          reduce_partitioned gb sched "reduce" op
            (mkCollection (Array1 (map (@InnerVector T DType) vs)) pmeta) meta dtype
          = Ok r) /\
    (forall (heights widths : list nat) (ms : list (list (Matrix T DType)))
            (pmeta : GbObject T DType) (name : string),
        partitioned heights widths ms -> heights <> [] -> widths <> [] ->
        Forall (Forall (@exact_matrix)) ms ->
        In name ["reduce_scalar"; "reduce_rowwise"; "reduce_columnwise"]%string ->
        exists r,
          reduce_unpartitioned gb name op
            (mkCollection (Array2 (map (map (@InnerMatrix T DType)) ms)) pmeta)
            (Some d)
          = Ok r /\
          reduce_partitioned gb sched name op
            (mkCollection (Array2 (map (map (@InnerMatrix T DType)) ms)) pmeta)
            meta dtype
          = Ok r).
Proof.
  intros dtype meta Hd. split.
  - intros vs pmeta Hne E.
    eexists. split.
    + unfold reduce_unpartitioned. rewrite compute_vector_blocks. reflexivity.
    + unfold reduce_partitioned. rewrite (new_reduce _ _ _ _ Hd).
      rewrite reduce_vector_blocks.
      * cbn [bind]. unfold compute. cbn [c_delayed value_of].
        unfold Gb_reduce. cbn [String.eqb Ascii.eqb Bool.eqb andb].
        unfold Vector_reduce, scalar_part. cbn [pick v_dtype v_entries].
        rewrite values_of_vector_blocks. simpl. do 4 f_equal.
        symmetry. apply exact_fold, exact_present, Forall_concat.
        now rewrite Forall_map.
      * intros C. apply map_eq_nil in C. contradiction.
      * rewrite Forall_map. rewrite Forall_forall in E |- *.
        intros v Hv. exists v. auto.
  - intros heights widths ms pmeta name P Hh Hw E Hname.
    assert (Hg : map (map (@InnerMatrix T DType)) ms <> []).
    { destruct P; [contradiction | discriminate]. }
    unfold reduce_unpartitioned. rewrite compute_matrix_blocks. cbn [bind].
    unfold reduce_partitioned.
    simpl in Hname. destruct Hname as [<- | [<- | [<- | []]]].
    + eexists. split; [reflexivity |].
      rewrite (new_reduce_scalar _ _ _ _ Hd).
      rewrite reduce_matrix_blocks.
      * cbn [bind]. unfold compute. cbn [c_delayed value_of].
        unfold Matrix_reduce_scalar, scalar_part. cbn [pick m_dtype m_rows].
        rewrite (values_of_matrix_blocks P). simpl. do 4 f_equal.
        symmetry. apply exact_fold, exact_present, Forall_concat.
        now apply exact_assembled.
      * exact Hg.
      * rewrite <- concat_map, Forall_map. apply Forall_concat.
        rewrite Forall_forall in E |- *. intros row Hrow.
        specialize (E row Hrow). rewrite Forall_forall in E |- *.
        intros m Hin. exists m. auto.
    + eexists. split; [reflexivity |].
      rewrite (new_reduce_rowwise _ _ _ _ Hd).
      destruct (reduce_rowwise_blocks P Hw E) as [R C].
      rewrite R. cbn [bind].
      rewrite <- (map_map (fun row => map (reduce_entries op) (hstack row))
                          vector_part).
      unfold vector_part at 1.
      rewrite <- (map_map (mkVector d) (@InnerVector T DType)).
      rewrite compute_vector_blocks, Hd.
      unfold Matrix_reduce_rowwise. cbn [pick m_dtype m_rows]. do 3 f_equal.
      rewrite !map_map. cbn [v_entries]. rewrite <- C. now rewrite map_map.
    + eexists. split; [reflexivity |].
      rewrite (new_reduce_columnwise _ _ _ _ Hd).
      destruct (reduce_columnwise_blocks P Hh Hw E) as [parts [R C]].
      rewrite R. cbn [bind].
      unfold vector_part.
      rewrite <- (map_map (mkVector d) (@InnerVector T DType)).
      rewrite compute_vector_blocks, Hd.
      unfold Matrix_reduce_columnwise. cbn [pick m_dtype m_rows m_ncols].
      do 3 f_equal.
      rewrite !map_map. cbn [v_entries]. rewrite map_id, C.
      unfold colsums. rewrite map_map.
      destruct P as [| h row heights ms Hrow _]; [contradiction |].
      cbn [hd map]. now rewrite (ncols_of_row Hrow).
Qed.


(** ** Reductions written into a target *)

Lemma dtype_of_written (c x m : GbObject T DType) :
  Gb_update gb c x = Ok m -> dtype_of (clear m) = dtype_of c.
Proof.
  unfold Gb_update.
  destruct c as [s | u | a], x as [s' | v | b]; try discriminate.
  - intros [= <-]. reflexivity.
  - destruct (Nat.eqb (size u) (size v)); [| discriminate].
    intros [= <-]. reflexivity.
  - destruct (Nat.eqb (nrows a) (nrows b) && Nat.eqb (m_ncols a) (m_ncols b));
      [| discriminate].
    intros [= <-]. reflexivity.
Qed.

(** [_update] on the four reductions. *)
Lemma update_reduce (bs : list (Inner T DType)) (pmeta emeta meta : GbObject T DType)
      (target : Collection T DType) (mask : option (Mask T DType))
      (accum : option (T -> T -> T)) (replace : option bool) (d' : DType) :
  Gb_update gb (c_meta target) emeta = Ok meta ->
  is_scalar meta || Nat.eqb (nvals_of meta) 0 = true ->
  dtype_of (clear meta) = d' ->
  GbDelayed__update gb sched
    (mkGbDelayed (mkCollection (Array1 bs) pmeta) "reduce"
                 [Const (ArgMonoid op)] [] emeta) target mask accum replace
  = (delayed <- (r <- reduce_line sched
                        (fun _ _ x => _reduce gb op d' x false d')
                        (fun _ _ x => _reduce_combine gb op x false d')
                        [0] false bs ;;
                 Ok (Array0 r)) ;;
     delayed <- match accum with
                | Some f => accumulate (@_reduce_accum T DType gb) target delayed f
                | None => Ok delayed
                end ;;
     Ok (mkCollection delayed (clear meta))).
Proof.
  intros U A <-. unfold GbDelayed__update. cbn [gd_meta].
  rewrite U. cbn [bind]. rewrite A. reflexivity.
Qed.

Lemma update_reduce_scalar (g : list (list (Inner T DType)))
      (pmeta emeta meta : GbObject T DType)
      (target : Collection T DType) (mask : option (Mask T DType))
      (accum : option (T -> T -> T)) (replace : option bool) (d' : DType) :
  Gb_update gb (c_meta target) emeta = Ok meta ->
  is_scalar meta || Nat.eqb (nvals_of meta) 0 = true ->
  dtype_of (clear meta) = d' ->
  GbDelayed__update gb sched
    (mkGbDelayed (mkCollection (Array2 g) pmeta) "reduce_scalar"
                 [Const (ArgMonoid op)] [] emeta) target mask accum replace
  = (delayed <- (r <- reduce_grid sched
                        (fun _ _ x => _reduce_scalar gb op d' x false d')
                        (fun _ _ x => _reduce_combine gb op x false d')
                        [0; 1] false g ;;
                 Ok (Array0 r)) ;;
     delayed <- match accum with
                | Some f => accumulate (@_reduce_accum T DType gb) target delayed f
                | None => Ok delayed
                end ;;
     Ok (mkCollection delayed (clear meta))).
Proof.
  intros U A <-. unfold GbDelayed__update. cbn [gd_meta].
  rewrite U. cbn [bind]. rewrite A. reflexivity.
Qed.

Lemma update_reduce_rowwise (g : list (list (Inner T DType)))
      (pmeta emeta meta : GbObject T DType)
      (target : Collection T DType) (mask : option (Mask T DType))
      (replace : option bool) (d' : DType) :
  Gb_update gb (c_meta target) emeta = Ok meta ->
  is_scalar meta || Nat.eqb (nvals_of meta) 0 = true ->
  dtype_of (clear meta) = d' ->
  GbDelayed__update gb sched
    (mkGbDelayed (mkCollection (Array2 g) pmeta) "reduce_rowwise"
                 [Const (ArgMonoid op)] [] emeta) target mask None replace
  = (delayed <- (rs <- mapM (reduce_line sched
                               (fun ax _ x => _reduce_axis gb op d' x ax false d')
                               (fun _ _ x => _reduce_axis_combine gb op x false d')
                               [1] false) g ;;
                 Ok (Array1 rs)) ;;
     Ok (mkCollection delayed (clear meta))).
Proof.
  intros U A <-. unfold GbDelayed__update. cbn [gd_meta].
  rewrite U. cbn [bind]. rewrite A. cbn [assert bind method_name].
  cbn [String.eqb Ascii.eqb Bool.eqb andb].
  match goal with
  | |- context [GbDelayed__reduce_along_axis ?a ?b ?c ?e ?f] =>
      set (X := GbDelayed__reduce_along_axis a b c e f)
  end.
  transitivity (delayed <- X ;; Ok (mkCollection delayed (clear meta)));
    [destruct X; reflexivity | reflexivity].
Qed.

Lemma update_reduce_columnwise (g : list (list (Inner T DType)))
      (pmeta emeta meta : GbObject T DType)
      (target : Collection T DType) (mask : option (Mask T DType))
      (replace : option bool) (d' : DType) :
  Gb_update gb (c_meta target) emeta = Ok meta ->
  is_scalar meta || Nat.eqb (nvals_of meta) 0 = true ->
  dtype_of (clear meta) = d' ->
  GbDelayed__update gb sched
    (mkGbDelayed (mkCollection (Array2 g) pmeta) "reduce_columnwise"
                 [Const (ArgMonoid op)] [] emeta) target mask None replace
  = (delayed <- (rs <- mapM (reduce_line sched
                               (fun ax _ x => _reduce_axis gb op d' x ax false d')
                               (fun _ _ x => _reduce_axis_combine gb op x false d')
                               [0] false) (block_columns (width g) g) ;;
                 Ok (Array1 rs)) ;;
     Ok (mkCollection delayed (clear meta))).
Proof.
  intros U A <-. unfold GbDelayed__update. cbn [gd_meta].
  rewrite U. cbn [bind]. rewrite A. cbn [assert bind method_name].
  cbn [String.eqb Ascii.eqb Bool.eqb andb].
  match goal with
  | |- context [GbDelayed__reduce_along_axis ?a ?b ?c ?e ?f] =>
      set (X := GbDelayed__reduce_along_axis a b c e f)
  end.
  transitivity (delayed <- X ;; Ok (mkCollection delayed (clear meta)));
    [destruct X; reflexivity | reflexivity].
Qed.

(** X18.  A reduction written into a target, [C << A.reduce_*(op)]: when the
    placeholder of the target accepts the write and [d] is its dtype,
    the target then materializes, for every grouping that the scheduler
    chooses, to the scalar or vector that the same reduction gives on
    the unpartitioned operand, materialized at [d].  With [accum], a
    scalar target holds the accumulation of its prior value with that
    scalar.  The monoid stays within [d] and the stored values of the
    operand are values of [d]. *)
Theorem written_reduction :
  forall (target : Collection T DType) (emeta meta : GbObject T DType)
         (mask : option (Mask T DType)) (replace : option bool),
    Gb_update gb (c_meta target) emeta = Ok meta ->
    is_scalar meta || Nat.eqb (nvals_of meta) 0 = true ->
    dtype_of (c_meta target) = d ->
    (forall (vs : list (Vector T DType)) (pmeta : GbObject T DType),
        vs <> [] -> Forall (@exact_vector) vs ->
        exists r : Scalar T DType,
          reduce_unpartitioned gb "reduce" op
            (mkCollection (Array1 (map (@InnerVector T DType) vs)) pmeta) (Some d)
          = Ok (GbScalar r) /\
          (c <- GbDelayed__update gb sched
                  (mkGbDelayed
                     (mkCollection (Array1 (map (@InnerVector T DType) vs)) pmeta)
                     "reduce" [Const (ArgMonoid op)] [] emeta)
                  target mask None replace ;;
           compute c) = Ok (GbScalar r) /\
          (forall (accum : T -> T -> T) (o : Scalar T DType),
              c_delayed target = Array0 (InnerScalar o) ->
              GbDelayed__update gb sched
                (mkGbDelayed
                   (mkCollection (Array1 (map (@InnerVector T DType) vs)) pmeta)
                   "reduce" [Const (ArgMonoid op)] [] emeta)
                target mask (Some accum) replace
              = Ok (mkCollection
                      (Array0 (InnerScalar
                                 (mkScalar (s_dtype o)
                                    (combined accum (s_dtype o)
                                       (option_map (cast gb (s_dtype o)) (s_value o))
                                       (s_value r)))))
                      (clear meta)))) /\
    (forall (heights widths : list nat) (ms : list (list (Matrix T DType)))
            (pmeta : GbObject T DType) (name : string),
        partitioned heights widths ms -> heights <> [] -> widths <> [] ->
        Forall (Forall (@exact_matrix)) ms ->
        In name ["reduce_scalar"; "reduce_rowwise"; "reduce_columnwise"]%string ->
        exists r,
          reduce_unpartitioned gb name op
            (mkCollection (Array2 (map (map (@InnerMatrix T DType)) ms)) pmeta)
            (Some d)
          = Ok r /\
          (c <- GbDelayed__update gb sched
                  (mkGbDelayed
                     (mkCollection (Array2 (map (map (@InnerMatrix T DType)) ms))
                                   pmeta)
                     name [Const (ArgMonoid op)] [] emeta)
                  target mask None replace ;;
           compute c) = Ok r).
Proof.
  intros target emeta meta mask replace U A Hd.
  assert (Hc : dtype_of (clear meta) = d).
  { now rewrite (dtype_of_written _ _ U). }
  split.
  - intros vs pmeta Hne E.
    assert (R : reduce_line sched
                  (fun _ _ x => _reduce gb op d x false d)
                  (fun _ _ x => _reduce_combine gb op x false d) [0] false
                  (map (@InnerVector T DType) vs)
                = Ok (scalar_part
                        (fold_monoid op
                           (present (concat (map (@v_entries T DType) vs)))))).
    { rewrite reduce_vector_blocks.
      - now rewrite values_of_vector_blocks.
      - intros C. apply map_eq_nil in C. contradiction.
      - rewrite Forall_map. rewrite Forall_forall in E |- *.
        intros v Hv. exists v. auto. }
    assert (X : cast gb d (fold_monoid op
                             (present (concat (map (@v_entries T DType) vs))))
                = fold_monoid op (present (concat (map (@v_entries T DType) vs)))).
    { apply exact_fold, exact_present, Forall_concat. now rewrite Forall_map. }
    exists (mkScalar d (Some (fold_monoid op
                                (present (concat (map (@v_entries T DType) vs)))))).
    split; [| split].
    + unfold reduce_unpartitioned. rewrite compute_vector_blocks.
      cbn [bind]. unfold Gb_reduce.
      cbn [String.eqb Ascii.eqb Bool.eqb andb].
      unfold Vector_reduce. cbn [pick v_dtype v_entries]. now rewrite X.
    + rewrite (@update_reduce _ pmeta emeta meta target mask None replace d U A Hc), R. reflexivity.
    + intros accum o Ho.
      rewrite (@update_reduce _ pmeta emeta meta target mask (Some accum) replace d
                 U A Hc), R.
      cbn [bind]. unfold accumulate, elemwise. rewrite Ho.
      cbn [first_array map_blocks gather elemwise2 bind fst snd app].
      unfold scalar_part. rewrite _reduce_accum_value.
      cbn [bind s_dtype s_value option_map]. now rewrite X.
  - intros heights widths ms pmeta name P Hh Hw E Hname.
    assert (Hg : map (map (@InnerMatrix T DType)) ms <> []).
    { destruct P; [contradiction | discriminate]. }
    unfold reduce_unpartitioned. rewrite compute_matrix_blocks. cbn [bind].
    simpl in Hname. destruct Hname as [<- | [<- | [<- | []]]].
    + eexists. split; [reflexivity |].
      rewrite (@update_reduce_scalar _ pmeta emeta meta target mask None replace d
                 U A Hc).
      rewrite reduce_matrix_blocks.
      * cbn [bind]. unfold compute. cbn [c_delayed value_of].
        unfold Matrix_reduce_scalar, scalar_part. cbn [pick m_dtype m_rows].
        rewrite (values_of_matrix_blocks P). simpl. do 4 f_equal.
        symmetry. apply exact_fold, exact_present, Forall_concat.
        now apply exact_assembled.
      * exact Hg.
      * rewrite <- concat_map, Forall_map. apply Forall_concat.
        rewrite Forall_forall in E |- *. intros row Hrow.
        specialize (E row Hrow). rewrite Forall_forall in E |- *.
        intros m Hin. exists m. auto.
    + eexists. split; [reflexivity |].
      rewrite (@update_reduce_rowwise _ pmeta emeta meta target mask replace d
                 U A Hc).
      destruct (reduce_rowwise_blocks P Hw E) as [R C].
      rewrite R. cbn [bind].
      rewrite <- (map_map (fun row => map (reduce_entries op) (hstack row))
                          vector_part).
      unfold vector_part at 1.
      rewrite <- (map_map (mkVector d) (@InnerVector T DType)).
      rewrite compute_vector_blocks, Hc.
      unfold Matrix_reduce_rowwise. cbn [pick m_dtype m_rows]. do 3 f_equal.
      rewrite !map_map. cbn [v_entries]. rewrite <- C. now rewrite map_map.
    + eexists. split; [reflexivity |].
      rewrite (@update_reduce_columnwise _ pmeta emeta meta target mask replace d
                 U A Hc).
      destruct (reduce_columnwise_blocks P Hh Hw E) as [parts [R C]].
      rewrite R. cbn [bind].
      unfold vector_part.
      rewrite <- (map_map (mkVector d) (@InnerVector T DType)).
      rewrite compute_vector_blocks, Hc.
      unfold Matrix_reduce_columnwise. cbn [pick m_dtype m_rows m_ncols].
      do 3 f_equal.
      rewrite !map_map. cbn [v_entries]. rewrite map_id, C.
      unfold colsums. rewrite map_map.
      destruct P as [| h row heights ms Hrow _]; [contradiction |].
      cbn [hd map]. now rewrite (ncols_of_row Hrow).
Qed.
End Reductions.
(* ------------------------------------------------------------------ *)
(** ** Reductions in [new] and [_update] *)

(** The four reductions. *)
Definition reductions : list string :=
  ["reduce"; "reduce_scalar"; "reduce_rowwise"; "reduce_columnwise"]%string.

Lemma reduction_names (name : string) :
  name_in name reductions = true ->
  name = "reduce"%string \/ name = "reduce_scalar"%string \/
  name = "reduce_rowwise"%string \/ name = "reduce_columnwise"%string.
Proof.
  unfold reductions. rewrite !name_in_cons. simpl. rewrite orb_false_r.
  intros H.
  repeat (apply orb_true_iff in H; destruct H as [H | H]);
    apply String.eqb_eq in H; auto.
Qed.

(** X1.  [_update] of a reduction reads neither [mask] nor [replace]: the
    write is the one made with no mask and no [replace]. *)
Theorem update_of_reduction_ignores_mask :
  forall (self : GbDelayed T DType) (updating : Collection T DType)
         (mask : option (Mask T DType)) (accum : option (T -> T -> T))
         (replace : option bool),
    name_in (method_name self) reductions = true ->
    GbDelayed__update gb sched self updating mask accum replace
    = GbDelayed__update gb sched self updating None accum None.
Proof.
  intros self updating mask accum replace H.
  unfold GbDelayed__update.
  destruct (reduction_names _ H) as [E | [E | [E | E]]]; rewrite E; reflexivity.
Qed.

(** X2.  Without [accum], [_update] of a reduction does not read the blocks
    of the target: two targets with the same placeholder are written
    alike. *)
Theorem update_of_reduction_overwrites :
  forall (self : GbDelayed T DType) (updating updating' : Collection T DType)
         (mask : option (Mask T DType)) (replace : option bool),
    name_in (method_name self) reductions = true ->
    c_meta updating = c_meta updating' ->
    GbDelayed__update gb sched self updating mask None replace
    = GbDelayed__update gb sched self updating' mask None replace.
Proof.
  intros self updating updating' mask replace H M.
  unfold GbDelayed__update. rewrite M.
  destruct (reduction_names _ H) as [E | [E | [E | E]]]; rewrite E; reflexivity.
Qed.

(** *** The placeholder of the target *)

Lemma dtype_of_retype (d : DType) (x : GbObject T DType) :
  dtype_of (retype gb d x) = d.
Proof. now destruct x. Qed.

Lemma shape_of_retype (d : DType) (x : GbObject T DType) :
  shape_of (retype gb d x) = shape_of x.
Proof.
  destruct x as [s | v | m]; simpl; [reflexivity | |].
  - unfold size. simpl. now rewrite length_map.
  - unfold nrows. simpl. now rewrite length_map.
Qed.

Lemma is_scalar_retype (d : DType) (x : GbObject T DType) :
  is_scalar (retype gb d x) = is_scalar x.
Proof. now destruct x. Qed.

Lemma Gb_update_placeholder (c x m : GbObject T DType) :
  Gb_update gb c x = Ok m ->
  dtype_of m = dtype_of c /\ shape_of m = shape_of c /\
  is_scalar m = is_scalar c.
Proof.
  unfold Gb_update.
  destruct c as [s | u | a], x as [s' | v | b]; try discriminate.
  - intros [= <-]. repeat split.
  - destruct (Nat.eqb_spec (size u) (size v)) as [E | N]; [| discriminate].
    intros [= <-]. repeat split. simpl. unfold size. simpl.
    rewrite length_map. unfold size in E. now rewrite E.
  - destruct (Nat.eqb_spec (nrows a) (nrows b)) as [E | N]; [| discriminate].
    destruct (Nat.eqb_spec (m_ncols a) (m_ncols b)) as [E' | N'];
      [| discriminate].
    intros [= <-]. repeat split. simpl. unfold nrows. simpl.
    rewrite length_map. unfold nrows in E. now rewrite E, E'.
Qed.

Lemma present_repeat_None (A : Type) (n : nat) : present (repeat (@None A) n) = [].
Proof. induction n as [| n IH]; simpl; auto. Qed.

Lemma clear_placeholder (x : GbObject T DType) :
  dtype_of (clear x) = dtype_of x /\ shape_of (clear x) = shape_of x /\
  is_scalar (clear x) = is_scalar x /\ nvals_of (clear x) = 0.
Proof.
  destruct x as [s | v | m]; simpl.
  - repeat split.
  - repeat split.
    + unfold size. simpl. now rewrite repeat_length.
    + now rewrite present_repeat_None.
  - repeat split.
    + unfold nrows. simpl. now rewrite length_map.
    + induction (m_rows m) as [| r rows IH]; simpl; [reflexivity |].
      rewrite present_app, present_repeat_None. exact IH.
Qed.

(** X3.  Whenever [_update] of a reduction or of an element-wise operation
    succeeds, the placeholder of the target has kept its dtype and its
    shape, and it is a scalar or holds no value; after a reduction it
    holds no value at all ([meta.clear()]). *)
Theorem update_keeps_placeholder :
  forall (self : GbDelayed T DType) (updating r : Collection T DType)
         (mask : option (Mask T DType)) (accum : option (T -> T -> T))
         (replace : option bool),
    name_in (method_name self) ["vxm"; "mxv"]%string = false ->
    GbDelayed__update gb sched self updating mask accum replace = Ok r ->
    dtype_of (c_meta r) = dtype_of (c_meta updating) /\
    shape_of (c_meta r) = shape_of (c_meta updating) /\
    (is_scalar (c_meta r) = true \/ nvals_of (c_meta r) = 0) /\
    (name_in (method_name self) reductions = true -> nvals_of (c_meta r) = 0).
Proof.
  intros self updating r mask accum replace Hmm.
  unfold GbDelayed__update.
  destruct (Gb_update gb (c_meta updating) (gd_meta self)) as [meta | e] eqn:U;
    [| discriminate].
  destruct (Gb_update_placeholder _ _ U) as (D & S & K).
  destruct (clear_placeholder meta) as (D' & S' & K' & N').
  cbn [bind].
  destruct (is_scalar meta || Nat.eqb (nvals_of meta) 0) eqn:A; [| discriminate].
  cbn [assert bind].
  assert (Scal : is_scalar meta = true \/ nvals_of meta = 0).
  { apply orb_true_iff in A. destruct A as [A | A]; [now left | right].
    now apply Nat.eqb_eq. }
  assert (Cleared :
            forall delayed : result (Delayed T DType),
              (d <- delayed ;; Ok (mkCollection d (clear meta))) = Ok r ->
              dtype_of (c_meta r) = dtype_of (c_meta updating) /\
              shape_of (c_meta r) = shape_of (c_meta updating) /\
              (is_scalar (c_meta r) = true \/ nvals_of (c_meta r) = 0) /\
              (name_in (method_name self) reductions = true ->
               nvals_of (c_meta r) = 0)).
  { intros [d |]; [| discriminate]. intros [= <-]. simpl.
    rewrite D', S', D, S. auto. }
  destruct (String.eqb (method_name self) "reduce") eqn:E1.
  { destruct (GbDelayed__reduce gb sched self (dtype_of (clear meta)));
      [| discriminate].
    cbn [bind]. apply Cleared. }
  destruct (String.eqb (method_name self) "reduce_scalar") eqn:E2.
  { destruct (GbDelayed__reduce_scalar gb sched self (dtype_of (clear meta)));
      [| discriminate].
    cbn [bind]. apply Cleared. }
  destruct (String.eqb (method_name self) "reduce_rowwise") eqn:E3.
  { destruct (GbDelayed__reduce_along_axis gb sched self 1 (dtype_of (clear meta)));
      [| discriminate].
    cbn [bind]. apply Cleared. }
  destruct (String.eqb (method_name self) "reduce_columnwise") eqn:E4.
  { destruct (GbDelayed__reduce_along_axis gb sched self 0 (dtype_of (clear meta)));
      [| discriminate].
    cbn [bind]. apply Cleared. }
  assert (NR : name_in (method_name self) reductions = false).
  { unfold reductions. rewrite !name_in_cons, E1, E2, E3, E4. reflexivity. }
  rewrite Hmm.
  destruct (name_in (method_name self) ["apply"; "ewise_add"; "ewise_mult"]%string);
    [| discriminate].
  match goal with
  | |- (d <- ?c ;; _) = _ -> _ => destruct c as [d |]; [| discriminate]
  end.
  intros [= <-]. cbn [c_meta]. rewrite NR. repeat split; auto. discriminate.
Qed.

(** *** [new] of a reduction *)

Lemma new_of_reduction (self : GbDelayed T DType) (dtype : option DType)
      (mask : option (Mask T DType)) :
  name_in (method_name self) reductions = true ->
  exists blocks : DType -> result (Delayed T DType),
    (method_name self = "reduce"%string ->
     blocks = GbDelayed__reduce gb sched self) /\
    (method_name self = "reduce_scalar"%string ->
     blocks = GbDelayed__reduce_scalar gb sched self) /\
    (method_name self = "reduce_rowwise"%string ->
     blocks = GbDelayed__reduce_along_axis gb sched self 1) /\
    (method_name self = "reduce_columnwise"%string ->
     blocks = GbDelayed__reduce_along_axis gb sched self 0) /\
    forall m : option (Mask T DType),
      GbDelayed_new gb sched self dtype m
      = (meta <- Gb_new gb (gd_meta self) dtype
                        (option_map (@Mask_meta T DType) m) ;;
         delayed <- blocks (dtype_of meta) ;;
         Ok (mkCollection delayed meta)).
Proof.
  intros H. unfold GbDelayed_new.
  destruct (reduction_names _ H) as [E | [E | [E | E]]]; rewrite E;
    [exists (GbDelayed__reduce gb sched self)
    | exists (GbDelayed__reduce_scalar gb sched self)
    | exists (GbDelayed__reduce_along_axis gb sched self 1)
    | exists (GbDelayed__reduce_along_axis gb sched self 0)];
    repeat split; try reflexivity; discriminate.
Qed.

(** X4.  [new] of a reduction hands the mask to the placeholder of the
    result only, where the backend validates it.  A scalar placeholder,
    as [reduce] and [reduce_scalar] have, takes no mask: [new] fails
    with [TypeError].  When the backend accepts the mask, the blocks are
    reduced as without a mask at the same dtype, so that the mask
    filters no entry of them, and the whole result is the one without a
    mask when the placeholder holds no value. *)
Theorem new_of_reduction_ignores_mask :
  forall (self : GbDelayed T DType) (dtype : option DType) (mask : Mask T DType),
    name_in (method_name self) reductions = true ->
    (is_scalar (gd_meta self) = true ->
     GbDelayed_new gb sched self dtype (Some mask) = Raise TypeError) /\
    (forall meta : GbObject T DType,
        Gb_new gb (gd_meta self) dtype (Some (Mask_meta mask)) = Ok meta ->
        fmap (@c_delayed T DType) (GbDelayed_new gb sched self dtype (Some mask))
        = fmap (@c_delayed T DType) (GbDelayed_new gb sched self dtype None) /\
        (nvals_of (gd_meta self) = 0 ->
         GbDelayed_new gb sched self dtype (Some mask)
         = GbDelayed_new gb sched self dtype None)).
Proof.
  intros self dtype mask H.
  destruct (new_of_reduction self dtype (Some mask) H)
    as (blocks & _ & _ & _ & _ & N).
  split.
  - intros S. rewrite N. cbn [option_map]. unfold Gb_new, check_mask.
    destruct (gd_meta self); try discriminate. reflexivity.
  - intros meta Hm. destruct (Gb_new_accepted _ _ _ Hm) as [_ ->].
    rewrite !N. cbn [option_map]. rewrite Hm, Gb_new_unmasked. cbn [bind].
    split.
    + destruct (meta_new_placeholder (gd_meta self) dtype (Mask_meta mask))
        as [-> _].
      destruct (blocks (dtype_of (meta_new gb (gd_meta self) dtype None)));
        reflexivity.
    + intros E. now rewrite (@meta_new_empty _ dtype (Mask_meta mask) E).
Qed.

(** X5.  The reductions take no keyword argument and one operator: once
    the placeholder of the result is computed, as it always is without a
    mask, [new] fails on [assert not self.kwargs] when the expression
    has keyword arguments, and on [self.args[0]] when it has none and no
    positional argument either. *)
Theorem reduction_arguments :
  forall (self : GbDelayed T DType) (dtype : option DType)
         (mask : option (Mask T DType)) (meta : GbObject T DType),
    name_in (method_name self) reductions = true ->
    Gb_new gb (gd_meta self) dtype (option_map (@Mask_meta T DType) mask)
    = Ok meta ->
    (kwargs self <> [] ->
     GbDelayed_new gb sched self dtype mask = Raise AssertionError /\
     fails_with UsageError (GbDelayed_new gb sched self dtype mask)) /\
    (kwargs self = [] -> args self = [] ->
     GbDelayed_new gb sched self dtype mask = Raise IndexError).
Proof.
  intros self dtype mask meta H Hm.
  assert (K : kwargs self <> [] ->
              GbDelayed_new gb sched self dtype mask = Raise AssertionError).
  { intros NE. unfold GbDelayed_new. rewrite Hm. cbn [bind].
    destruct (reduction_names _ H) as [E | [E | [E | E]]]; rewrite E;
      cbn [String.eqb Ascii.eqb Bool.eqb andb];
      unfold GbDelayed__reduce, GbDelayed__reduce_scalar,
        GbDelayed__reduce_along_axis;
      destruct (kwargs self); try contradiction; reflexivity. }
  split.
  - intros NE. split; [now apply K |].
    exists AssertionError. split; [now apply K | reflexivity].
  - intros EK EA. unfold GbDelayed_new. rewrite Hm. cbn [bind].
    destruct (reduction_names _ H) as [E | [E | [E | E]]]; rewrite E;
      cbn [String.eqb Ascii.eqb Bool.eqb andb];
      unfold GbDelayed__reduce, GbDelayed__reduce_scalar,
        GbDelayed__reduce_along_axis;
      rewrite EK, EA; reflexivity.
Qed.
(* ------------------------------------------------------------------ *)
(** ** The block functions on their own *)

(** *** [_reduce_axis] *)


(** *** [_reduce_combine] *)

Lemma from_values_all (dtype : DType) (l : list T) :
  Vector_from_values gb (seq 0 (length (map Some l))) (map Some l)
                     (Some (length (map Some l))) dtype
  = Ok (mkVector dtype (map (fun x => Some (cast gb dtype x)) l)).
Proof.
  unfold Vector_from_values.
  assert (E : mapM (fun o : option T => match o with
                                        | Some x => Ok (cast gb dtype x)
                                        | None => Raise TypeError
                                        end) (map Some l)
              = Ok (map (cast gb dtype) l)).
  { rewrite mapM_map. apply mapM_pure. }
  rewrite E. cbn [bind].
  pose proof (fill_positions_0 (map Some (map (cast gb dtype) l))) as F.
  rewrite positions_map_Some, present_map_Some in F.
  repeat rewrite length_map in F. repeat rewrite length_map.
  rewrite F. cbn [bind].
  now rewrite map_map.
Qed.

(** The partial scalar of dtype [fst p] that holds [snd p]. *)
Definition partial_scalar (p : DType * T) : Inner T DType :=
  InnerScalar (mkScalar (fst p) (Some (snd p))).

Lemma combine_partial_scalars (op : Monoid T) (dtype : DType)
      (ps : list (DType * T)) :
  (vals <- mapM (@scalar_value T DType) (map partial_scalar ps) ;;
   values <- Vector_from_values gb (seq 0 (length vals)) vals
                                (Some (length vals)) dtype ;;
   Ok (wrap_inner (GbScalar (Vector_reduce gb op values None))))
  = Ok (InnerScalar
          (mkScalar dtype
             (Some (cast gb dtype
                      (fold_monoid op
                         (map (fun p => cast gb dtype (snd p)) ps)))))).
Proof.
  assert (E : mapM (@scalar_value T DType) (map partial_scalar ps)
              = Ok (map Some (map snd ps))).
  { rewrite mapM_map, map_map. apply mapM_pure. }
  rewrite E. cbn [bind]. rewrite from_values_all. cbn [bind].
  unfold Vector_reduce. cbn [pick v_dtype v_entries wrap_inner].
  rewrite <- (map_map (cast gb dtype) Some), present_map_Some.
  now rewrite map_map.
Qed.

(** X7.  [_reduce_combine] returns a single partial result as it is, and
    turns a list of partial scalars, flat or nested, into one scalar of
    dtype [dtype]: the values are converted to [dtype], whatever the
    dtypes of the partial scalars, and folded with the monoid in list
    order.  An empty list fails on [x[0]]. *)
Theorem reduce_combine_of_scalars :
  forall (op : Monoid T) (dtype : DType),
    (forall x, _reduce_combine gb op x true dtype = Ok (NpEmpty T dtype)) /\
    (forall b, _reduce_combine gb op (One b) false dtype = Ok b) /\
    _reduce_combine gb op (Flat []) false dtype = Raise IndexError /\
    _reduce_combine gb op (Nested []) false dtype = Raise IndexError /\
    (forall ps : list (DType * T),
        ps <> [] ->
        _reduce_combine gb op (Flat (map partial_scalar ps)) false dtype
        = Ok (InnerScalar
                (mkScalar dtype
                   (Some (cast gb dtype
                            (fold_monoid op
                               (map (fun p => cast gb dtype (snd p)) ps))))))) /\
    (forall pss : list (list (DType * T)),
        pss <> [] ->
        _reduce_combine gb op (Nested (map (map partial_scalar) pss)) false dtype
        = Ok (InnerScalar
                (mkScalar dtype
                   (Some (cast gb dtype
                            (fold_monoid op
                               (map (fun p => cast gb dtype (snd p))
                                    (concat pss)))))))).
Proof.
  intros op dtype. repeat split.
  - intros [| p ps] H; [contradiction |].
    exact (combine_partial_scalars op dtype (p :: ps)).
  - intros [| ps pss] H; [contradiction |].
    unfold _reduce_combine. cbn [map]. rewrite <- map_cons, <- concat_map.
    apply combine_partial_scalars.
Qed.

(** *** [_reduce_axis_combine] *)



(** *** [_sum_by_monoid] and [FakeInnerTensor] *)

Lemma foldM_ewise_add_vectors (f : T -> T -> T) (vs : list (Vector T DType)) :
  forall (acc : Vector T DType) (r : GbObject T DType),
    foldM (fun a b => Gb_ewise_add gb f a b None)
          (map (@GbVector T DType) vs) (GbVector acc) = Ok r ->
    exists v, r = GbVector v.
Proof.
  induction vs as [| v vs IH]; intros acc r.
  - intros [= <-]. now exists acc.
  - cbn [map foldM Gb_ewise_add].
    destruct (Vector_ewise_add gb f acc v None) as [acc' | e];
      [| discriminate].
    cbn [bind]. apply IH.
Qed.

(** X9.  [_sum_by_monoid] passes a single block through: as it is with
    [keepdims], re-wrapped by [wrap_inner] without (a [FakeInnerTensor]
    then becomes a matrix block).  On a list it only ever sums matrices:
    [FakeInnerTensor] asserts that the sum is a matrix, so that no list
    of vector blocks is summed. *)
Theorem sum_by_monoid_of_blocks :
  forall monoid : Monoid T,
    (forall b, _sum_by_monoid gb monoid (One b) true = Ok b) /\
    (forall m : Matrix T DType,
        _sum_by_monoid gb monoid (One (FakeInnerTensor m)) false = Ok (InnerMatrix m)) /\
    (forall m : Matrix T DType,
        _sum_by_monoid gb monoid (Flat [FakeInnerTensor m]) true
        = Ok (FakeInnerTensor m) /\
        _sum_by_monoid gb monoid (Flat [FakeInnerTensor m]) false
        = Ok (InnerMatrix m)) /\
    (forall (vs : list (Vector T DType)) (keepdims : bool) (r : Inner T DType),
        _sum_by_monoid gb monoid (Flat (map (@InnerVector T DType) vs)) keepdims
        <> Ok r).
Proof.
  intros monoid. repeat split.
  intros vs keepdims r. unfold _sum_by_monoid.
  assert (V : mapM (@value_of T DType) (map (@InnerVector T DType) vs)
              = Ok (map (@GbVector T DType) vs)).
  { rewrite mapM_map. apply mapM_pure. }
  rewrite V. cbn [bind].
  destruct vs as [| v vs]; [discriminate |].
  cbn [map reduce].
  destruct (foldM (fun a b => Gb_ewise_add gb (m_op monoid) a b None)
                  (map (@GbVector T DType) vs) (GbVector v)) as [s | e] eqn:F;
    [| discriminate].
  destruct (foldM_ewise_add_vectors _ _ _ F) as [w ->].
  discriminate.
Qed.

(** *** [asVector] *)

Lemma concat_singletons (A : Type) (l : list A) :
  concat (map (fun o => [o]) l) = l.
Proof. induction l as [| a l IH]; simpl; [reflexivity | now rewrite IH]. Qed.

(** X10.  [asVector] handles the matrices of one row and of one column only:
    every other shape fails with [NotImplementedError].  On a matrix of
    one row whose raw buffers are full, it gives the row, and lifting it
    again with [asOneRowMatrix] gives the matrix back; on a matrix of
    one column whose raw buffers are full, it gives the column, and
    [asOneColMatrix] gives the matrix back. *)
Theorem asVector_shapes :
  forall m : Matrix T DType,
    (nrows m <> 1 -> m_ncols m <> 1 ->
     asVector gb m = Raise NotImplementedError) /\
    (nrows m = 1 -> Forall (fun r => length r = m_ncols m) (m_rows m) ->
     raw_slack gb (nvals_of (GbMatrix m)) = [] ->
     exists v,
       asVector gb m = Ok v /\ size v = m_ncols m /\ v_dtype v = m_dtype m /\
       asOneRowMatrix gb (InnerVector v) = Ok (InnerMatrix m)) /\
    (m_ncols m = 1 ->
     Forall (fun r => length r = m_ncols m) (m_rows m) ->
     raw_slack gb (nvals_of (GbMatrix m)) = [] ->
     exists v,
       asVector gb m = Ok v /\ size v = nrows m /\ v_dtype v = m_dtype m /\
       asOneColMatrix gb (InnerVector v) = Ok (InnerMatrix m)).
Proof.
  intros [d nc rows]. unfold nrows. cbn [m_rows m_ncols m_dtype nvals_of].
  repeat split.
  - intros Hr Hc. unfold asVector, nrows. cbn [m_rows m_ncols].
    destruct (Nat.eqb_spec (length rows) 1); [contradiction |].
    destruct (Nat.eqb_spec nc 1); [contradiction |]. reflexivity.
  - intros Hr Hw F.
    destruct rows as [| l [| l' rows]]; try discriminate.
    inversion Hw as [| ? ? Hl _]; subst.
    cbn [concat] in F. rewrite app_nil_r in F.
    exists (mkVector d l).
    split; [rewrite asVector_row_buffers; now apply import_full_buffers |].
    split; [reflexivity |]. split; [reflexivity |].
    apply asOneRowMatrix_value.
  - intros Hc Hw F. subst nc.
    assert (E : rows = map (fun o => [o]) (column 0 rows)).
    { clear F. induction Hw as [| r rows Hl _ IH]; [reflexivity |].
      destruct r as [| o [| o' r]]; try discriminate.
      unfold column in *. cbn [map nth]. f_equal. exact IH. }
    rewrite E, concat_singletons in F.
    exists (mkVector d (column 0 rows)).
    split.
    { rewrite E at 1. rewrite asVector_column_buffers.
      now apply import_full_buffers. }
    split; [unfold size, column; cbn [v_entries]; now rewrite length_map |].
    split; [reflexivity |].
    rewrite asOneColMatrix_value. cbn [v_dtype v_entries]. now rewrite <- E.
Qed.

(** *** [GbDelayed._matmul2] between two matrices *)

(** X11.  [GbDelayed._matmul2] binds [sum_meta] for a 1-dimensional operand
    only: when neither operand is 1-dimensional it fails with
    [UnboundLocalError] before any block is multiplied. *)
Theorem matmul2_of_two_matrices :
  forall (self : GbDelayed T DType) (meta : GbObject T DType)
         (b : Delayed T DType) (op : Semiring T),
    arg_delayed (args self) 0 = Ok b ->
    arg_semiring (args self) 1 = Ok op ->
    ndim (c_delayed (parent self)) <> 1 ->
    ndim b <> 1 ->
    GbDelayed__matmul2 gb sched self meta = Raise UnboundLocalError.
Proof.
  intros self meta b op Hb Hop Ha Hb'.
  unfold GbDelayed__matmul2. rewrite Hb, Hop. cbn [bind].
  destruct (Nat.eqb_spec (ndim (c_delayed (parent self))) 1); [contradiction |].
  cbn [bind].
  destruct (Nat.eqb_spec (ndim b) 1); [contradiction |].
  reflexivity.
Qed.
(* ------------------------------------------------------------------ *)
(** ** Element-wise operations, block by block *)

(** [f] on every block of an array. *)
Definition amap (A B : Type) (f : A -> B) (x : Array A) : Array B :=
  match x with
  | Array0 b => Array0 (f b)
  | Array1 bs => Array1 (map f bs)
  | Array2 g => Array2 (map (map f) g)
  | Array3 c => Array3 (map (map (map f)) c)
  end.

(** Two arrays with the same grid of blocks. *)
Definition same_grid (A B : Type) (x : Array A) (y : Array B) : Prop :=
  match x, y with
  | Array0 _, Array0 _ => True
  | Array1 l, Array1 l' => length l = length l'
  | Array2 g, Array2 g' => Forall2 (fun r r' => length r = length r') g g'
  | Array3 c, Array3 c' =>
      Forall2 (Forall2 (fun r r' => length r = length r')) c c'
  | _, _ => False
  end.

(** The blocks of two arrays agree: the arrays have the same grid, and
    the blocks at the same position hold objects of one shape.  On such
    operands dask's [elemwise] re-chunks nothing. *)
Definition same_block_shape (x y : Inner T DType) : Prop :=
  exists u v : GbObject T DType,
    value_of x = Ok u /\ value_of y = Ok v /\ shape_of u = shape_of v.

Definition aligned (x y : Array (Inner T DType)) : Prop :=
  match x, y with
  | Array0 a, Array0 b => same_block_shape a b
  | Array1 l, Array1 l' => Forall2 same_block_shape l l'
  | Array2 g, Array2 g' => Forall2 (Forall2 same_block_shape) g g'
  | Array3 c, Array3 c' => Forall2 (Forall2 (Forall2 same_block_shape)) c c'
  | _, _ => False
  end.

Lemma Forall2_lengths (A B : Type) (P : A -> B -> Prop) (l : list A) (l' : list B) :
  Forall2 P l l' -> length l = length l'.
Proof. induction 1; simpl; auto. Qed.

Lemma aligned_same_grid (x y : Array (Inner T DType)) :
  aligned x y -> same_grid x y.
Proof.
  destruct x as [a | l | g | c], y as [b | l' | g' | c']; simpl; auto.
  - apply Forall2_lengths.
  - intros H. induction H as [| r r' g g' Hr _ IH]; constructor; auto.
    now apply Forall2_lengths in Hr.
  - intros H. induction H as [| p p' c c' Hp _ IH]; constructor; auto.
    clear -Hp. induction Hp as [| r r' p p' Hr _ IH]; constructor; auto.
    now apply Forall2_lengths in Hr.
Qed.

Lemma map_blocks_pure (A B : Type) (h : A -> B) (x : Array A) :
  map_blocks (fun a => Ok (h a)) x = Ok (amap h x).
Proof.
  destruct x as [b | bs | g | c]; simpl.
  - reflexivity.
  - now rewrite mapM_pure.
  - rewrite (@mapM_ok _ _ (mapM (fun a => Ok (h a))) (map h) g);
      [reflexivity |].
    rewrite Forall_forall. intros r _. apply mapM_pure.
  - rewrite (@mapM_ok _ _ (mapM (mapM (fun a => Ok (h a)))) (map (map h)) c);
      [reflexivity |].
    rewrite Forall_forall. intros s _.
    apply mapM_ok. rewrite Forall_forall. intros r _. apply mapM_pure.
Qed.

Lemma mapM_ext (A B : Type) (f g : A -> result B) (l : list A) :
  (forall a, f a = g a) -> mapM f l = mapM g l.
Proof.
  intros H. induction l as [| a l IH]; [reflexivity |].
  now rewrite !mapM_cons, H, IH.
Qed.

Lemma map_blocks_amap (A B C : Type) (g : B -> result C) (h : A -> B)
      (x : Array A) :
  map_blocks g (amap h x) = map_blocks (fun a => g (h a)) x.
Proof.
  destruct x as [b | bs | gr | c]; simpl.
  - reflexivity.
  - now rewrite mapM_map.
  - rewrite mapM_map.
    rewrite (mapM_ext (fun r => mapM g (map h r)) (mapM (fun a => g (h a))));
      [reflexivity |].
    intros r. apply mapM_map.
  - rewrite mapM_map.
    rewrite (mapM_ext (fun s => mapM (mapM g) (map (map h) s))
                      (mapM (mapM (fun a => g (h a))))); [reflexivity |].
    intros s. rewrite mapM_map. apply mapM_ext. intros r. apply mapM_map.
Qed.

Lemma amap_amap (A B C : Type) (g : B -> C) (h : A -> B) (x : Array A) :
  amap g (amap h x) = amap (fun a => g (h a)) x.
Proof.
  destruct x as [b | bs | gr | c]; simpl; f_equal.
  - apply map_map.
  - rewrite map_map. apply map_ext. intros r. apply map_map.
  - rewrite map_map. apply map_ext. intros s. rewrite map_map.
    apply map_ext. intros r. apply map_map.
Qed.

Lemma same_grid_amap (A B C : Type) (h : A -> B) (x : Array A) (y : Array C) :
  same_grid x y -> same_grid (amap h x) y.
Proof.
  destruct x as [b | bs | g | c], y as [b' | bs' | g' | c']; simpl; auto.
  - now rewrite length_map.
  - intros H. induction H as [| r r' g g' Hr _ IH]; simpl; constructor; auto.
    now rewrite length_map.
  - intros H. induction H as [| s s' c c' Hs _ IH]; simpl; constructor; auto.
    induction Hs as [| r r' s s' Hr _ IHs]; simpl; constructor; auto.
    now rewrite length_map.
Qed.

(** *** Pairing the blocks of two arrays *)

(** The blocks of two arrays paired. *)
Definition azip (A B C : Type) (h : A -> B -> C) (x : Array A) (y : Array B)
  : Array C :=
  match x, y with
  | Array0 a, Array0 b => Array0 (h a b)
  | Array1 l, Array1 l' => Array1 (zipw h l l')
  | Array2 g, Array2 g' => Array2 (zipw (zipw h) g g')
  | Array3 c, Array3 c' => Array3 (zipw (zipw (zipw h)) c c')
  | _, _ => Array1 []
  end.

Lemma zipM_zipw (A B C D : Type) (F : C -> result D) (h : A -> B -> C)
      (P : A -> B -> Prop) (l : list A) (l' : list B) :
  Forall2 P l l' ->
  zipM (fun a b => F (h a b)) l l' = mapM F (zipw h l l').
Proof.
  induction 1 as [| a b l l' _ _ IH]; [reflexivity |].
  cbn [zipM zipw]. now rewrite mapM_cons, IH.
Qed.

Lemma zipM_ext (A B C : Type) (f g : A -> B -> result C) (P : A -> B -> Prop)
      (l : list A) (l' : list B) :
  Forall2 P l l' ->
  (forall a b, P a b -> f a b = g a b) ->
  zipM f l l' = zipM g l l'.
Proof.
  intros H E. induction H as [| a b l l' Hab _ IH]; [reflexivity |].
  cbn [zipM]. now rewrite (E a b Hab), IH.
Qed.

Lemma Forall2_same_length (A B : Type) (l : list A) (l' : list B) :
  length l = length l' <-> Forall2 (fun _ _ => True) l l'.
Proof.
  split.
  - revert l'. induction l as [| a l IH]; intros [| b l'] H;
      try discriminate; constructor; auto.
  - induction 1; simpl; auto.
Qed.

(** On two arrays with the same grid, [elemwise2 F] with [F] made of a
    pairing [h] and a block function is the block function on the paired
    blocks. *)
Lemma elemwise2_azip (A B C D : Type) (F : C -> result D) (h : A -> B -> C)
      (x : Array A) (y : Array B) :
  same_grid x y ->
  elemwise2 (fun a b => F (h a b)) x y = map_blocks F (azip h x y).
Proof.
  destruct x as [a | l | g | c], y as [b | l' | g' | c']; simpl;
    try contradiction; intros H.
  - reflexivity.
  - apply Forall2_same_length in H. now rewrite (zipM_zipw F h H).
  - f_equal.
    rewrite (@zipM_ext _ _ _ (zipM (fun a b => F (h a b)))
                       (fun r r' => mapM F (zipw h r r')) _ _ _ H).
    + now rewrite (zipM_zipw (mapM F) (zipw h) H).
    + intros r r' Hr. apply Forall2_same_length in Hr.
      apply (zipM_zipw F h Hr).
  - f_equal.
    rewrite (@zipM_ext _ _ _ (zipM (zipM (fun a b => F (h a b))))
                       (fun s s' => mapM (mapM F) (zipw (zipw h) s s')) _ _ _ H).
    + now rewrite (zipM_zipw (mapM (mapM F)) (zipw (zipw h)) H).
    + intros s s' Hs.
      rewrite (@zipM_ext _ _ _ (zipM (fun a b => F (h a b)))
                         (fun r r' => mapM F (zipw h r r')) _ _ _ Hs).
      * now rewrite (zipM_zipw (mapM F) (zipw h) Hs).
      * intros r r' Hr. apply Forall2_same_length in Hr.
        apply (zipM_zipw F h Hr).
Qed.

Lemma elemwise2_pure (A B C : Type) (h : A -> B -> C) (x : Array A) (y : Array B) :
  same_grid x y ->
  elemwise2 (fun a b => Ok (h a b)) x y = Ok (azip h x y).
Proof.
  intros H.
  rewrite (elemwise2_azip (fun c => Ok c) h x y H).
  rewrite (map_blocks_pure (fun c => c)).
  f_equal. destruct (azip h x y) as [b | bs | g | c]; simpl; f_equal.
  - apply map_id.
  - rewrite <- (map_id g) at 2. apply map_ext. intros r. apply map_id.
  - rewrite <- (map_id c) at 2. apply map_ext. intros s.
    rewrite <- (map_id s) at 2. apply map_ext. intros r. apply map_id.
Qed.

Lemma zipw_map_left (A A' B C : Type) (h : A' -> B -> C) (k : A -> A')
      (l : list A) (l' : list B) :
  zipw h (map k l) l' = zipw (fun a b => h (k a) b) l l'.
Proof.
  revert l'. induction l as [| a l IH]; intros [| b l']; simpl; auto.
  now rewrite IH.
Qed.

Lemma zipw_ext (A B C : Type) (h h' : A -> B -> C) (l : list A) (l' : list B) :
  (forall a b, h a b = h' a b) -> zipw h l l' = zipw h' l l'.
Proof.
  intros E. revert l'. induction l as [| a l IH]; intros [| b l']; simpl; auto.
  now rewrite E, IH.
Qed.

Lemma azip_amap_left (A A' B C : Type) (h : A' -> B -> C) (k : A -> A')
      (x : Array A) (y : Array B) :
  azip h (amap k x) y = azip (fun a b => h (k a) b) x y.
Proof.
  destruct x as [a | l | g | c], y as [b | l' | g' | c']; simpl;
    try reflexivity; f_equal.
  - apply zipw_map_left.
  - rewrite zipw_map_left. apply zipw_ext. intros r r'. apply zipw_map_left.
  - rewrite zipw_map_left. apply zipw_ext. intros s s'.
    rewrite zipw_map_left. apply zipw_ext. intros r r'. apply zipw_map_left.
Qed.

Lemma zipw_diag (A C : Type) (h : A -> A -> C) (l : list A) :
  zipw h l l = map (fun a => h a a) l.
Proof. induction l as [| a l IH]; simpl; [reflexivity | now rewrite IH]. Qed.

Lemma azip_diag (A C : Type) (h : A -> A -> C) (x : Array A) :
  azip h x x = amap (fun a => h a a) x.
Proof.
  destruct x as [a | l | g | c]; simpl; f_equal.
  - apply zipw_diag.
  - rewrite zipw_diag. apply map_ext. intros r. apply zipw_diag.
  - rewrite zipw_diag. apply map_ext. intros s.
    rewrite zipw_diag. apply map_ext. intros r. apply zipw_diag.
Qed.

Lemma same_grid_refl (A : Type) (x : Array A) : same_grid x x.
Proof.
  destruct x as [a | l | g | c]; simpl; auto.
  - induction g; constructor; auto.
  - induction c as [| s c IH]; constructor; auto.
    induction s; constructor; auto.
Qed.

Lemma mapM_zipw_ext (A B C C' D : Type) (G : C -> result D) (G' : C' -> result D)
      (H : A -> B -> C) (H' : A -> B -> C') (l : list A) (l' : list B) :
  (forall a b, G (H a b) = G' (H' a b)) ->
  mapM G (zipw H l l') = mapM G' (zipw H' l l').
Proof.
  intros E. revert l'. induction l as [| a l IH]; intros [| b l'];
    try reflexivity.
  cbn [zipw]. now rewrite !mapM_cons, E, IH.
Qed.

Lemma map_blocks_azip_ext (A B C C' D : Type) (G : C -> result D)
      (G' : C' -> result D) (H : A -> B -> C) (H' : A -> B -> C')
      (x : Array A) (y : Array B) :
  (forall a b, G (H a b) = G' (H' a b)) ->
  map_blocks G (azip H x y) = map_blocks G' (azip H' x y).
Proof.
  intros E.
  destruct x as [a | l | g | c], y as [b | l' | g' | c']; simpl;
    try reflexivity.
  - now rewrite E.
  - now rewrite (mapM_zipw_ext G G' H H' l l' E).
  - rewrite (mapM_zipw_ext (mapM G) (mapM G') (zipw H) (zipw H') g g');
      [reflexivity |].
    intros r r'. now apply mapM_zipw_ext.
  - rewrite (mapM_zipw_ext (mapM (mapM G)) (mapM (mapM G'))
                           (zipw (zipw H)) (zipw (zipw H')) c c');
      [reflexivity |].
    intros s s'. apply mapM_zipw_ext. intros r r'. now apply mapM_zipw_ext.
Qed.

(** *** [da.core.elemwise] on one and on two arrays *)

Lemma gather_consts (cs : list (PyConst T))
      (acc : Array (list (PyArg T (Inner T DType)) * option (Inner T DType))) :
  gather (map (@Const T (Delayed T DType)) cs) acc
  = Ok (amap (fun p => (fst p ++ map (@Const T (Inner T DType)) cs, snd p)) acc).
Proof.
  revert acc. induction cs as [| c cs IH]; intros acc; cbn [map gather].
  - f_equal. destruct acc as [[l o] | bs | g | cu]; simpl; f_equal.
    + now rewrite app_nil_r.
    + rewrite <- (map_id bs) at 1. apply map_ext. intros [l o]. simpl.
      now rewrite app_nil_r.
    + rewrite <- (map_id g) at 1. apply map_ext. intros r.
      rewrite <- (map_id r) at 1. apply map_ext. intros [l o]. simpl.
      now rewrite app_nil_r.
    + rewrite <- (map_id cu) at 1. apply map_ext. intros s.
      rewrite <- (map_id s) at 1. apply map_ext. intros r.
      rewrite <- (map_id r) at 1. apply map_ext. intros [l o]. simpl.
      now rewrite app_nil_r.
  - rewrite (map_blocks_pure (fun p => (fst p ++ [Const c], snd p))).
    cbn [bind]. rewrite IH, amap_amap. f_equal.
    assert (E : forall p : list (PyArg T (Inner T DType)) * option (Inner T DType),
               (fst (fst p ++ [Const c], snd p) ++ map (@Const T (Inner T DType)) cs,
                snd (fst p ++ [Const c], snd p))
               = (fst p ++ Const c :: map (@Const T (Inner T DType)) cs, snd p)).
    { intros [l o]. simpl. now rewrite <- app_assoc. }
    destruct acc as [p | bs | g | cu]; simpl; f_equal.
    + apply E.
    + apply map_ext, E.
    + apply map_ext. intros r. apply map_ext, E.
    + apply map_ext. intros s. apply map_ext. intros r. apply map_ext, E.
Qed.

(** [elemwise] on one array and constants calls the block function on
    every block, with the constants after it. *)
Lemma elemwise_unary (f : list (PyArg T (Inner T DType)) -> result (Inner T DType))
      (x : Delayed T DType) (cs : list (PyConst T)) :
  elemwise f (Collected x :: map (@Const T (Delayed T DType)) cs)
  = map_blocks (fun b => f (Collected b :: map (@Const T (Inner T DType)) cs)) x.
Proof.
  unfold elemwise. cbn [first_array bind gather].
  rewrite (map_blocks_pure (fun _ : Inner T DType =>
                              (@nil (PyArg T (Inner T DType)), @None (Inner T DType)))).
  cbn [bind].
  rewrite (elemwise2_pure
             (fun (p : list (PyArg T (Inner T DType)) * option (Inner T DType))
                  (b : Inner T DType) => (fst p ++ [Collected b], snd p)))
    by apply same_grid_amap, same_grid_refl.
  cbn [bind]. rewrite gather_consts. cbn [bind].
  rewrite azip_amap_left, azip_diag, amap_amap, map_blocks_amap.
  reflexivity.
Qed.

(** [elemwise] on two arrays with the same grid and constants calls the
    block function on every pair of blocks. *)
Lemma elemwise_binary (f : list (PyArg T (Inner T DType)) -> result (Inner T DType))
      (x y : Delayed T DType) (cs : list (PyConst T)) :
  same_grid x y ->
  elemwise f (Collected x :: Collected y :: map (@Const T (Delayed T DType)) cs)
  = elemwise2 (fun a b => f (Collected a :: Collected b
                               :: map (@Const T (Inner T DType)) cs)) x y.
Proof.
  intros H. unfold elemwise. cbn [first_array bind gather].
  rewrite (map_blocks_pure (fun _ : Inner T DType =>
                              (@nil (PyArg T (Inner T DType)), @None (Inner T DType)))).
  cbn [bind].
  rewrite (elemwise2_pure
             (fun (p : list (PyArg T (Inner T DType)) * option (Inner T DType))
                  (b : Inner T DType) => (fst p ++ [Collected b], snd p)))
    by apply same_grid_amap, same_grid_refl.
  cbn [bind].
  rewrite azip_amap_left, azip_diag.
  rewrite (elemwise2_pure
             (fun (p : list (PyArg T (Inner T DType)) * option (Inner T DType))
                  (b : Inner T DType) => (fst p ++ [Collected b], snd p)))
    by now apply same_grid_amap.
  cbn [bind]. rewrite gather_consts. cbn [bind].
  rewrite azip_amap_left, map_blocks_amap.
  rewrite (elemwise2_azip f (fun a b => Collected a :: Collected b
                                          :: map (@Const T (Inner T DType)) cs)
                          x y H).
  apply map_blocks_azip_ext. reflexivity.
Qed.
(* ------------------------------------------------------------------ *)
(** ** [new] and [_update] of the element-wise operations *)

(** The element-wise operations. *)
Definition elementwise : list string := ["apply"; "ewise_add"; "ewise_mult"]%string.

Lemma elementwise_names (name : string) :
  name_in name elementwise = true ->
  name = "apply"%string \/ name = "ewise_add"%string \/ name = "ewise_mult"%string.
Proof.
  unfold elementwise. rewrite !name_in_cons. simpl. rewrite orb_false_r.
  intros H.
  repeat (apply orb_true_iff in H; destruct H as [H | H]);
    apply String.eqb_eq in H; auto.
Qed.

Lemma delayed_consts (cs : list (PyConst T)) :
  map (@delayed_arg T DType) (map (@Const T (Collection T DType)) cs)
  = map (@Const T (Delayed T DType)) cs.
Proof. rewrite map_map. reflexivity. Qed.

(** X12.  [new] of an element-wise operation calls [_expr_new] once per block
    and keeps the grid of the operand:
    - with constants as the only arguments, on every block of the
      operand;
    - with a second collection whose blocks agree with those of the
      operand, on the pairs of blocks;
    - with a mask that the backend accepts for the placeholder and whose
      blocks agree with those of the operand, on every block and its
      mask block.
    The placeholder of the result is [self._meta.new(dtype=dtype,
    mask=mask)]. *)
Theorem new_elementwise_by_block :
  forall (self : GbDelayed T DType) (dtype : option DType),
    name_in (method_name self) elementwise = true ->
    (forall cs : list (PyConst T),
        args self = map (@Const T (Collection T DType)) cs ->
        GbDelayed_new gb sched self dtype None
        = (delayed <- map_blocks
                        (fun x => _expr_new gb (method_name self) dtype None
                                            (kwargs self) x None
                                            (map (@Const T (Inner T DType)) cs))
                        (c_delayed (parent self)) ;;
           Ok (mkCollection delayed (meta_new gb (gd_meta self) dtype None)))) /\
    (forall (other : Collection T DType) (cs : list (PyConst T)),
        args self = Collected other :: map (@Const T (Collection T DType)) cs ->
        aligned (c_delayed (parent self)) (c_delayed other) ->
        GbDelayed_new gb sched self dtype None
        = (delayed <- elemwise2
                        (fun x y => _expr_new gb (method_name self) dtype None
                                              (kwargs self) x None
                                              (Collected y
                                                 :: map (@Const T (Inner T DType)) cs))
                        (c_delayed (parent self)) (c_delayed other) ;;
           Ok (mkCollection delayed (meta_new gb (gd_meta self) dtype None)))) /\
    (forall (mask : Mask T DType) (cs : list (PyConst T))
            (meta : GbObject T DType),
        args self = map (@Const T (Collection T DType)) cs ->
        Gb_new gb (gd_meta self) dtype (Some (Mask_meta mask)) = Ok meta ->
        aligned (c_delayed (parent self)) (c_delayed (mask_mask mask)) ->
        GbDelayed_new gb sched self dtype (Some mask)
        = (delayed <- elemwise2
                        (fun x m => _expr_new gb (method_name self) dtype
                                              (Some (mask_kind mask))
                                              (kwargs self) x (Some m)
                                              (map (@Const T (Inner T DType)) cs))
                        (c_delayed (parent self)) (c_delayed (mask_mask mask)) ;;
           Ok (mkCollection delayed meta))).
Proof.
  intros self dtype H.
  assert (D : forall mask,
             GbDelayed_new gb sched self dtype mask
             = (meta <- Gb_new gb (gd_meta self) dtype
                               (option_map (@Mask_meta T DType) mask) ;;
                delayed <-
                  match option_map (fun m => c_delayed (mask_mask m)) mask with
                  | Some dm =>
                      elemwise
                        (fun l => match l with
                                  | Collected x :: Collected m :: rest =>
                                      _expr_new gb (method_name self) dtype
                                                (option_map (@get_grblas_type T DType) mask)
                                                (kwargs self) x (Some m) rest
                                  | _ => Raise TypeError
                                  end)
                        (Collected (c_delayed (parent self)) :: Collected dm
                           :: map (@delayed_arg T DType) (args self))
                  | None =>
                      elemwise
                        (fun l => match l with
                                  | Collected x :: rest =>
                                      _expr_new gb (method_name self) dtype
                                                (option_map (@get_grblas_type T DType) mask)
                                                (kwargs self) x None rest
                                  | _ => Raise TypeError
                                  end)
                        (Collected (c_delayed (parent self))
                           :: map (@delayed_arg T DType) (args self))
                  end ;;
                Ok (get_return_type meta delayed))).
  { intros mask. unfold GbDelayed_new. fold elementwise. rewrite H.
    destruct (elementwise_names _ H) as [E | [E | E]]; rewrite E; reflexivity. }
  repeat split.
  - intros cs A. rewrite D. cbn [option_map]. rewrite Gb_new_unmasked.
    cbn [bind]. rewrite A, delayed_consts.
    now rewrite elemwise_unary.
  - intros other cs A G. rewrite D. cbn [option_map]. rewrite Gb_new_unmasked.
    cbn [bind]. rewrite A.
    cbn [map delayed_arg]. rewrite delayed_consts.
    rewrite elemwise_binary by (apply aligned_same_grid; exact G). reflexivity.
  - intros mask cs meta A M G. rewrite D. cbn [option_map]. rewrite M.
    cbn [bind]. rewrite A, delayed_consts.
    rewrite elemwise_binary by (apply aligned_same_grid; exact G). reflexivity.
Qed.

(** X13.  [_update] of an element-wise operation on constants, into a target
    whose blocks agree with those of the operand, writes block by block:
    block [i] of the target receives the operation on block [i] of the
    operand, by [_update_expr] when neither mask nor accumulator is
    given ([replace] is then not passed on) and by [_update_expr_full]
    with the accumulator and [replace] otherwise.  The placeholder of the
    target is the updated one. *)
Theorem update_elementwise_by_block :
  forall (self : GbDelayed T DType) (updating : Collection T DType)
         (replace : option bool) (cs : list (PyConst T))
         (meta : GbObject T DType),
    name_in (method_name self) elementwise = true ->
    args self = map (@Const T (Collection T DType)) cs ->
    Gb_update gb (c_meta updating) (gd_meta self) = Ok meta ->
    is_scalar meta || Nat.eqb (nvals_of meta) 0 = true ->
    aligned (c_delayed updating) (c_delayed (parent self)) ->
    GbDelayed__update gb sched self updating None None replace
    = (delayed <- elemwise2
                    (fun u x => _update_expr gb (method_name self) u x (kwargs self)
                                             (map (@Const T (Inner T DType)) cs))
                    (c_delayed updating) (c_delayed (parent self)) ;;
       Ok (mkCollection delayed meta)) /\
    (forall accum : T -> T -> T,
        GbDelayed__update gb sched self updating None (Some accum) replace
        = (delayed <- elemwise2
                        (fun u x => _update_expr_full gb (method_name self) u
                                                      (Some accum) None None replace
                                                      x (kwargs self)
                                                      (map (@Const T (Inner T DType)) cs))
                        (c_delayed updating) (c_delayed (parent self)) ;;
           Ok (mkCollection delayed meta))).
Proof.
  intros self updating replace cs meta H A U S G.
  apply aligned_same_grid in G.
  assert (D : forall mask accum,
             GbDelayed__update gb sched self updating mask accum replace
             = (delayed <-
                  (if is_none mask && is_none accum then
                     elemwise
                       (fun l => match l with
                                 | Collected u :: Collected x :: rest =>
                                     _update_expr gb (method_name self) u x
                                                  (kwargs self) rest
                                 | _ => Raise TypeError
                                 end)
                       (Collected (c_delayed updating)
                          :: Collected (c_delayed (parent self))
                          :: map (@delayed_arg T DType) (args self))
                   else
                     match mask with
                     | Some m =>
                         elemwise
                           (fun l => match l with
                                     | Collected u :: Collected k :: Collected x :: rest =>
                                         _update_expr_full gb (method_name self) u accum
                                           (Some k) (Some (get_grblas_type m)) replace x
                                           (kwargs self) rest
                                     | _ => Raise TypeError
                                     end)
                           (Collected (c_delayed updating)
                              :: Collected (c_delayed (mask_mask m))
                              :: Collected (c_delayed (parent self))
                              :: map (@delayed_arg T DType) (args self))
                     | None =>
                         elemwise
                           (fun l => match l with
                                     | Collected u :: Collected x :: rest =>
                                         _update_expr_full gb (method_name self) u accum
                                           None None replace x (kwargs self) rest
                                     | _ => Raise TypeError
                                     end)
                           (Collected (c_delayed updating)
                              :: Collected (c_delayed (parent self))
                              :: map (@delayed_arg T DType) (args self))
                     end) ;;
                Ok (mkCollection delayed meta))).
  { intros mask accum. unfold GbDelayed__update. rewrite U. cbn [bind].
    rewrite S. cbn [assert bind]. fold elementwise. rewrite H.
    unfold _optional_dup.
    destruct (elementwise_names _ H) as [E | [E | E]]; rewrite E; reflexivity. }
  split.
  - rewrite D. cbn [is_none andb]. rewrite A, delayed_consts.
    rewrite elemwise_binary by exact G. reflexivity.
  - intros accum. rewrite D. cbn [is_none andb]. rewrite A, delayed_consts.
    rewrite elemwise_binary by exact G. reflexivity.
Qed.

(** *** Accumulating a row-wise or column-wise reduction *)

Lemma zipM_axis_accum (accum : T -> T -> T) (os rs : list (Vector T DType)) :
  Forall2 (fun o r => size o = size r) os rs ->
  zipM (fun a b => _reduce_axis_accum gb a b accum)
       (map (@InnerVector T DType) os) (map (@InnerVector T DType) rs)
  = Ok (map (@InnerVector T DType)
            (zipw (fun o r => mkVector (v_dtype o)
                                       (zipw (combined accum (v_dtype o))
                                             (v_entries o) (v_entries r)))
                  os rs)).
Proof.
  induction 1 as [| o r os rs H _ IH]; [reflexivity |].
  cbn [map zipM zipw]. rewrite (_reduce_axis_accum_value _ _ accum H), IH.
  reflexivity.
Qed.

Lemma same_length_sizes (os rs : list (Vector T DType)) :
  Forall2 (fun o r => size o = size r) os rs ->
  length (map (@InnerVector T DType) os) = length (map (@InnerVector T DType) rs).
Proof. rewrite !length_map. induction 1; simpl; auto. Qed.

(** X14.  [_update] of [reduce_rowwise] and of [reduce_columnwise] with
    [accum]: when the reduced vector has the blocks of the target, block
    by block of one size, every block of the target becomes the
    accumulation of its prior entries with the reduced ones, and the
    placeholder of the target is cleared.  Mask and [replace] play no
    part. *)
Theorem update_axis_reduction_accumulates :
  forall (self : GbDelayed T DType) (updating : Collection T DType)
         (mask : option (Mask T DType)) (replace : option bool)
         (accum : T -> T -> T) (meta : GbObject T DType)
         (os rs : list (Vector T DType)),
    Gb_update gb (c_meta updating) (gd_meta self) = Ok meta ->
    is_scalar meta || Nat.eqb (nvals_of meta) 0 = true ->
    c_delayed updating = Array1 (map (@InnerVector T DType) os) ->
    Forall2 (fun o r => size o = size r) os rs ->
    (method_name self = "reduce_rowwise"%string ->
     GbDelayed__reduce_along_axis gb sched self 1 (dtype_of (clear meta))
     = Ok (Array1 (map (@InnerVector T DType) rs)) ->
     GbDelayed__update gb sched self updating mask (Some accum) replace
     = Ok (mkCollection
             (Array1 (map (@InnerVector T DType)
                          (zipw (fun o r =>
                                   mkVector (v_dtype o)
                                            (zipw (combined accum (v_dtype o))
                                                  (v_entries o) (v_entries r)))
                                os rs)))
             (clear meta))) /\
    (method_name self = "reduce_columnwise"%string ->
     GbDelayed__reduce_along_axis gb sched self 0 (dtype_of (clear meta))
     = Ok (Array1 (map (@InnerVector T DType) rs)) ->
     GbDelayed__update gb sched self updating mask (Some accum) replace
     = Ok (mkCollection
             (Array1 (map (@InnerVector T DType)
                          (zipw (fun o r =>
                                   mkVector (v_dtype o)
                                            (zipw (combined accum (v_dtype o))
                                                  (v_entries o) (v_entries r)))
                                os rs)))
             (clear meta))).
Proof.
  intros self updating mask replace accum meta os rs U S P F.
  assert (Acc : accumulate (@_reduce_axis_accum T DType gb) updating
                           (Array1 (map (@InnerVector T DType) rs)) accum
                = Ok (Array1 (map (@InnerVector T DType)
                                  (zipw (fun o r =>
                                           mkVector (v_dtype o)
                                                    (zipw (combined accum (v_dtype o))
                                                          (v_entries o) (v_entries r)))
                                        os rs)))).
  { unfold accumulate. rewrite P.
    change [Collected (Array1 (map (@InnerVector T DType) os));
            Collected (Array1 (map (@InnerVector T DType) rs));
            Const (ArgBinary accum)]
      with (Collected (Array1 (map (@InnerVector T DType) os))
              :: Collected (Array1 (map (@InnerVector T DType) rs))
              :: map (@Const T (Delayed T DType)) [ArgBinary accum]).
    rewrite elemwise_binary by (simpl; now apply same_length_sizes).
    cbn [elemwise2 map]. now rewrite (zipM_axis_accum accum F). }
  split; intros N R; unfold GbDelayed__update; rewrite U; cbn [bind];
    rewrite S; cbn [assert bind]; rewrite N;
    cbn [String.eqb Ascii.eqb Bool.eqb andb]; rewrite R; cbn [bind];
    rewrite Acc; reflexivity.
Qed.

(* ------------------------------------------------------------------ *)
(** ** The slab multiply ([GbDelayed._matmul2])

    A semiring whose additive monoid is associative and commutative, and
    the dtype [d] of the materialization: the semiring stays within the
    values of [d]. *)

Section SlabMultiply.
Variable sr : Semiring T.
Hypothesis CM : CommMonoid (sr_monoid sr).
Variable d : DType.
Hypothesis d_closed :
  forall x y, cast gb d x = x -> cast gb d y = y ->
              cast gb d (m_op (sr_monoid sr) x y) = m_op (sr_monoid sr) x y.
Hypothesis mult_closed :
  forall x y, cast gb d x = x -> cast gb d y = y ->
              cast gb d (sr_mult sr x y) = sr_mult sr x y.

(** The matrix of one column with the entries [c], and the partial
    product that holds it. *)
Definition column_matrix (dt : DType) (c : list (option T)) : Matrix T DType :=
  mkMatrix dt 1 (map (fun o => [o]) c).

Definition slab_part (c : list (option T)) : Inner T DType :=
  FakeInnerTensor (column_matrix d c).

(** The product of the rows of a block with a vector. *)
Definition rows_dot (rows : list (list (option T))) (x : list (option T))
  : list (option T) :=
  map (fun r => dot sr r x) rows.

Lemma zipw_app (A B C : Type) (f : A -> B -> C) (a a' : list A) (b b' : list B) :
  length a = length b ->
  zipw f (a ++ a') (b ++ b') = zipw f a b ++ zipw f a' b'.
Proof.
  revert b. induction a as [| x a IH]; intros [| y b] H; simpl in *;
    try discriminate; [reflexivity |].
  f_equal. apply IH. congruence.
Qed.

Lemma zipw_maps (A A' B B' C : Type) (f : A' -> B' -> C) (g : A -> A')
      (h : B -> B') (l : list A) (l' : list B) :
  zipw f (map g l) (map h l') = zipw (fun a b => f (g a) (h b)) l l'.
Proof.
  revert l'. induction l as [| a l IH]; intros [| b l']; simpl; auto.
  now rewrite IH.
Qed.

Lemma dot_app (r r' x x' : list (option T)) :
  length r = length x ->
  dot sr (r ++ r') (x ++ x')
  = union (m_op (sr_monoid sr)) (dot sr r x) (dot sr r' x').
Proof.
  intros H. unfold dot. rewrite zipw_app by exact H.
  apply (reduce_entries_app CM).
Qed.

Lemma exact_products (r x : list (option T)) :
  Forall (exact d) r -> Forall (exact d) x ->
  Forall (exact d) (zipw (times (sr_mult sr)) r x).
Proof.
  intros Hr. revert x. induction Hr as [| a r Ha _ IH]; intros x Hx.
  - constructor.
  - destruct Hx as [| b x Hb Hx]; [constructor |].
    cbn [zipw]. constructor; [| now apply IH].
    destruct a as [a |], b as [b |]; simpl in *; auto.
Qed.

Lemma exact_dot (r x : list (option T)) :
  Forall (exact d) r -> Forall (exact d) x -> exact d (dot sr r x).
Proof.
  intros Hr Hx. unfold dot.
  apply (exact_reduce_entries (sr_monoid sr) d_closed).
  now apply exact_products.
Qed.

Lemma exact_rows_dot (n : nat) (rows : list (list (option T))) (x : list (option T)) :
  length rows = n -> Forall (Forall (exact d)) rows -> Forall (exact d) x ->
  exact_line d n (rows_dot rows x).
Proof.
  intros Hn Hr Hx. split.
  - unfold rows_dot. now rewrite length_map.
  - unfold rows_dot. rewrite Forall_map. rewrite Forall_forall in Hr |- *.
    intros r Hin. apply exact_dot; auto.
Qed.

(** *** One block product *)

Lemma transpose_column (c : list (option T)) :
  transpose 1 (map (fun o => [o]) c) = [c].
Proof. unfold transpose. cbn [seq map]. now rewrite column_single_column. Qed.

Lemma product_block (A : Matrix T DType) (x : Vector T DType) :
  m_ncols A = size x -> exact_matrix d A -> exact_vector d x ->
  _matmul2 gb sr d (InnerMatrix A)
           (InnerMatrix (column_matrix (v_dtype x) (v_entries x))) false
  = Ok (slab_part (rows_dot (m_rows A) (v_entries x))).
Proof.
  intros Hs HA Hx. unfold _matmul2. cbn [value_of bind Gb_matmul].
  unfold Matrix_mxm, column_matrix, nrows. cbn [m_rows m_ncols pick].
  rewrite length_map. fold (size x). rewrite Hs, Nat.eqb_refl.
  cbn [bind FakeInnerTensor_init]. unfold slab_part, column_matrix.
  do 3 f_equal. rewrite transpose_column. unfold rows_dot. rewrite map_map.
  apply map_ext_in. intros r Hr. cbn [map]. f_equal.
  apply option_map_exact, exact_dot; [| exact Hx].
  unfold exact_matrix in HA. rewrite Forall_forall in HA. now apply HA.
Qed.

(** *** Summing the partial products *)

Lemma column_union_exact (c c' : list (option T)) :
  Forall (exact d) c -> Forall (exact d) c' ->
  zipw (fun a b => map (option_map (cast gb d))
                       (zipw (union (m_op (sr_monoid sr))) [a] [b])) c c'
  = map (fun o => [o]) (vsum (sr_monoid sr) c c').
Proof.
  intros Hc. revert c'. induction Hc as [| a c Ha _ IH]; intros c' Hc'.
  - reflexivity.
  - destruct Hc' as [| b c' Hb Hc']; [reflexivity |].
    unfold vsum in *. cbn [zipw map]. rewrite IH by exact Hc'.
    now rewrite (option_map_exact d _ (exact_union (sr_monoid sr) d d_closed _ _ Ha Hb)).
Qed.

Lemma ewise_add_columns (n : nat) (c c' : list (option T)) :
  exact_line d n c -> exact_line d n c' ->
  Gb_ewise_add gb (m_op (sr_monoid sr)) (GbMatrix (column_matrix d c))
               (GbMatrix (column_matrix d c')) None
  = Ok (GbMatrix (column_matrix d (vsum (sr_monoid sr) c c'))).
Proof.
  intros [Hc Ec] [Hc' Ec'].
  unfold Gb_ewise_add, Matrix_ewise_add, column_matrix, nrows.
  cbn [m_rows m_ncols m_dtype pick]. rewrite unify_same. rewrite !length_map, Hc, Hc', !Nat.eqb_refl.
  cbn [andb bind]. do 3 f_equal.
  rewrite zipw_maps. now apply column_union_exact.
Qed.

(** The partial products of one line are matrices [mat c] of one shape,
    a column or a row, that hold the entries [c]; their sum holds the
    sum of the entries. *)
Section Parts.
Variable mat : list (option T) -> Matrix T DType.
Variable entries_of : Matrix T DType -> list (option T).
Hypothesis entries_of_mat : forall c, entries_of (mat c) = c.
Hypothesis ewise_add_mat :
  forall n c c',
    exact_line d n c -> exact_line d n c' ->
    Gb_ewise_add gb (m_op (sr_monoid sr)) (GbMatrix (mat c)) (GbMatrix (mat c')) None
    = Ok (GbMatrix (mat (vsum (sr_monoid sr) c c'))).

Definition part (c : list (option T)) : Inner T DType := FakeInnerTensor (mat c).

Definition part_entries (b : Inner T DType) : list (option T) :=
  match b with
  | FakeInnerTensor m => entries_of m
  | _ => []
  end.

Definition part_block (n : nat) (b : Inner T DType) : Prop :=
  exists c, b = part c /\ exact_line d n c.

Lemma part_entries_part (c : list (option T)) : part_entries (part c) = c.
Proof. apply entries_of_mat. Qed.

Lemma part_blocks (n : nat) (line : list (list (option T))) :
  Forall (exact_line d n) line -> Forall (part_block n) (map part line).
Proof.
  intros H. rewrite Forall_map. rewrite Forall_forall in H |- *.
  intros c Hc. exists c. auto.
Qed.

Lemma foldM_ewise_add_mats (n : nat) (l : list (list (option T))) :
  forall c,
    exact_line d n c -> Forall (exact_line d n) l ->
    foldM (fun a b => Gb_ewise_add gb (m_op (sr_monoid sr)) a b None)
          (map (fun y => GbMatrix (mat y)) l) (GbMatrix (mat c))
    = Ok (GbMatrix (mat (fold_left (vsum (sr_monoid sr)) l c))).
Proof.
  induction l as [| y l IH]; intros c Hc Hl; [reflexivity |].
  inversion Hl as [| ? ? Hy Hl']; subst. cbn [map foldM fold_left].
  rewrite (ewise_add_mat Hc Hy). cbn [bind].
  apply IH; [now apply (exact_line_vsum (sr_monoid sr) d_closed) | exact Hl'].
Qed.

(** [_sum_by_monoid] on a list of partial products of one shape. *)
Lemma _sum_by_monoid_flat (n : nat) (cs : list (list (option T))) (keepdims : bool) :
  cs <> [] -> Forall (exact_line d n) cs ->
  _sum_by_monoid gb (sr_monoid sr) (Flat (map part cs)) keepdims
  = Ok (if keepdims
        then part (big (vsum (sr_monoid sr)) (repeat None n) cs)
        else InnerMatrix (mat (big (vsum (sr_monoid sr)) (repeat None n) cs))).
Proof.
  intros Hne H. destruct cs as [| c cs]; [contradiction |].
  inversion H as [| ? ? Hc Hcs]; subst.
  unfold _sum_by_monoid.
  assert (E : mapM (@value_of T DType) (map part (c :: cs))
              = Ok (map (fun y => GbMatrix (mat y)) (c :: cs))).
  { rewrite mapM_map. apply mapM_pure. }
  rewrite E. cbn [bind map reduce].
  rewrite (foldM_ewise_add_mats Hc Hcs). cbn [bind FakeInnerTensor_init].
  rewrite (@fold_left_big (list (option T)) (vsum (sr_monoid sr)) (repeat None n)
                          (exact_line d n)
                          (vsum_assoc CM) (vsum_comm CM)
                          (@vsum_unit (sr_monoid sr) d n)
                          (@exact_line_vsum (sr_monoid sr) d d_closed n)
                          cs c Hc Hcs).
  destruct keepdims; reflexivity.
Qed.

(** Without [keepdims], [_sum_by_monoid] re-wraps what it returns with
    [keepdims]. *)
Lemma _sum_by_monoid_keepdims (monoid : Monoid T) (a : Partials (Inner T DType)) :
  _sum_by_monoid gb monoid a false
  = (out <- _sum_by_monoid gb monoid a true ;;
     v <- value_of out ;; Ok (wrap_inner v)).
Proof.
  unfold _sum_by_monoid. cbn [negb].
  match goal with
  | |- (out <- ?c ;; _) = _ => destruct c; reflexivity
  end.
Qed.

(** The sum of one line of partial products, for every grouping of the
    scheduler. *)
Lemma sum_line (n : nat) (line : list (list (option T))) :
  line <> [] -> Forall (exact_line d n) line ->
  reduce_line sched
    (fun _ kd x => _sum_by_monoid gb (sr_monoid sr) (One x) kd)
    (fun _ kd x => _sum_by_monoid gb (sr_monoid sr) x kd)
    [1] false (map part line)
  = Ok (InnerMatrix (mat (big (vsum (sr_monoid sr)) (repeat None n) line))).
Proof.
  intros Hne H.
  assert (K : reduce_line sched
                (fun _ kd x => _sum_by_monoid gb (sr_monoid sr) (One x) kd)
                (fun _ kd x => _sum_by_monoid gb (sr_monoid sr) x kd)
                [1] true (map part line)
              = Ok (part (big (vsum (sr_monoid sr)) (repeat None n)
                              (map part_entries (map part line))))).
  { apply (@reduce_line_big
             (Inner T DType) (list (option T))
             (vsum (sr_monoid sr)) (repeat None n) (exact_line d n)
             (vsum_assoc CM) (vsum_comm CM) (@vsum_unit (sr_monoid sr) d n)
             (exact_line_unit d n)
             (@exact_line_vsum (sr_monoid sr) d d_closed n)
             part part_entries (part_block n)
             (fun x => _sum_by_monoid gb (sr_monoid sr) (One x) true)
             (fun x => _sum_by_monoid gb (sr_monoid sr) x true)).
    - intros a [c [-> _]]. now rewrite part_entries_part.
    - intros a [c [-> Hc]]. now rewrite part_entries_part.
    - intros xs Hxs Gxs. exact (_sum_by_monoid_flat true Hxs Gxs).
    - reflexivity.
    - reflexivity.
    - reflexivity.
    - intros C. apply map_eq_nil in C. contradiction.
    - now apply part_blocks. }
  rewrite map_map in K.
  rewrite (map_ext _ (fun c => c) part_entries_part), map_id in K.
  unfold reduce_line in *.
  destruct (mapM _ (plan1 sched (map part line))) as [xs | e];
    [| discriminate].
  cbn [bind] in *. rewrite _sum_by_monoid_keepdims, K. reflexivity.
Qed.
End Parts.

(** The partial products of [mxv] are columns. *)
Lemma sum_line_columns (n : nat) (line : list (list (option T))) :
  line <> [] -> Forall (exact_line d n) line ->
  reduce_line sched
    (fun _ kd x => _sum_by_monoid gb (sr_monoid sr) (One x) kd)
    (fun _ kd x => _sum_by_monoid gb (sr_monoid sr) x kd)
    [1] false (map slab_part line)
  = Ok (InnerMatrix (column_matrix d (big (vsum (sr_monoid sr))
                                          (repeat None n) line))).
Proof.
  apply (@sum_line (column_matrix d) (fun m => column 0 (m_rows m))).
  - intros c. unfold column_matrix. apply column_single_column.
  - intros k c c'. apply ewise_add_columns.
Qed.

(** *** The grid of partial products *)

(** The 1-dimensional operand lifted: one single-column block per
    block. *)
Definition colblock (x : Vector T DType) : Inner T DType :=
  InnerMatrix (column_matrix (v_dtype x) (v_entries x)).

(** A block of the matrix and the block of the vector it meets. *)
Definition conform (m : Matrix T DType) (x : Vector T DType) : Prop :=
  m_ncols m = size x /\ exact_matrix d m /\ exact_vector d x.

Definition block_product (m : Matrix T DType) (x : Vector T DType)
  : list (option T) :=
  rows_dot (m_rows m) (v_entries x).

Lemma lift_columns (xs : list (Vector T DType)) :
  map_blocks_new_axis (asOneColMatrix gb) 1
                      (Array1 (map (@InnerVector T DType) xs))
  = Ok (Array2 (map (fun y => [y]) (map colblock xs))).
Proof.
  unfold map_blocks_new_axis.
  assert (E : mapM (asOneColMatrix gb) (map (@InnerVector T DType) xs)
              = Ok (map colblock xs)).
  { rewrite mapM_map. apply mapM_ok. rewrite Forall_forall. intros x _.
    apply asOneColMatrix_value. }
  rewrite E. reflexivity.
Qed.

Lemma conform_row (h : nat) (widths : list nat) (row : list (Matrix T DType))
      (xs : list (Vector T DType)) :
  Forall2 (block_shape h) widths row ->
  Forall2 (fun w x => size x = w) widths xs ->
  Forall (exact_matrix d) row -> Forall (exact_vector d) xs ->
  Forall2 conform row xs.
Proof.
  intros H. revert xs.
  induction H as [| w m widths row [_ [Hw _]] _ IH]; intros xs Hx Er Ex;
    inversion Hx; subst; [constructor |].
  inversion Er; subst. inversion Ex; subst.
  constructor; [| now apply IH].
  unfold conform. split; [congruence | split; assumption].
Qed.

Lemma products_row (row : list (Matrix T DType)) (xs : list (Vector T DType)) :
  Forall2 conform row xs ->
  zipM (fun aij brow => mapM (fun y => _matmul2 gb sr d aij y false) brow)
       (map (@InnerMatrix T DType) row) (map (fun y => [y]) (map colblock xs))
  = Ok (map (fun p => [p]) (map slab_part (zipw block_product row xs))).
Proof.
  induction 1 as [| m x row xs [Hs [Hm Hx]] _ IH]; [reflexivity |].
  cbn [map zipM zipw]. rewrite mapM_cons. unfold colblock at 1.
  rewrite (product_block Hs Hm Hx). cbn [bind mapM]. rewrite IH.
  reflexivity.
Qed.

Lemma block_columns_single (A : Type) (ps : list A) :
  block_columns 1 (map (fun p => [p]) ps) = [ps].
Proof.
  unfold block_columns. induction ps as [| p ps IH]; [reflexivity |].
  cbn [map fold_right]. now rewrite IH.
Qed.

Lemma exact_block_products (h : nat) (row : list (Matrix T DType))
      (xs : list (Vector T DType)) :
  Forall2 conform row xs -> Forall (fun m => nrows m = h) row ->
  Forall (exact_line d h) (zipw block_product row xs).
Proof.
  induction 1 as [| m x row xs [Hs [Hm Hx]] _ IH]; intros Hh;
    [constructor |].
  inversion Hh; subst. cbn [zipw]. constructor; [| now apply IH].
  now apply exact_rows_dot.
Qed.

Lemma sum_slab (h : nat) (row : list (Matrix T DType)) (xs : list (Vector T DType)) :
  row <> [] ->
  Forall2 conform row xs -> Forall (fun m => nrows m = h) row ->
  mapM (reduce_line sched
          (fun _ kd x => _sum_by_monoid gb (sr_monoid sr) (One x) kd)
          (fun _ kd x => _sum_by_monoid gb (sr_monoid sr) x kd)
          [1] false)
       (block_columns
          (width (map (fun p => [p]) (map slab_part (zipw block_product row xs))))
          (map (fun p => [p]) (map slab_part (zipw block_product row xs))))
  = Ok [InnerMatrix
          (column_matrix d (big (vsum (sr_monoid sr)) (repeat None h)
                                (zipw block_product row xs)))].
Proof.
  intros Hne Hc Hh.
  assert (Z : zipw block_product row xs <> []).
  { destruct Hc; [contradiction | discriminate]. }
  assert (W : width (map (fun p => [p]) (map slab_part (zipw block_product row xs)))
              = 1).
  { destruct (zipw block_product row xs); [contradiction | reflexivity]. }
  rewrite W, block_columns_single. rewrite mapM_cons.
  rewrite (sum_line_columns Z (exact_block_products Hc Hh)). reflexivity.
Qed.

(** *** Block by block is row by row over the whole width *)

Lemma zipw_ext_Forall (A B C : Type) (P : A -> Prop) (f g : A -> B -> C)
      (l : list A) (l' : list B) :
  Forall P l -> (forall a b, P a -> f a b = g a b) ->
  zipw f l l' = zipw g l l'.
Proof.
  intros H E. revert l'. induction H as [| a l Ha _ IH]; intros [| b l'];
    try reflexivity.
  cbn [zipw]. now rewrite (E a b Ha), IH.
Qed.

Lemma rows_dot_hstack (h : nat) (row : list (Matrix T DType))
      (xs : list (Vector T DType)) :
  Forall2 conform row xs ->
  Forall (fun m => Forall (fun r => length r = m_ncols m) (m_rows m)) row ->
  big (vsum (sr_monoid sr)) (repeat None h) (zipw block_product row xs)
  = rows_dot (hstack_from h row) (concat (map (@v_entries T DType) xs)).
Proof.
  induction 1 as [| m x row xs [Hs _] _ IH]; intros Hw.
  - cbn [zipw big fold_right map concat hstack_from].
    unfold rows_dot. now rewrite map_repeat_const.
  - inversion Hw as [| ? ? Hm Hw']; subst.
    cbn [zipw map concat]. unfold big in *. cbn [fold_right].
    rewrite (IH Hw'). unfold hstack_from. cbn [fold_right].
    fold (hstack_from h row). unfold block_product, rows_dot, vsum.
    rewrite zipw_maps, map_zipw.
    apply (zipw_ext_Forall (P := fun r => length r = m_ncols m)); [exact Hm |].
    intros r r' Hr. symmetry. apply dot_app. unfold size in Hs. congruence.
Qed.

Lemma assembled_products (heights widths : list nat)
      (ms : list (list (Matrix T DType))) (X : list (option T)) :
  widths <> [] -> partitioned heights widths ms ->
  concat (zipw (fun h row => rows_dot (hstack_from h row) X) heights ms)
  = rows_dot (concat (map (@hstack T DType) ms)) X.
Proof.
  intros Hw. induction 1 as [| h row heights ms Hrow _ IH]; [reflexivity |].
  cbn [zipw concat map]. rewrite IH. unfold rows_dot. rewrite map_app.
  f_equal. unfold hstack.
  rewrite (height_of_row (h := h)); [reflexivity | |].
  - destruct Hrow; [contradiction | discriminate].
  - clear -Hrow. induction Hrow as [| w m ws row [Hm _] _ IHrow]; constructor;
      assumption.
Qed.
(** *** The deferred product of a matrix and a vector *)

Lemma length_concat_sizes (widths : list nat) (xs : list (Vector T DType)) :
  Forall2 (fun w x => size x = w) widths xs ->
  length (concat (map (@v_entries T DType) xs)) = list_sum widths.
Proof.
  induction 1 as [| w x widths xs Hx _ IH]; [reflexivity |].
  cbn [map concat list_sum]. rewrite length_app, IH. unfold size in Hx.
  now rewrite Hx.
Qed.

Lemma exact_concat_entries (xs : list (Vector T DType)) :
  Forall (exact_vector d) xs ->
  Forall (exact d) (concat (map (@v_entries T DType) xs)).
Proof.
  intros H. apply Forall_concat. now rewrite Forall_map.
Qed.

Lemma Forall2_right (A B : Type) (Q : B -> Prop) (l : list A) (l' : list B) :
  Forall2 (fun _ b => Q b) l l' -> Forall Q l'.
Proof. induction 1; constructor; auto. Qed.

Lemma mapM_zipw_ok (A B C D : Type) (F : C -> result D) (G : A -> B -> C)
      (K : A -> B -> D) (l : list A) (l' : list B) :
  (forall a b, F (G a b) = Ok (K a b)) ->
  mapM F (zipw G l l') = Ok (zipw K l l').
Proof.
  intros E. revert l'. induction l as [| a l IH]; intros [| b l'];
    try reflexivity.
  cbn [zipw]. now rewrite mapM_cons, E, IH.
Qed.

(** What a partition gives for every row of blocks. *)
Definition row_ok (xs : list (Vector T DType)) (h : nat)
           (row : list (Matrix T DType)) : Prop :=
  row <> [] /\ Forall2 conform row xs /\ Forall (fun m => nrows m = h) row /\
  Forall (fun m => Forall (fun r => length r = m_ncols m) (m_rows m)) row.

Lemma rows_ok (heights widths : list nat) (ms : list (list (Matrix T DType)))
      (xs : list (Vector T DType)) :
  partitioned heights widths ms -> widths <> [] ->
  Forall2 (fun w x => size x = w) widths xs ->
  Forall (Forall (exact_matrix d)) ms -> Forall (exact_vector d) xs ->
  Forall2 (row_ok xs) heights ms.
Proof.
  intros P Hw Sx Em Ex.
  induction P as [| h row heights ms Hrow _ IH]; [constructor |].
  inversion Em as [| ? ? Er Em']; subst.
  constructor; [| now apply IH].
  repeat split.
  - destruct Hrow; [contradiction | discriminate].
  - exact (conform_row Hrow Sx Er Ex).
  - clear -Hrow. induction Hrow as [| w m ws row [Hm _] _ IHrow]; constructor;
      assumption.
  - clear -Hrow. induction Hrow as [| w m ws row [_ [Hc Hl]] _ IHrow];
      constructor; [| assumption].
    now rewrite Hc.
Qed.

Lemma zipw_ext_Forall2 (A B C : Type) (R : A -> B -> Prop) (f g : A -> B -> C)
      (l : list A) (l' : list B) :
  Forall2 R l l' -> (forall a b, R a b -> f a b = g a b) ->
  zipw f l l' = zipw g l l'.
Proof.
  intros H E. induction H as [| a b l l' Hab _ IH]; [reflexivity |].
  cbn [zipw]. now rewrite (E a b Hab), IH.
Qed.

Lemma matmul2_mxv (mv : Vector T DType) (heights widths : list nat)
      (ms : list (list (Matrix T DType))) (xs : list (Vector T DType))
      (pmeta xmeta smeta : GbObject T DType) (name : string) :
  v_dtype mv = d ->
  partitioned heights widths ms -> widths <> [] ->
  Forall2 (fun w x => size x = w) widths xs ->
  Forall (Forall (exact_matrix d)) ms -> Forall (exact_vector d) xs ->
  GbDelayed__matmul2 gb sched
    (mkGbDelayed (mkCollection (Array2 (map (map (@InnerMatrix T DType)) ms)) pmeta)
                 name
                 [Collected (mkCollection (Array1 (map (@InnerVector T DType) xs))
                                          xmeta);
                  Const (ArgSemiring sr)]
                 [] smeta)
    (GbVector mv)
  = Ok (Array1
          (map (@InnerVector T DType)
               (map (mkVector d)
                    (zipw (fun h row =>
                             big (vsum (sr_monoid sr)) (repeat None h)
                                 (zipw block_product row xs))
                          heights ms)))).
Proof.
  intros Hd P Hw Sx Em Ex.
  pose proof (rows_ok P Hw Sx Em Ex) as R.
  unfold GbDelayed__matmul2.
  cbn [args parent c_delayed arg_delayed arg_semiring nth_error bind ndim Nat.eqb
       wrap_inner dtype_of].
  rewrite asOneColMatrix_value, lift_columns. cbn [bind value_of FakeInnerTensor_init].
  rewrite Hd.
  (* the grid of partial products *)
  unfold blockwise_ij_jk. rewrite mapM_map.
  rewrite (@mapM_ok _ _ _
             (fun row => map (fun p => [p])
                             (map slab_part (zipw block_product row xs))) ms).
  2:{ apply Forall2_right with (l := heights).
      eapply Forall2_weaken; [| exact R].
      intros h row (_ & C & _). exact (products_row C). }
  cbn [bind].
  (* the sum over the contracted axis *)
  unfold sum_by_monoid, reduction. rewrite mapM_map.
  rewrite (@mapM_Forall2 _ _ _ _
             (fun h row =>
                [InnerMatrix
                   (column_matrix d (big (vsum (sr_monoid sr)) (repeat None h)
                                         (zipw block_product row xs)))])
             heights ms).
  2:{ eapply Forall2_weaken; [| exact R].
      intros h row (N & C & Hh & _). exact (sum_slab N C Hh). }
  cbn [bind].
  (* the added axis is dropped *)
  unfold drop_col_axis.
  rewrite (@mapM_zipw_ok _ _ _ _ _ _
             (fun h row =>
                InnerVector
                  (mkVector d (big (vsum (sr_monoid sr)) (repeat None h)
                                   (zipw block_product row xs))))).
  2:{ intros h row. unfold as_inner_vector, column_matrix.
      now rewrite unlift_column. }
  cbn [bind]. now rewrite !map_zipw.
Qed.

(** X15.  A matrix partitioned into a grid of blocks, times a vector
    partitioned like the columns of the grid ([mxv]; [new] takes the same
    path for [vxm]): the deferred product materializes, for every
    grouping that the scheduler chooses, to the product of the
    unpartitioned matrix and vector under the same semiring.  The
    semiring stays within the dtype [d] of the materialization and the
    stored values of the operands are values of [d]. *)
Theorem mxv_partitioned_product :
  forall (dtype : option DType) (mv : Vector T DType)
         (heights widths : list nat) (ms : list (list (Matrix T DType)))
         (xs : list (Vector T DType)) (pmeta xmeta : GbObject T DType)
         (name : string),
    name_in name ["vxm"; "mxv"]%string = true ->
    dtype_of (meta_new gb (GbVector mv) dtype None) = d ->
    partitioned heights widths ms -> heights <> [] -> widths <> [] ->
    Forall2 (fun w x => size x = w) widths xs ->
    Forall (Forall (exact_matrix d)) ms -> Forall (exact_vector d) xs ->
    exists r,
      (A <- compute (mkCollection (Array2 (map (map (@InnerMatrix T DType)) ms))
                                  pmeta) ;;
       x <- compute (mkCollection (Array1 (map (@InnerVector T DType) xs)) xmeta) ;;
       Gb_matmul gb sr A x (Some d)) = Ok r /\
      (c <- GbDelayed_new gb sched
              (mkGbDelayed
                 (mkCollection (Array2 (map (map (@InnerMatrix T DType)) ms)) pmeta)
                 name
                 [Collected (mkCollection (Array1 (map (@InnerVector T DType) xs))
                                          xmeta);
                  Const (ArgSemiring sr)]
                 [] (GbVector mv))
              dtype None ;;
       compute c) = Ok r.
Proof.
  intros dtype mv heights widths ms xs pmeta xmeta name Hname Hd P Hh Hw Sx Em Ex.
  exists (GbVector (mkVector d (rows_dot (concat (map (@hstack T DType) ms))
                                         (concat (map (@v_entries T DType) xs))))).
  split.
  - rewrite compute_matrix_blocks, compute_vector_blocks.
    cbn [bind Gb_matmul]. unfold size. cbn [m_ncols m_rows v_entries pick].
    destruct P as [| h row heights ms Hrow P]; [contradiction |].
    cbn [hd]. rewrite (ncols_of_row Hrow), (length_concat_sizes Sx), Nat.eqb_refl.
    do 3 f_equal. unfold rows_dot. apply map_ext_in. intros r Hr.
    apply option_map_exact, exact_dot; [| now apply exact_concat_entries].
    pose proof (exact_assembled Em) as E. rewrite Forall_forall in E.
    now apply E.
  - assert (N : GbDelayed_new gb sched
                  (mkGbDelayed
                     (mkCollection (Array2 (map (map (@InnerMatrix T DType)) ms))
                                   pmeta)
                     name
                     [Collected (mkCollection
                                   (Array1 (map (@InnerVector T DType) xs)) xmeta);
                      Const (ArgSemiring sr)]
                     [] (GbVector mv))
                  dtype None
                = (delayed <- GbDelayed__matmul2 gb sched
                                (mkGbDelayed
                                   (mkCollection
                                      (Array2 (map (map (@InnerMatrix T DType)) ms))
                                      pmeta)
                                   name
                                   [Collected (mkCollection
                                                 (Array1 (map (@InnerVector T DType) xs))
                                                 xmeta);
                                    Const (ArgSemiring sr)]
                                   [] (GbVector mv))
                                (meta_new gb (GbVector mv) dtype None) ;;
                   Ok (get_return_type (meta_new gb (GbVector mv) dtype None)
                                       delayed))).
    { rewrite !name_in_cons in Hname. simpl in Hname.
      rewrite orb_false_r in Hname. unfold GbDelayed_new. cbn [method_name].
      apply orb_true_iff in Hname. destruct Hname as [E | E];
        apply String.eqb_eq in E; rewrite E; reflexivity. }
    rewrite N. clear N.
    assert (M : exists mv', meta_new gb (GbVector mv) dtype None = GbVector mv').
    { destruct dtype; eexists; reflexivity. }
    destruct M as [mv' M]. rewrite M in *. cbn [dtype_of] in Hd.
    rewrite (@matmul2_mxv mv' heights widths ms xs pmeta xmeta (GbVector mv) name
                          Hd P Hw Sx Em Ex).
    cbn [bind]. unfold get_return_type. rewrite compute_vector_blocks.
    cbn [dtype_of]. rewrite Hd. do 3 f_equal.
    rewrite map_map. cbn [v_entries]. rewrite map_id.
    rewrite <- (@assembled_products heights widths ms _ Hw P).
    f_equal. eapply zipw_ext_Forall2; [exact (rows_ok P Hw Sx Em Ex) |].
    intros h row (_ & C & _ & W). exact (rows_dot_hstack h C W).
Qed.

(** *** The deferred product of a vector and a matrix *)

(** The matrix of one row with the entries [c], the partial product
    that holds it, and the 1-dimensional operand lifted to single-row
    blocks. *)
Definition row_matrix (dt : DType) (c : list (option T)) : Matrix T DType :=
  mkMatrix dt (length c) [c].

Definition row_part (c : list (option T)) : Inner T DType :=
  FakeInnerTensor (row_matrix d c).

Definition rowblock (x : Vector T DType) : Inner T DType :=
  InnerMatrix (row_matrix (v_dtype x) (v_entries x)).

(** The product of a vector with the columns of a list of rows. *)
Definition cols_dot (x : list (option T)) (w : nat) (rows : list (list (option T)))
  : list (option T) :=
  map (fun c => dot sr x c) (transpose w rows).

Lemma length_cols_dot (x : list (option T)) (w : nat) (rows : list (list (option T))) :
  length (cols_dot x w rows) = w.
Proof. unfold cols_dot, transpose. now rewrite !length_map, length_seq. Qed.

Lemma exact_cols_dot (x : list (option T)) (w : nat) (rows : list (list (option T))) :
  Forall (exact d) x -> Forall (Forall (exact d)) rows ->
  exact_line d w (cols_dot x w rows).
Proof.
  intros Hx Hr. split; [apply length_cols_dot |].
  unfold cols_dot, transpose. rewrite !Forall_map, Forall_forall.
  intros j _. apply exact_dot; [exact Hx | now apply exact_column].
Qed.

Lemma ewise_add_rows (n : nat) (c c' : list (option T)) :
  exact_line d n c -> exact_line d n c' ->
  Gb_ewise_add gb (m_op (sr_monoid sr)) (GbMatrix (row_matrix d c))
               (GbMatrix (row_matrix d c')) None
  = Ok (GbMatrix (row_matrix d (vsum (sr_monoid sr) c c'))).
Proof.
  intros Hc Hc'.
  pose proof (exact_line_vsum (sr_monoid sr) d_closed Hc Hc') as [L E].
  destruct Hc as [Hc _], Hc' as [Hc' _].
  unfold Gb_ewise_add, Matrix_ewise_add, row_matrix, nrows.
  cbn [m_rows m_ncols m_dtype pick length].
  rewrite unify_same, Hc, Hc', !Nat.eqb_refl.
  cbn [andb bind zipw]. fold (vsum (sr_monoid sr) c c').
  rewrite (map_cast_exact E), L. reflexivity.
Qed.

(** The partial products of [vxm] are rows. *)
Lemma sum_line_rows (n : nat) (line : list (list (option T))) :
  line <> [] -> Forall (exact_line d n) line ->
  reduce_line sched
    (fun _ kd x => _sum_by_monoid gb (sr_monoid sr) (One x) kd)
    (fun _ kd x => _sum_by_monoid gb (sr_monoid sr) x kd)
    [1] false (map row_part line)
  = Ok (InnerMatrix (row_matrix d (big (vsum (sr_monoid sr))
                                       (repeat None n) line))).
Proof.
  apply (@sum_line (row_matrix d) (fun m => hd [] (m_rows m))).
  - reflexivity.
  - intros k c c'. apply ewise_add_rows.
Qed.

Lemma product_block_row (x : Vector T DType) (B : Matrix T DType) :
  size x = nrows B -> exact_vector d x -> exact_matrix d B ->
  _matmul2 gb sr d (rowblock x) (InnerMatrix B) false
  = Ok (row_part (cols_dot (v_entries x) (m_ncols B) (m_rows B))).
Proof.
  intros Hs Hx HB. unfold _matmul2, rowblock. cbn [value_of bind Gb_matmul].
  unfold Matrix_mxm, row_matrix. cbn [m_rows m_ncols pick].
  fold (size x). rewrite Hs, Nat.eqb_refl.
  cbn [bind FakeInnerTensor_init map]. unfold row_part, row_matrix.
  rewrite length_cols_dot. do 3 f_equal. f_equal.
  unfold cols_dot. apply map_ext_in. intros c Hc.
  apply option_map_exact, exact_dot; [exact Hx |].
  unfold transpose in Hc. apply in_map_iff in Hc. destruct Hc as [j [<- _]].
  now apply exact_column.
Qed.

Lemma lift_rows (xs : list (Vector T DType)) :
  map_blocks_new_axis (asOneRowMatrix gb) 0
                      (Array1 (map (@InnerVector T DType) xs))
  = Ok (Array2 [map rowblock xs]).
Proof.
  unfold map_blocks_new_axis.
  assert (E : mapM (asOneRowMatrix gb) (map (@InnerVector T DType) xs)
              = Ok (map rowblock xs)).
  { rewrite mapM_map. apply mapM_ok. rewrite Forall_forall. intros x _.
    apply asOneRowMatrix_value. }
  rewrite E. reflexivity.
Qed.

(** A block of the vector and the row of blocks of the matrix it
    meets. *)
Definition meets (widths : list nat) (h : nat) (x : Vector T DType)
           (row : list (Matrix T DType)) : Prop :=
  size x = h /\ exact_vector d x /\ Forall (exact_matrix d) row /\
  Forall2 (block_shape h) widths row.

Definition row_products (x : Vector T DType) (row : list (Matrix T DType))
  : list (list (option T)) :=
  map (fun m => cols_dot (v_entries x) (m_ncols m) (m_rows m)) row.

Lemma products_of_row (widths : list nat) (h : nat) (x : Vector T DType)
      (row : list (Matrix T DType)) :
  meets widths h x row ->
  mapM (fun y => _matmul2 gb sr d (rowblock x) y false)
       (map (@InnerMatrix T DType) row)
  = Ok (map row_part (row_products x row)).
Proof.
  intros (Hs & Hx & Hr & Hb). unfold row_products. rewrite mapM_map, map_map.
  apply mapM_ok.
  induction Hb as [| w m ws row [Hm _] _ IH]; [constructor |].
  inversion Hr; subst. constructor; [| now apply IH].
  apply product_block_row; [congruence | assumption | assumption].
Qed.

Lemma meets_rows (heights widths : list nat) (ms : list (list (Matrix T DType)))
      (xs : list (Vector T DType)) :
  partitioned heights widths ms ->
  Forall2 (fun h x => size x = h) heights xs ->
  Forall (Forall (exact_matrix d)) ms -> Forall (exact_vector d) xs ->
  Forall2 (fun x row => exists h, meets widths h x row) xs ms.
Proof.
  intros P. revert xs.
  induction P as [| h row heights ms Hrow _ IH]; intros xs Sx Em Ex;
    inversion Sx; subst; [constructor |].
  inversion Em; subst. inversion Ex; subst.
  constructor; [| now apply IH].
  eexists. unfold meets. split; [reflexivity |]. auto.
Qed.

Lemma products_grid (widths : list nat) (ms : list (list (Matrix T DType)))
      (xs : list (Vector T DType)) :
  Forall2 (fun x row => exists h, meets widths h x row) xs ms ->
  zipM (fun aij brow => mapM (fun y => _matmul2 gb sr d aij y false) brow)
       (map rowblock xs) (map (map (@InnerMatrix T DType)) ms)
  = Ok (map (map row_part) (zipw row_products xs ms)).
Proof.
  induction 1 as [| x row xs ms [h M] _ IH]; [reflexivity |].
  cbn [map zipM zipw]. rewrite (products_of_row M). cbn [bind].
  rewrite IH. reflexivity.
Qed.

Lemma exact_row_products (widths : list nat) (ms : list (list (Matrix T DType)))
      (xs : list (Vector T DType)) :
  Forall2 (fun x row => exists h, meets widths h x row) xs ms ->
  Forall (fun line => Forall2 (exact_line d) widths line)
         (zipw row_products xs ms).
Proof.
  induction 1 as [| x row xs ms [h (Hs & Hx & Hr & Hb)] _ IH]; [constructor |].
  cbn [zipw]. constructor; [| exact IH].
  unfold row_products. clear IH.
  induction Hb as [| w m ws row [_ [Hw _]] _ IHb]; [constructor |].
  inversion Hr; subst. cbn [map]. constructor; [| now apply IHb].
  now apply exact_cols_dot.
Qed.

(** The sum over the contracted axis of a grid of row products. *)
Lemma sum_grid (widths : list nat) (G : list (list (list (option T)))) :
  G <> [] -> Forall (fun line => Forall2 (exact_line d) widths line) G ->
  mapM (reduce_line sched
          (fun _ kd x => _sum_by_monoid gb (sr_monoid sr) (One x) kd)
          (fun _ kd x => _sum_by_monoid gb (sr_monoid sr) x kd)
          [1] false)
       (block_columns (width (map (map row_part) G)) (map (map row_part) G))
  = Ok (map (fun c => InnerMatrix (row_matrix d c))
            (zipw (fun w col => big (vsum (sr_monoid sr)) (repeat None w) col)
                  widths (block_columns (length widths) G))).
Proof.
  intros Hne H.
  assert (W : width (map (map row_part) G) = length widths).
  { destruct H as [| line G Hl _]; [contradiction |].
    unfold width. cbn [map hd]. rewrite length_map. symmetry.
    eapply Forall2_length; eauto. }
  rewrite W, block_columns_map, mapM_map, map_zipw.
  apply mapM_Forall2.
  eapply Forall2_weaken; [| exact (block_columns_nonempty Hne H)].
  intros w col [Hc Hcol]. now apply sum_line_rows.
Qed.

(** *** Column by column over the blocks is column by column over the
    whole height *)

Lemma cols_dot_zipw_app (x : list (option T)) (w w' : nat)
      (X Y : list (list (option T))) :
  Forall (fun r => length r = w) X -> length X = length Y ->
  cols_dot x (w + w') (zipw (@app (option T)) X Y)
  = cols_dot x w X ++ cols_dot x w' Y.
Proof.
  intros H HL. unfold cols_dot, transpose.
  rewrite seq_app, !map_app, !map_map. f_equal.
  - apply map_ext_in. intros j Hj. apply in_seq in Hj.
    rewrite column_zipw_app_left with (w := w);
      [reflexivity | assumption | assumption | lia].
  - simpl. rewrite (seq_from w w'), map_map.
    apply map_ext. intros j.
    rewrite column_zipw_app_right; [reflexivity | assumption | assumption].
Qed.

Lemma cols_dot_hstack_from (x : list (option T)) (h : nat) (ws : list nat)
      (row : list (Matrix T DType)) :
  Forall2 (block_shape h) ws row ->
  cols_dot x (list_sum ws) (hstack_from h row)
  = concat (map (fun m => cols_dot x (m_ncols m) (m_rows m)) row).
Proof.
  induction 1 as [| w m ws row [Hh [Hw Hr]] Hrow IH]; simpl.
  - reflexivity.
  - fold (hstack_from h row). rewrite cols_dot_zipw_app.
    + now rewrite IH, Hw.
    + exact Hr.
    + rewrite (length_hstack_from (Forall2_nrows Hrow)). exact Hh.
Qed.

Lemma cols_dot_app (x x' : list (option T)) (w : nat)
      (R R' : list (list (option T))) :
  length x = length R ->
  cols_dot (x ++ x') w (R ++ R')
  = vsum (sr_monoid sr) (cols_dot x w R) (cols_dot x' w R').
Proof.
  intros H. unfold cols_dot, transpose, vsum. rewrite !map_map, zipw_map_map.
  apply map_ext. intros j. rewrite column_app. apply dot_app.
  unfold column. now rewrite length_map.
Qed.

Lemma cols_dot_nil (w : nat) : cols_dot [] w [] = repeat None w.
Proof.
  unfold cols_dot, transpose. rewrite map_map.
  exact (map_const_seq (@None T) 0 w).
Qed.

Lemma cols_dot_assembled (heights widths : list nat)
      (ms : list (list (Matrix T DType))) (xs : list (Vector T DType)) :
  partitioned heights widths ms -> widths <> [] ->
  Forall2 (fun h x => size x = h) heights xs ->
  cols_dot (concat (map (@v_entries T DType) xs)) (list_sum widths)
           (concat (map (@hstack T DType) ms))
  = big (vsum (sr_monoid sr)) (repeat None (list_sum widths))
        (map (@concat (option T)) (zipw row_products xs ms)).
Proof.
  intros P Hw. revert xs.
  induction P as [| h row heights ms Hrow _ IH]; intros xs Sx;
    inversion Sx as [| ? x ? xs' Hx Sx']; subst.
  - apply cols_dot_nil.
  - cbn [map concat zipw]. unfold big in *. cbn [fold_right].
    assert (Hh : height row = size x).
    { apply height_of_row; [| exact (Forall2_nrows Hrow)].
      destruct Hrow; [contradiction | discriminate]. }
    rewrite cols_dot_app.
    + rewrite (IH xs' Sx'). f_equal. unfold hstack. rewrite Hh.
      exact (cols_dot_hstack_from (v_entries x) Hrow).
    + unfold hstack. rewrite Hh, (length_hstack_from (Forall2_nrows Hrow)).
      reflexivity.
Qed.

Lemma length_assembled (heights widths : list nat)
      (ms : list (list (Matrix T DType))) :
  partitioned heights widths ms -> widths <> [] ->
  length (concat (map (@hstack T DType) ms)) = list_sum heights.
Proof.
  intros P Hw. induction P as [| h row heights ms Hrow _ IH]; [reflexivity |].
  cbn [map concat]. change (list_sum (h :: heights)) with (h + list_sum heights).
  rewrite length_app, IH. f_equal.
  unfold hstack. rewrite (height_of_row (h := h)).
  - exact (length_hstack_from (Forall2_nrows Hrow)).
  - destruct Hrow; [contradiction | discriminate].
  - exact (Forall2_nrows Hrow).
Qed.

Lemma length_concat_heights (heights : list nat) (xs : list (Vector T DType)) :
  Forall2 (fun h x => size x = h) heights xs ->
  length (concat (map (@v_entries T DType) xs)) = list_sum heights.
Proof. apply length_concat_sizes. Qed.

Lemma matmul2_vxm (mv : Vector T DType) (heights widths : list nat)
      (ms : list (list (Matrix T DType))) (xs : list (Vector T DType))
      (pmeta xmeta smeta : GbObject T DType) (name : string) :
  v_dtype mv = d ->
  partitioned heights widths ms -> heights <> [] ->
  Forall2 (fun h x => size x = h) heights xs ->
  Forall (Forall (exact_matrix d)) ms -> Forall (exact_vector d) xs ->
  GbDelayed__matmul2 gb sched
    (mkGbDelayed (mkCollection (Array1 (map (@InnerVector T DType) xs)) xmeta)
                 name
                 [Collected (mkCollection
                               (Array2 (map (map (@InnerMatrix T DType)) ms)) pmeta);
                  Const (ArgSemiring sr)]
                 [] smeta)
    (GbVector mv)
  = Ok (Array1
          (map (@InnerVector T DType)
               (map (mkVector d)
                    (zipw (fun w col =>
                             big (vsum (sr_monoid sr)) (repeat None w) col)
                          widths
                          (block_columns (length widths)
                                         (zipw row_products xs ms)))))).
Proof.
  intros Hd P Hh Sx Em Ex.
  pose proof (meets_rows P Sx Em Ex) as R.
  assert (G : zipw row_products xs ms <> []).
  { inversion P as [| h row hs ms' Hrow P']; subst; [contradiction |].
    inversion R; subst. discriminate. }
  unfold GbDelayed__matmul2.
  cbn [args parent c_delayed arg_delayed arg_semiring nth_error bind ndim Nat.eqb
       wrap_inner dtype_of].
  rewrite asOneRowMatrix_value, lift_rows. cbn [bind value_of FakeInnerTensor_init].
  rewrite Hd.
  unfold blockwise_ij_jk. rewrite mapM_cons, (products_grid R). cbn [bind mapM].
  unfold sum_by_monoid, reduction. rewrite mapM_cons.
  rewrite (sum_grid G (exact_row_products R)). cbn [bind mapM].
  unfold drop_row_axis. rewrite mapM_map.
  rewrite (@mapM_ok _ _ _ (fun c => InnerVector (mkVector d c))).
  2:{ rewrite Forall_forall. intros c _. unfold as_inner_vector, row_matrix.
      now rewrite unlift_row. }
  cbn [bind]. now rewrite map_map.
Qed.

(** X16.  A vector times a matrix partitioned into a grid of blocks, the vector
    partitioned like the rows of the grid ([vxm]): the deferred product
    materializes, for every grouping that the scheduler chooses, to the
    product of the unpartitioned vector and matrix under the same
    semiring.  The semiring stays within the dtype [d] of the
    materialization and the stored values of the operands are values of
    [d]. *)
Theorem vxm_partitioned_product :
  forall (dtype : option DType) (mv : Vector T DType)
         (heights widths : list nat) (ms : list (list (Matrix T DType)))
         (xs : list (Vector T DType)) (pmeta xmeta : GbObject T DType)
         (name : string),
    name_in name ["vxm"; "mxv"]%string = true ->
    dtype_of (meta_new gb (GbVector mv) dtype None) = d ->
    partitioned heights widths ms -> heights <> [] -> widths <> [] ->
    Forall2 (fun h x => size x = h) heights xs ->
    Forall (Forall (exact_matrix d)) ms -> Forall (exact_vector d) xs ->
    exists r,
      (x <- compute (mkCollection (Array1 (map (@InnerVector T DType) xs)) xmeta) ;;
       B <- compute (mkCollection (Array2 (map (map (@InnerMatrix T DType)) ms))
                                  pmeta) ;;
       Gb_matmul gb sr x B (Some d)) = Ok r /\
      (c <- GbDelayed_new gb sched
              (mkGbDelayed
                 (mkCollection (Array1 (map (@InnerVector T DType) xs)) xmeta)
                 name
                 [Collected (mkCollection
                               (Array2 (map (map (@InnerMatrix T DType)) ms)) pmeta);
                  Const (ArgSemiring sr)]
                 [] (GbVector mv))
              dtype None ;;
       compute c) = Ok r.
Proof.
  intros dtype mv heights widths ms xs pmeta xmeta name Hname Hd P Hh Hw Sx Em Ex.
  exists (GbVector (mkVector d (cols_dot (concat (map (@v_entries T DType) xs))
                                         (list_sum widths)
                                         (concat (map (@hstack T DType) ms))))).
  split.
  - rewrite compute_vector_blocks, compute_matrix_blocks.
    cbn [bind Gb_matmul]. unfold size, nrows. cbn [m_ncols m_rows v_entries pick].
    rewrite (length_concat_heights Sx), (length_assembled P Hw), Nat.eqb_refl.
    destruct P as [| h row heights ms Hrow P]; [contradiction |].
    cbn [hd]. rewrite (ncols_of_row Hrow).
    do 3 f_equal. unfold cols_dot. apply map_ext_in. intros c Hc.
    apply option_map_exact, exact_dot; [now apply exact_concat_entries |].
    unfold transpose in Hc. apply in_map_iff in Hc. destruct Hc as [j [<- _]].
    apply exact_column. exact (exact_assembled Em).
  - assert (N : forall self : GbDelayed T DType,
               method_name self = name ->
               GbDelayed_new gb sched self dtype None
               = (delayed <- GbDelayed__matmul2 gb sched self
                               (meta_new gb (gd_meta self) dtype None) ;;
                  Ok (get_return_type (meta_new gb (gd_meta self) dtype None)
                                      delayed))).
    { intros self Hs. rewrite !name_in_cons in Hname. simpl in Hname.
      rewrite orb_false_r in Hname. unfold GbDelayed_new. rewrite Hs.
      apply orb_true_iff in Hname. destruct Hname as [E | E];
        apply String.eqb_eq in E; rewrite E; reflexivity. }
    rewrite N by reflexivity. clear N. cbn [gd_meta].
    assert (M : exists mv', meta_new gb (GbVector mv) dtype None = GbVector mv').
    { destruct dtype; eexists; reflexivity. }
    destruct M as [mv' M]. rewrite M in *. cbn [dtype_of] in Hd.
    rewrite (@matmul2_vxm mv' heights widths ms xs pmeta xmeta (GbVector mv) name
                          Hd P Hh Sx Em Ex).
    cbn [bind]. unfold get_return_type. rewrite compute_vector_blocks.
    cbn [dtype_of]. rewrite Hd. do 3 f_equal.
    rewrite map_map. cbn [v_entries]. rewrite map_id.
    rewrite (cols_dot_assembled P Hw Sx).
    apply concat_columns.
    pose proof (exact_row_products (meets_rows P Sx Em Ex)) as E.
    rewrite Forall_forall in E |- *. intros line Hl.
    eapply Forall2_weaken; [| exact (E line Hl)].
    now intros w c [L _].
Qed.
End SlabMultiply.
(* ------------------------------------------------------------------ *)
(** ** The contraction in one call ([_matmul]) *)

(** A positional argument of [_matmul]: a block, or the list of the
    blocks of one operand along the contracted index. *)
Inductive MatmulArg : Type :=
| OneBlock (b : Inner T DType)
| BlockList (bs : list (Inner T DType)).

(** Iterating over an argument in [zip(a_blocks, b_blocks)], and reading
    [.value] of one. *)
Definition blocks_of (a : MatmulArg) : result (list (Inner T DType)) :=
  match a with
  | BlockList bs => Ok bs
  | OneBlock _ => Raise TypeError
  end.

Definition block_value (a : MatmulArg) : result (GbObject T DType) :=
  match a with
  | OneBlock b => value_of b
  | BlockList _ => Raise AttributeError
  end.

(** [[op(a.value @ b.value).new(dtype=dtype) for a, b in zip(a_blocks,
    b_blocks)]] *)
Definition block_products (op : Semiring T) (dtype : DType)
           (a_blocks b_blocks : list (Inner T DType))
  : result (list (GbObject T DType)) :=
  mapM (fun p => va <- value_of (fst p) ;;
                 vb <- value_of (snd p) ;;
                 Gb_matmul gb op va vb (Some dtype))
       (combine a_blocks b_blocks).

(** [_matmul(op, dtype, not_updating, no_mask, mask_type, accum, *args,
    computing_meta=None)]; in the updating case the result is the block
    [u] after the write into its value. *)
Definition _matmul (op : Semiring T) (dtype : DType) (not_updating no_mask : bool)
           (mask_type : option MaskKind) (accum : option (T -> T -> T))
           (args : list MatmulArg) (computing_meta : bool)
  : result (Inner T DType) :=
  if computing_meta then Ok (NpEmpty T dtype)
  else if not_updating then
    match args with
    | [a; b] =>
        a_blocks <- blocks_of a ;;
        b_blocks <- blocks_of b ;;
        vals <- block_products op dtype a_blocks b_blocks ;;
        r <- reduce (fun x y => Gb_ewise_add gb (m_op (sr_monoid op)) x y None)
                    vals ;;
        Ok (wrap_inner r)
    | _ => Raise (ValueError "wrong number of values to unpack")
    end
  else
    p <- (if no_mask then
            match args with
            | [u; a; b] => Ok (u, None, a, b)
            | _ => Raise (ValueError "wrong number of values to unpack")
            end
          else
            match args with
            | [u; mask; a; b] =>
                mv <- block_value mask ;;
                match mask_type with
                | Some k => Ok (u, Some (k, mv), a, b)
                | None => Raise TypeError
                end
            | _ => Raise (ValueError "wrong number of values to unpack")
            end) ;;
    let '(u, mask, a, b) := p in
    a_blocks <- blocks_of a ;;
    b_blocks <- blocks_of b ;;
    vals <- block_products op dtype a_blocks b_blocks ;;
    gb_obj <- reduce (fun x y => Gb_ewise_add gb (m_op (sr_monoid op)) x y None)
                     vals ;;
    uv <- block_value u ;;
    r <- gb_assign gb uv accum mask None gb_obj ;;
    Ok (wrap_inner r).

Lemma foldM_ewise_add_matrices (f : T -> T -> T) (ms : list (Matrix T DType)) :
  forall (acc : Matrix T DType) (r : GbObject T DType),
    foldM (fun a b => Gb_ewise_add gb f a b None)
          (map (@GbMatrix T DType) ms) (GbMatrix acc) = Ok r ->
    exists m, r = GbMatrix m.
Proof.
  induction ms as [| m ms IH]; intros acc r.
  - intros [= <-]. now exists acc.
  - cbn [map foldM Gb_ewise_add].
    destruct (Matrix_ewise_add gb f acc m None) as [acc' | e];
      [| discriminate].
    cbn [bind]. apply IH.
Qed.

Lemma products_of_matrices (op : Semiring T) (dtype : DType)
      (l : list (Matrix T DType * Matrix T DType)) :
  mapM (fun p => va <- value_of (InnerMatrix (fst p)) ;;
                 vb <- value_of (InnerMatrix (snd p)) ;;
                 Gb_matmul gb op va vb (Some dtype)) l
  = fmap (map (@GbMatrix T DType))
         (mapM (fun p => Matrix_mxm gb op (fst p) (snd p) (Some dtype)) l) /\
  mapM (fun p => _matmul2 gb op dtype (InnerMatrix (fst p)) (InnerMatrix (snd p))
                          false) l
  = fmap (map (@FakeInnerTensor T DType))
         (mapM (fun p => Matrix_mxm gb op (fst p) (snd p) (Some dtype)) l).
Proof.
  induction l as [| [a b] l [IH1 IH2]]; [split; reflexivity |].
  rewrite !mapM_cons, IH1, IH2. unfold _matmul2.
  cbn [fst snd value_of bind Gb_matmul].
  destruct (Matrix_mxm gb op a b (Some dtype)) as [m | e];
    [| split; reflexivity].
  cbn [bind FakeInnerTensor_init].
  destruct (mapM (fun p => Matrix_mxm gb op (fst p) (snd p) (Some dtype)) l);
    split; reflexivity.
Qed.

Lemma combine_map (A B A' B' : Type) (f : A -> A') (g : B -> B')
      (l : list A) (l' : list B) :
  combine (map f l) (map g l') = map (fun p => (f (fst p), g (snd p))) (combine l l').
Proof.
  revert l'. induction l as [| a l IH]; intros [| b l']; simpl; auto.
  now rewrite IH.
Qed.

Lemma combine_app_left (A B : Type) (l extra : list A) (l' : list B) :
  length l = length l' -> combine (l ++ extra) l' = combine l l'.
Proof.
  revert l'. induction l as [| a l IH]; intros [| b l'] H; simpl in *;
    try discriminate.
  - now destruct extra.
  - f_equal. apply IH. congruence.
Qed.

(** X17.  [_matmul] without a target contracts one line of blocks in one call.
    It reads neither the mask type nor the accumulator; [zip] drops the
    blocks of the longer operand; and on matrix blocks it returns what
    the slab engine returns for the line: the products [_matmul2] of the
    pairs of blocks, summed by [_sum_by_monoid]. *)
Theorem matmul_in_one_call :
  forall (op : Semiring T) (dtype : DType) (no_mask : bool)
         (mask_type : option MaskKind) (accum : option (T -> T -> T)),
    (forall a_blocks b_blocks,
        _matmul op dtype true no_mask mask_type accum
                [BlockList a_blocks; BlockList b_blocks] false
        = _matmul op dtype true true None None
                  [BlockList a_blocks; BlockList b_blocks] false) /\
    (forall a_blocks b_blocks extra,
        length a_blocks = length b_blocks ->
        _matmul op dtype true no_mask mask_type accum
                [BlockList (a_blocks ++ extra); BlockList b_blocks] false
        = _matmul op dtype true no_mask mask_type accum
                  [BlockList a_blocks; BlockList b_blocks] false) /\
    (forall ams bms : list (Matrix T DType),
        _matmul op dtype true no_mask mask_type accum
                [BlockList (map (@InnerMatrix T DType) ams);
                 BlockList (map (@InnerMatrix T DType) bms)] false
        = (xs <- mapM (fun p => _matmul2 gb op dtype (fst p) (snd p) false)
                      (combine (map (@InnerMatrix T DType) ams)
                               (map (@InnerMatrix T DType) bms)) ;;
           _sum_by_monoid gb (sr_monoid op) (Flat xs) false)).
Proof.
  intros op dtype no_mask mask_type accum. repeat split.
  - intros a_blocks b_blocks extra H. unfold _matmul, block_products.
    cbn [blocks_of bind]. now rewrite combine_app_left.
  - intros ams bms. unfold _matmul, block_products. cbn [blocks_of bind].
    rewrite combine_map, !mapM_map. cbn [fst snd].
    destruct (products_of_matrices op dtype (combine ams bms)) as [E1 E2].
    rewrite E1, E2. unfold fmap.
    destruct (mapM (fun p => Matrix_mxm gb op (fst p) (snd p) (Some dtype))
                   (combine ams bms)) as [ps | e]; [| reflexivity].
    cbn [bind]. unfold _sum_by_monoid.
    rewrite mapM_map. cbn [value_of].
    rewrite (mapM_pure (@GbMatrix T DType)). cbn [bind].
    destruct ps as [| m ps]; [reflexivity |].
    cbn [map reduce].
    destruct (foldM (fun a b => Gb_ewise_add gb (m_op (sr_monoid op)) a b None)
                    (map (@GbMatrix T DType) ps) (GbMatrix m)) as [s | e] eqn:F;
      [| reflexivity].
    destruct (foldM_ewise_add_matrices _ _ _ F) as [w ->].
    reflexivity.
Qed.
End Theory.

(* ------------------------------------------------------------------ *)
(** ** Two schedulers *)

Module Schedulers.
Import IntBackend.

Lemma flat_plan1_leaves (A : Type) (l : list A) :
  flat_map leaves1 (flat_plan1 l) = l.
Proof. induction l as [| a l IH]; simpl; [reflexivity | now rewrite IH]. Qed.

Lemma flat_plan1_proper (A : Type) (l : list A) :
  l <> [] -> flat_plan1 l <> [] /\ forallb proper1 (flat_plan1 l) = true.
Proof.
  intros H. split.
  - destruct l; [contradiction | discriminate].
  - clear H. induction l as [| a l IH]; simpl; [reflexivity | exact IH].
Qed.

Lemma flat_plan2_leaves (A : Type) (g : list (list A)) :
  flat_map (flat_map leaves2) (flat_plan2 g) = concat g.
Proof.
  induction g as [| r g IH]; simpl; [reflexivity |].
  rewrite IH. f_equal.
  induction r as [| a r IHr]; simpl; [reflexivity | now rewrite IHr].
Qed.

Lemma flat_plan2_proper (A : Type) (g : list (list A)) :
  g <> [] -> flat_plan2 g <> [] /\ forallb (forallb proper2) (flat_plan2 g) = true.
Proof.
  intros H. split.
  - destruct g; [contradiction | discriminate].
  - clear H. induction g as [| r g IH]; simpl; [reflexivity |].
    rewrite IH, andb_true_r.
    induction r as [| a r IHr]; simpl; [reflexivity | exact IHr].
Qed.

Lemma pair_plan1_spec (A : Type) (l : list A) :
  flat_map leaves1 (pair_plan1 l) = l /\
  forallb proper1 (pair_plan1 l) = true /\
  (l <> [] -> pair_plan1 l <> []).
Proof.
  assert (H : forall n (l : list A), length l <= n ->
              flat_map leaves1 (pair_plan1 l) = l /\
              forallb proper1 (pair_plan1 l) = true /\
              (l <> [] -> pair_plan1 l <> [])).
  { induction n as [| n IH]; intros [| a [| b t]] Hl; simpl in *;
      try (repeat split; try reflexivity; try discriminate; try congruence; lia).
    destruct (IH t) as [E [P _]]; [lia |].
    rewrite E, P. repeat split; discriminate. }
  exact (H (length l) l (le_n _)).
Qed.

Lemma whole_plan2_leaves (A : Type) (g : list (list A)) :
  flat_map (flat_map leaves2) (whole_plan2 g) = concat g.
Proof.
  destruct g as [| r g]; [reflexivity |].
  unfold whole_plan2. cbn [flat_map leaves2]. rewrite !app_nil_r.
  exact (flat_plan2_leaves (r :: g)).
Qed.

Lemma whole_plan2_proper (A : Type) (g : list (list A)) :
  g <> [] -> whole_plan2 g <> [] /\ forallb (forallb proper2) (whole_plan2 g) = true.
Proof.
  intros H. destruct g as [| r g]; [contradiction |].
  split; [discriminate |].
  unfold whole_plan2. cbn [forallb proper2]. rewrite !andb_true_r.
  destruct (flat_plan2_proper (g := r :: g)) as [_ P]; [discriminate |].
  exact P.
Qed.

(** One aggregation of all the partial results. *)
Definition flat : Scheduler :=
  mkScheduler flat_plan1 flat_plan2 getitem_all
    (fun A l => eq_ind_r (fun x => Permutation x l) (Permutation_refl l)
                         (flat_plan1_leaves l))
    (fun A l => @flat_plan1_proper A l)
    (fun A g => eq_ind_r (fun x => Permutation x (concat g))
                         (Permutation_refl (concat g)) (flat_plan2_leaves g))
    (fun A g => @flat_plan2_proper A g).

(** One level of combination below the aggregation. *)
Definition tree : Scheduler :=
  mkScheduler pair_plan1 whole_plan2 getitem_all
    (fun A l => eq_ind_r (fun x => Permutation x l) (Permutation_refl l)
                         (proj1 (pair_plan1_spec l)))
    (fun A l H => conj (proj2 (proj2 (pair_plan1_spec l)) H)
                       (proj1 (proj2 (pair_plan1_spec l))))
    (fun A g => eq_ind_r (fun x => Permutation x (concat g))
                         (Permutation_refl (concat g)) (whole_plan2_leaves g))
    (fun A g => @whole_plan2_proper A g).

End Schedulers.

(* ------------------------------------------------------------------ *)
(** * The properties on concrete inputs *)

Module Examples.
Import IntBackend.

Definition v3 : Vector Z dtype := mkVector INT64 [Some 5%Z; None; Some 7%Z].
Definition empty3 : Vector Z dtype := mkVector INT64 [None; None; None].

(** A collection of one block. *)
Definition one_block (v : Vector Z dtype) (meta : Vector Z dtype)
  : Collection Z dtype :=
  mkCollection (Array1 [InnerVector v]) (GbVector meta).

Definition a_mask : Mask Z dtype := mkMask StructuralMask (one_block v3 empty3).

(** [monoid.lor] on integers. *)
Definition lor : Monoid Z := mkMonoid Z.lor 0%Z.

Definition scalar_meta : GbObject Z dtype := GbScalar (mkScalar INT64 None).
Definition vector_meta : GbObject Z dtype := GbVector (mkVector INT64 []).
Definition matrix_meta : GbObject Z dtype := GbMatrix (mkMatrix INT64 0 []).

(** A vector of 5 entries in 3 blocks. *)
Definition vector_blocks : list (Vector Z dtype) :=
  [mkVector INT64 [Some 1%Z; None];
   mkVector INT64 [Some 6%Z];
   mkVector INT64 [None; Some (-8)%Z]].

(** A matrix of 3 rows and 3 columns in a grid of 2 by 2 blocks. *)
Definition grid : list (list (Matrix Z dtype)) :=
  [[mkMatrix INT64 2 [[Some 1%Z; None]]; mkMatrix INT64 1 [[Some 4%Z]]];
   [mkMatrix INT64 2 [[None; None]; [Some 2%Z; Some 8%Z]];
    mkMatrix INT64 1 [[Some 16%Z]; [None]]]].

(** [A22.mxv(x2, plus_times)] on one block. *)
Definition A22 : Matrix Z dtype :=
  mkMatrix INT64 2 [[Some 100%Z; Some 1%Z]; [None; Some 3%Z]].
Definition x2 : Vector Z dtype := mkVector INT64 [Some 2%Z; Some 5%Z].
Definition empty2 : Vector Z dtype := mkVector INT64 [None; None].

Definition A_collection : Collection Z dtype :=
  mkCollection (Array2 [[InnerMatrix A22]])
               (GbMatrix (mkMatrix INT64 2 [[None; None]; [None; None]])).
Definition x_collection : Collection Z dtype :=
  mkCollection (Array1 [InnerVector x2]) (GbVector empty2).

Definition mxv_expr : GbDelayed Z dtype :=
  mkGbDelayed A_collection "mxv"
              [Collected x_collection; Const (ArgSemiring (plus_times INT64))] []
              (GbVector empty2).

Definition x_mask : Mask Z dtype :=
  mkMask StructuralMask
         (mkCollection (Array1 [InnerVector (mkVector INT64 [Some 1%Z; None])])
                       (GbVector empty2)).

(** An expression of an operation that [new] and [_update] do not know,
    whose placeholder holds values. *)
Definition bogus_expr : GbDelayed Z dtype :=
  mkGbDelayed (one_block v3 empty3) "bogus" [] [] (GbVector v3).

(** A scalar target and the reduction of a vector written into it. *)
Definition s4 : Scalar Z dtype := mkScalar INT64 (Some 4%Z).
Definition scalar_target : Collection Z dtype :=
  mkCollection (Array0 (InnerScalar s4)) scalar_meta.
Definition reduce_expr : GbDelayed Z dtype :=
  mkGbDelayed (one_block v3 empty3) "reduce" [Const (ArgMonoid (plus INT64))] []
              scalar_meta.

(** [monoid.max] on the integers of 64 bits, and a vector of two
    entries in two blocks and in one. *)
Definition max64 : Monoid Z := mkMonoid Z.max (-9223372036854775808)%Z.
Definition two_blocks : list (Vector Z dtype) :=
  [mkVector INT64 [Some 127%Z]; mkVector INT64 [Some 128%Z]].
Definition whole_block : list (Vector Z dtype) :=
  [mkVector INT64 [Some 127%Z; Some 128%Z]].


(** An unknown operation whose placeholder is a scalar. *)
Definition bogus_scalar_expr : GbDelayed Z dtype :=
  mkGbDelayed (one_block v3 empty3) "bogus" [] [] scalar_meta.

(** The values of [INT64] are the integers of 64 bits: those whose bits
    from the 63rd on are all equal. *)
Lemma int64_exact (x : Z) :
  cast INT64 x = x <-> (Z.shiftr x 63 = 0 \/ Z.shiftr x 63 = -1)%Z.
Proof.
  unfold cast, wrap. rewrite Z.shiftr_div_pow2 by lia.
  change (2 ^ (64 - 1))%Z with 9223372036854775808%Z.
  change (2 ^ 64)%Z with 18446744073709551616%Z.
  change (2 ^ 63)%Z with 9223372036854775808%Z.
  pose proof (Z.div_mod x 9223372036854775808 ltac:(lia)) as D.
  pose proof (Z.mod_pos_bound x 9223372036854775808 ltac:(lia)) as B.
  pose proof (Z.mod_pos_bound (x + 9223372036854775808) 18446744073709551616
                ltac:(lia)) as B'.
  split.
  - intros E. lia.
  - intros E.
    assert (R : (-9223372036854775808 <= x < 9223372036854775808)%Z) by lia.
    rewrite Z.mod_small by lia. lia.
Qed.

Lemma lor_closed (x y : Z) :
  cast INT64 x = x -> cast INT64 y = y -> cast INT64 (Z.lor x y) = Z.lor x y.
Proof.
  rewrite !int64_exact, Z.shiftr_lor.
  intros [-> | ->] [-> | ->]; simpl; auto.
Qed.

Lemma int64_lower_bound (x : Z) :
  cast INT64 x = x -> (-9223372036854775808 <= x)%Z.
Proof.
  unfold cast, wrap.
  change (2 ^ (64 - 1))%Z with 9223372036854775808%Z.
  change (2 ^ 64)%Z with 18446744073709551616%Z.
  pose proof (Z.mod_pos_bound (x + 9223372036854775808) 18446744073709551616
                ltac:(lia)) as B.
  lia.
Qed.

Lemma lor_comm_monoid : CommMonoid lor.
Proof.
  split; simpl; intros.
  - apply Z.lor_assoc.
  - apply Z.lor_comm.
  - reflexivity.
Qed.

End Examples.

Import IntBackend Examples.

Lemma extractor_new_one_level_witness :
  exists e,
    lazy_chain (wrap_inner (GbVector v3))
               [Single (AInt 0); Single (ASlice None None)] = Ok e /\
    _extractor_new backend e None None None = Raise NotImplementedError.
Proof.
  destruct (extractor_new_one_level backend (GbVector v3)
              [Single (AInt 0); Single (ASlice None None)] None None)
    as [e [He [H2 _]]].
  exists e. split; [exact He |].
  apply H2. simpl. lia.
Defined.

Lemma Extractor_ndim_is_dtype_witness :
  Extractor_init (inl (InnerVector v3)) None
  = Ok (mkExtractor (inl (InnerVector v3)) None INT64 (PyDType INT64)) /\
  eq_int (PyDType INT64) 1 = false.
Proof.
  split.
  - reflexivity.
  - apply (proj2 (Extractor_ndim_is_dtype Z dtype) (inl (InnerVector v3)) None
                 (mkExtractor (inl (InnerVector v3)) None INT64 (PyDType INT64))
                 eq_refl).
Defined.

Lemma masked_extraction_needs_empty_placeholder_witness :
  nvals_of (GbVector v3) <> 0 /\
  AmbiguousAssignOrExtract_new backend Schedulers.flat
    (mkAmbiguous (one_block v3 v3) (Single (AInt 0)) (GbVector empty3))
    None (Some a_mask)
  = Raise AssertionError.
Proof.
  split; [discriminate |].
  apply (proj1 (masked_extraction_needs_empty_placeholder backend Schedulers.flat
                  (mkAmbiguous (one_block v3 v3) (Single (AInt 0)) (GbVector empty3))
                  None a_mask)).
  discriminate.
Defined.

Lemma Updater_replace_qualifier_witness :
  Updater_init (one_block v3 empty3) None None (Some false)
  = Ok (mkUpdater (one_block v3 empty3) None None None
                  (mkMetaUpdater (GbVector empty3) None None (Some false))) /\
  u_replace (mkUpdater (one_block v3 empty3) None None None
                       (mkMetaUpdater (GbVector empty3) None None (Some false)))
  = None.
Proof.
  split; [reflexivity |].
  apply (proj2 (proj2 (Updater_replace_qualifier (one_block v3 empty3) None))
               (Some false)).
  reflexivity.
Defined.

Lemma partitioned_reduction_witness :
  (exists r,
      reduce_unpartitioned backend "reduce" lor
        (mkCollection (Array1 (map (@InnerVector Z dtype) vector_blocks)) vector_meta)
        (Some INT64) = Ok r /\
      reduce_partitioned backend Schedulers.tree "reduce" lor
        (mkCollection (Array1 (map (@InnerVector Z dtype) vector_blocks)) vector_meta)
        scalar_meta None = Ok r) /\
  (exists r,
      reduce_unpartitioned backend "reduce_columnwise" lor
        (mkCollection (Array2 (map (map (@InnerMatrix Z dtype)) grid)) matrix_meta)
        (Some INT64) = Ok r /\
      reduce_partitioned backend Schedulers.tree "reduce_columnwise" lor
        (mkCollection (Array2 (map (map (@InnerMatrix Z dtype)) grid)) matrix_meta)
        vector_meta None = Ok r).
Proof.
  split.
  - apply (proj1 (partitioned_reduction backend Schedulers.tree lor_comm_monoid
                    (d := INT64) eq_refl lor_closed None scalar_meta eq_refl)).
    + discriminate.
    + repeat constructor.
  - apply (proj2 (partitioned_reduction backend Schedulers.tree lor_comm_monoid
                    (d := INT64) eq_refl lor_closed None vector_meta eq_refl)
                 [1; 2] [2; 1]).
    + repeat constructor.
    + discriminate.
    + discriminate.
    + repeat constructor.
    + simpl. auto.
Defined.

(** C1, as the claim states it, fails: [max] is associative and
    commutative with an identity on the integers of 64 bits, and the
    reduction of the vector [127, 128] materialized at [INT8] is 127 on
    two blocks and -128 on one block and on the unpartitioned vector.
    Every block partial is converted to the dtype before the partials
    are combined. *)
Lemma reduction_depends_on_grid :
  (forall x y z : Z, Z.max x (Z.max y z) = Z.max (Z.max x y) z) /\
  (forall x y : Z, Z.max x y = Z.max y x) /\
  (forall x : Z, cast INT64 x = x -> m_op max64 (m_identity max64) x = x) /\
  reduce_unpartitioned backend "reduce" max64
    (mkCollection (Array1 (map (@InnerVector Z dtype) two_blocks)) vector_meta)
    (Some INT8)
  = Ok (GbScalar (mkScalar INT8 (Some (-128)%Z))) /\
  reduce_partitioned backend Schedulers.flat "reduce" max64
    (mkCollection (Array1 (map (@InnerVector Z dtype) two_blocks)) vector_meta)
    scalar_meta (Some INT8)
  = Ok (GbScalar (mkScalar INT8 (Some 127%Z))) /\
  reduce_partitioned backend Schedulers.flat "reduce" max64
    (mkCollection (Array1 (map (@InnerVector Z dtype) whole_block)) vector_meta)
    scalar_meta (Some INT8)
  = Ok (GbScalar (mkScalar INT8 (Some (-128)%Z))) /\
  reduce_partitioned backend Schedulers.flat "reduce" max64
    (mkCollection (Array1 (map (@InnerVector Z dtype) two_blocks)) vector_meta)
    scalar_meta (Some INT8)
  <> reduce_unpartitioned backend "reduce" max64
       (mkCollection (Array1 (map (@InnerVector Z dtype) two_blocks)) vector_meta)
       (Some INT8).
Proof.
  split; [intros; apply Z.max_assoc |].
  split; [intros; apply Z.max_comm |].
  split.
  { intros x H. apply int64_lower_bound in H. simpl. lia. }
  split; [vm_compute; reflexivity |].
  split; [vm_compute; reflexivity |].
  split; [vm_compute; reflexivity |].
  vm_compute. discriminate.
Qed.

(** The four reductions of the grid, computed on the blocks with a level
    of combination below the aggregation. *)
Example reduce_grid_values :
  reduce_partitioned backend Schedulers.tree "reduce_scalar" lor
    (mkCollection (Array2 (map (map (@InnerMatrix Z dtype)) grid)) matrix_meta)
    scalar_meta None
  = Ok (GbScalar (mkScalar INT64 (Some 31%Z))) /\
  reduce_partitioned backend Schedulers.tree "reduce_rowwise" lor
    (mkCollection (Array2 (map (map (@InnerMatrix Z dtype)) grid)) matrix_meta)
    vector_meta None
  = Ok (GbVector (mkVector INT64 [Some 5%Z; Some 16%Z; Some 10%Z])) /\
  reduce_partitioned backend Schedulers.tree "reduce_columnwise" lor
    (mkCollection (Array2 (map (map (@InnerMatrix Z dtype)) grid)) matrix_meta)
    vector_meta None
  = Ok (GbVector (mkVector INT64 [Some 3%Z; Some 8%Z; Some 20%Z])) /\
  reduce_partitioned backend Schedulers.tree "reduce" lor
    (mkCollection (Array1 (map (@InnerVector Z dtype) vector_blocks)) vector_meta)
    scalar_meta None
  = Ok (GbScalar (mkScalar INT64 (Some (-1)%Z))).
Proof. repeat split. Qed.

Lemma matmul_new_ignores_mask_witness :
  Gb_new backend (gd_meta mxv_expr) (Some INT8) (Some (Mask_meta x_mask))
  = Ok (GbVector (mkVector INT8 [None; None])) /\
  GbDelayed_new backend Schedulers.flat mxv_expr (Some INT8) (Some x_mask)
  = GbDelayed_new backend Schedulers.flat mxv_expr (Some INT8) None.
Proof.
  split; [reflexivity |].
  apply (proj2 (proj1 (proj2 (matmul_new_ignores_mask backend Schedulers.flat
                                mxv_expr (Some INT8) x_mask eq_refl))
                      (GbVector (mkVector INT8 [None; None])) eq_refl)).
  reflexivity.
Defined.

(** C2, as the claim states it, fails: the product materialized at
    [INT8] is not the one materialized with no mask and no dtype. *)
Lemma matmul_new_honours_dtype :
  GbDelayed_new backend Schedulers.flat mxv_expr (Some INT8) (Some x_mask)
  = Ok (mkCollection
          (Array1 [InnerVector (mkVector INT8 [Some (-51)%Z; Some 15%Z])])
          (GbVector (mkVector INT8 [None; None]))) /\
  GbDelayed_new backend Schedulers.flat mxv_expr None None
  = Ok (mkCollection
          (Array1 [InnerVector (mkVector INT64 [Some 205%Z; Some 15%Z])])
          (GbVector (mkVector INT64 [None; None]))) /\
  GbDelayed_new backend Schedulers.flat mxv_expr (Some INT8) (Some x_mask)
  <> GbDelayed_new backend Schedulers.flat mxv_expr None None.
Proof.
  split; [vm_compute; reflexivity |].
  split; [vm_compute; reflexivity |].
  vm_compute. discriminate.
Qed.

Lemma lift_and_back_witness :
  asOneRowMatrix backend (InnerVector empty3)
  = Ok (InnerMatrix (mkMatrix INT64 3 [[None; None; None]])) /\
  asVector backend (mkMatrix INT64 3 [[None; None; None]])
  = Ok (mkVector INT64 [Some 0%Z; None; None]) /\
  asVector backend (mkMatrix INT64 3 [[None; None; None]]) <> Ok empty3 /\
  asVector backend (mkMatrix INT64 1 [[None]; [None]; [None]]) <> Ok empty3 /\
  asVector backend (mkMatrix INT64 3 [[Some 5%Z; None; Some 7%Z]]) = Ok v3 /\
  asVector backend (mkMatrix INT64 1 [[Some 5%Z]; [None]; [Some 7%Z]]) = Ok v3.
Proof.
  destruct (lift_and_back backend empty3) as (R & _ & _ & E).
  destruct (lift_and_back backend v3) as (_ & _ & F & _).
  split; [exact R |]. split; [reflexivity |].
  split; [apply (E eq_refl); discriminate |].
  split; [apply (E eq_refl); discriminate |].
  split; [apply (F eq_refl) | apply (F eq_refl)].
Defined.

Lemma unknown_operation_fails_witness :
  GbDelayed_new backend Schedulers.flat bogus_expr None (Some a_mask)
  = Raise (ValueError "bogus") /\
  GbDelayed_new backend Schedulers.flat bogus_scalar_expr (Some INT8) None
  = Raise (ValueError "bogus") /\
  GbDelayed__update backend Schedulers.flat bogus_expr scalar_target None None None
  <> Ok scalar_target /\
  GbDelayed__update backend Schedulers.flat
    (mkGbDelayed (one_block v3 empty3) "bogus" [] [] (GbVector empty3))
    (one_block empty3 empty3) None None None
  = Raise (ValueError "bogus").
Proof.
  destruct (unknown_operation_fails backend Schedulers.flat bogus_expr eq_refl)
    as (N & _ & U).
  split; [| split; [| split]].
  - apply (proj1 (proj2 (proj2 (N None (Some a_mask)))
                        (GbVector empty3) eq_refl)).
  - apply (proj1 (proj1 (proj2 (unknown_operation_fails backend Schedulers.flat
                                  bogus_scalar_expr eq_refl))
                        (Some INT8))).
  - apply (proj1 (proj2 (U scalar_target None None None))).
  - apply (proj1 (proj2 (proj2 (proj2 (proj2 (unknown_operation_fails
                                                backend Schedulers.flat
                                                (mkGbDelayed (one_block v3 empty3)
                                                             "bogus" [] []
                                                             (GbVector empty3))
                                                eq_refl))
                                       (one_block empty3 empty3) None None None))
                        (GbVector empty3) eq_refl eq_refl)).
Defined.

(** C4, as the claim states it, fails: on a target whose placeholder
    comes to hold a value, [_update] of an unknown operation fails on its
    assertion, a usage error, before it looks at the name; and [new] of
    an unknown operation whose placeholder is a scalar fails on the mask,
    a usage error as well. *)
Lemma unknown_operation_update_asserts_first :
  name_in (method_name bogus_expr) known_operations = false /\
  GbDelayed__update backend Schedulers.flat bogus_expr (one_block empty3 empty3)
                    None None None
  = Raise AssertionError /\
  ~ fails_with UnsupportedOperation
      (GbDelayed__update backend Schedulers.flat bogus_expr
                         (one_block empty3 empty3) None None None) /\
  name_in (method_name bogus_scalar_expr) known_operations = false /\
  GbDelayed_new backend Schedulers.flat bogus_scalar_expr None (Some a_mask)
  = Raise TypeError /\
  ~ fails_with UnsupportedOperation
      (GbDelayed_new backend Schedulers.flat bogus_scalar_expr None (Some a_mask)).
Proof.
  split; [reflexivity |].
  split; [reflexivity |].
  split.
  { intros [e [H K]]. vm_compute in H. injection H as <-. discriminate. }
  split; [reflexivity |].
  split; [reflexivity |].
  intros [e [H K]]. vm_compute in H. injection H as <-. discriminate.
Qed.

Lemma accumulate_onto_existing_witness :
  _reduce_axis_accum backend (InnerVector empty3) (InnerVector v3) Z.add
  = Ok (InnerVector v3) /\
  _reduce_axis_accum backend (InnerVector v3) (InnerVector v3) Z.add
  = Ok (InnerVector (mkVector INT64 [Some 10%Z; None; Some 14%Z])) /\
  _reduce_accum backend (InnerScalar (mkScalar INT8 None)) (InnerScalar s4) Z.add
  = Ok (InnerScalar (mkScalar INT8 (Some 4%Z))) /\
  GbDelayed__update backend Schedulers.flat reduce_expr scalar_target
                    (Some a_mask) (Some Z.add) (Some true)
  = Ok (mkCollection (Array0 (InnerScalar (mkScalar INT64 (Some 16%Z))))
                     scalar_meta).
Proof.
  destruct (accumulate_onto_existing backend Schedulers.flat Z.add)
    as (_ & V & _ & S & V0 & U & _).
  split; [| split; [| split]].
  - apply (V0 INT64 v3). repeat constructor.
  - apply (V v3 v3). reflexivity.
  - apply (S INT8 s4); reflexivity.
  - apply (U reduce_expr scalar_target (Some a_mask) (Some true)
             scalar_meta s4 (mkScalar INT64 (Some 12%Z)));
      reflexivity.
Defined.


(* ------------------------------------------------------------------ *)
(** ** Writes, element-wise operations and products on concrete inputs *)

Module MoreExamples.
Import IntBackend Examples.

(** The semiring [lor_land]. *)
Definition lor_land : Semiring Z := mkSemiring Z.land lor.

Lemma land_closed (x y : Z) :
  cast INT64 x = x -> cast INT64 y = y -> cast INT64 (Z.land x y) = Z.land x y.
Proof.
  rewrite !int64_exact, Z.shiftr_land.
  intros [-> | ->] [-> | ->]; simpl; auto.
Qed.

(** A vector of 3 entries in blocks of 2 and 1 entries, and one in
    blocks of 1 and 2 entries. *)
Definition x21 : list (Vector Z dtype) :=
  [mkVector INT64 [Some 3%Z; None]; mkVector INT64 [Some 5%Z]].
Definition x12 : list (Vector Z dtype) :=
  [mkVector INT64 [Some 3%Z]; mkVector INT64 [None; Some 5%Z]].

Definition grid_collection : Collection Z dtype :=
  mkCollection (Array2 (map (map (@InnerMatrix Z dtype)) grid)) matrix_meta.

(** An empty scalar target. *)
Definition empty_scalar_target : Collection Z dtype :=
  mkCollection (Array0 (InnerScalar (mkScalar INT64 None))) scalar_meta.

(** [v.reduce(plus, flag=True)] and [v.reduce()]. *)
Definition reduce_with_keyword : GbDelayed Z dtype :=
  mkGbDelayed (one_block v3 empty3) "reduce" [Const (ArgMonoid (plus INT64))]
              [("flag"%string, ArgBool Z true)] scalar_meta.
Definition reduce_without_operator : GbDelayed Z dtype :=
  mkGbDelayed (one_block v3 empty3) "reduce" [] [] scalar_meta.

(** [v.apply(op)] on a vector of 5 entries in 3 blocks. *)
Definition blocks_collection : Collection Z dtype :=
  mkCollection (Array1 (map (@InnerVector Z dtype) vector_blocks)) vector_meta.
Definition apply_expr : GbDelayed Z dtype :=
  mkGbDelayed blocks_collection "apply" [Const (ArgUnary Z.opp)] [] vector_meta.

(** The same vector with a placeholder of its size, [v.apply(op)] on it
    and a structural mask over it. *)
Definition five_meta : GbObject Z dtype :=
  GbVector (mkVector INT64 [None; None; None; None; None]).
Definition five_collection : Collection Z dtype :=
  mkCollection (Array1 (map (@InnerVector Z dtype) vector_blocks)) five_meta.
Definition apply_five : GbDelayed Z dtype :=
  mkGbDelayed five_collection "apply" [Const (ArgUnary Z.opp)] [] five_meta.
Definition five_mask : Mask Z dtype := mkMask StructuralMask five_collection.

(** [A.mxm(A, plus_times)] on one block. *)
Definition mxm_expr : GbDelayed Z dtype :=
  mkGbDelayed A_collection "mxm"
              [Collected A_collection; Const (ArgSemiring (plus_times INT64))] []
              (c_meta A_collection).

(** The row-wise reduction of the grid, written into a vector of 3
    entries in blocks of 1 and 2 entries. *)
Definition rowwise_expr : GbDelayed Z dtype :=
  mkGbDelayed grid_collection "reduce_rowwise" [Const (ArgMonoid lor)] []
              (GbVector empty3).
Definition x12_target : Collection Z dtype :=
  mkCollection (Array1 (map (@InnerVector Z dtype) x12)) (GbVector empty3).

End MoreExamples.

Import MoreExamples.

Lemma update_of_reduction_ignores_mask_witness :
  GbDelayed__update backend Schedulers.flat reduce_expr scalar_target
                    (Some a_mask) (Some Z.add) (Some true)
  = GbDelayed__update backend Schedulers.flat reduce_expr scalar_target
                      None (Some Z.add) None.
Proof.
  apply (update_of_reduction_ignores_mask backend Schedulers.flat reduce_expr
           scalar_target (Some a_mask) (Some Z.add) (Some true)).
  reflexivity.
Defined.

Lemma update_of_reduction_overwrites_witness :
  GbDelayed__update backend Schedulers.flat reduce_expr scalar_target
                    None None None
  = GbDelayed__update backend Schedulers.flat reduce_expr empty_scalar_target
                      None None None.
Proof.
  apply (update_of_reduction_overwrites backend Schedulers.flat reduce_expr
           scalar_target empty_scalar_target None None);
    reflexivity.
Defined.

Lemma update_keeps_placeholder_witness :
  GbDelayed__update backend Schedulers.flat reduce_expr scalar_target
                    None (Some Z.add) None
  = Ok (mkCollection (Array0 (InnerScalar (mkScalar INT64 (Some 16%Z))))
                     scalar_meta) /\
  dtype_of scalar_meta = dtype_of (c_meta scalar_target) /\
  shape_of scalar_meta = shape_of (c_meta scalar_target) /\
  nvals_of scalar_meta = 0.
Proof.
  split; [reflexivity |].
  destruct (update_keeps_placeholder backend Schedulers.flat reduce_expr
              scalar_target
              (r := mkCollection (Array0 (InnerScalar (mkScalar INT64 (Some 16%Z))))
                                 scalar_meta)
              None (Some Z.add) None eq_refl eq_refl)
    as (D & S & _ & N).
  split; [exact D |]. split; [exact S |]. apply N. reflexivity.
Defined.

Lemma new_of_reduction_ignores_mask_witness :
  GbDelayed_new backend Schedulers.flat reduce_expr None (Some a_mask)
  = Raise TypeError /\
  GbDelayed_new backend Schedulers.flat rowwise_expr None (Some a_mask)
  = GbDelayed_new backend Schedulers.flat rowwise_expr None None.
Proof.
  split.
  - apply (proj1 (new_of_reduction_ignores_mask backend Schedulers.flat
                    reduce_expr None a_mask eq_refl)).
    reflexivity.
  - apply (proj2 (proj2 (new_of_reduction_ignores_mask backend Schedulers.flat
                           rowwise_expr None a_mask eq_refl)
                        (GbVector empty3) eq_refl)).
    reflexivity.
Defined.

Lemma reduction_arguments_witness :
  GbDelayed_new backend Schedulers.flat reduce_with_keyword None None
  = Raise AssertionError /\
  GbDelayed_new backend Schedulers.flat reduce_without_operator None None
  = Raise IndexError.
Proof.
  split.
  - apply (proj1 (reduction_arguments backend Schedulers.flat reduce_with_keyword
                    None None (meta := scalar_meta) eq_refl eq_refl)).
    discriminate.
  - apply (proj2 (reduction_arguments backend Schedulers.flat
                    reduce_without_operator None None (meta := scalar_meta)
                    eq_refl eq_refl));
      reflexivity.
Defined.


Lemma reduce_combine_of_scalars_witness :
  _reduce_combine backend (plus INT8)
    (Flat [InnerScalar (mkScalar INT64 (Some 100%Z));
           InnerScalar (mkScalar INT8 (Some 100%Z))]) false INT8
  = Ok (InnerScalar (mkScalar INT8 (Some (-56)%Z))).
Proof.
  apply (proj1 (proj2 (proj2 (proj2 (proj2
           (reduce_combine_of_scalars backend (plus INT8) INT8)))))
           [(INT64, 100%Z); (INT8, 100%Z)]).
  discriminate.
Defined.


Lemma sum_by_monoid_of_blocks_witness :
  _sum_by_monoid backend lor (Flat [InnerVector v3; InnerVector v3]) false
  <> Ok (InnerVector v3).
Proof.
  apply (proj2 (proj2 (proj2 (sum_by_monoid_of_blocks backend lor)))
               [v3; v3] false (InnerVector v3)).
Defined.

Lemma asVector_shapes_witness :
  asVector backend A22 = Raise NotImplementedError /\
  exists v,
    asVector backend (mkMatrix INT64 3 [[Some 5%Z; None; Some 7%Z]]) = Ok v /\
    size v = 3 /\ v_dtype v = INT64 /\
    asOneRowMatrix backend (InnerVector v)
    = Ok (InnerMatrix (mkMatrix INT64 3 [[Some 5%Z; None; Some 7%Z]])).
Proof.
  split.
  - apply (proj1 (asVector_shapes backend A22)); discriminate.
  - apply (proj1 (proj2 (asVector_shapes backend
                           (mkMatrix INT64 3 [[Some 5%Z; None; Some 7%Z]])))).
    + reflexivity.
    + repeat constructor.
    + reflexivity.
Defined.

Lemma matmul2_of_two_matrices_witness :
  GbDelayed__matmul2 backend Schedulers.flat mxm_expr (c_meta A_collection)
  = Raise UnboundLocalError.
Proof.
  apply (matmul2_of_two_matrices backend Schedulers.flat mxm_expr
           (c_meta A_collection) (b := c_delayed A_collection)
           (op := plus_times INT64));
    try reflexivity; discriminate.
Defined.

Lemma new_elementwise_by_block_witness :
  GbDelayed_new backend Schedulers.flat apply_expr None None
  = (delayed <- map_blocks
                  (fun x => _expr_new backend "apply" None None [] x None
                                      [Const (ArgUnary Z.opp)])
                  (c_delayed blocks_collection) ;;
     Ok (mkCollection delayed (meta_new backend vector_meta None None))) /\
  GbDelayed_new backend Schedulers.flat apply_five (Some INT8) (Some five_mask)
  = (delayed <- elemwise2
                  (fun x m => _expr_new backend "apply" (Some INT8)
                                        (Some StructuralMask) [] x (Some m)
                                        [Const (ArgUnary Z.opp)])
                  (c_delayed five_collection) (c_delayed five_collection) ;;
     Ok (mkCollection delayed
           (GbVector (mkVector INT8 [None; None; None; None; None])))).
Proof.
  split.
  - apply (proj1 (new_elementwise_by_block backend Schedulers.flat apply_expr
                    None eq_refl)
                 [ArgUnary Z.opp]).
    reflexivity.
  - apply (proj2 (proj2 (new_elementwise_by_block backend Schedulers.flat
                           apply_five (Some INT8) eq_refl))
                 five_mask [ArgUnary Z.opp]
                 (GbVector (mkVector INT8 [None; None; None; None; None]))
                 eq_refl eq_refl).
    repeat (constructor; [do 2 eexists; repeat split; reflexivity |]);
      constructor.
Defined.

Lemma update_elementwise_by_block_witness :
  GbDelayed__update backend Schedulers.flat apply_expr blocks_collection
                    None None (Some true)
  = (delayed <- elemwise2
                  (fun u x => _update_expr backend "apply" u x []
                                           [Const (ArgUnary Z.opp)])
                  (c_delayed blocks_collection) (c_delayed blocks_collection) ;;
     Ok (mkCollection delayed vector_meta)).
Proof.
  apply (proj1 (update_elementwise_by_block backend Schedulers.flat apply_expr
                  blocks_collection (Some true) [ArgUnary Z.opp]
                  (meta := vector_meta)
                  eq_refl eq_refl eq_refl eq_refl
                  ltac:(repeat (constructor;
                                [do 2 eexists; repeat split; reflexivity |]);
                        constructor))).
Defined.

Lemma mxv_partitioned_product_witness :
  exists r,
    (A <- compute grid_collection ;;
     x <- compute (mkCollection (Array1 (map (@InnerVector Z dtype) x21))
                                vector_meta) ;;
     Gb_matmul backend lor_land A x (Some INT64)) = Ok r /\
    (c <- GbDelayed_new backend Schedulers.tree
            (mkGbDelayed grid_collection "mxv"
               [Collected (mkCollection (Array1 (map (@InnerVector Z dtype) x21))
                                        vector_meta);
                Const (ArgSemiring lor_land)] [] (GbVector empty3))
            None None ;;
     compute c) = Ok r.
Proof.
  apply (@mxv_partitioned_product Z dtype backend Schedulers.tree lor_land
           lor_comm_monoid INT64 lor_closed land_closed None empty3
           [1; 2] [2; 1] grid x21 matrix_meta vector_meta "mxv"%string
           eq_refl eq_refl).
  - repeat constructor.
  - discriminate.
  - discriminate.
  - repeat constructor.
  - repeat constructor.
  - repeat constructor.
Defined.

Lemma vxm_partitioned_product_witness :
  exists r,
    (x <- compute (mkCollection (Array1 (map (@InnerVector Z dtype) x12))
                                vector_meta) ;;
     B <- compute grid_collection ;;
     Gb_matmul backend lor_land x B (Some INT64)) = Ok r /\
    (c <- GbDelayed_new backend Schedulers.tree
            (mkGbDelayed (mkCollection (Array1 (map (@InnerVector Z dtype) x12))
                                       vector_meta)
               "vxm"
               [Collected grid_collection; Const (ArgSemiring lor_land)] []
               (GbVector empty3))
            None None ;;
     compute c) = Ok r.
Proof.
  apply (@vxm_partitioned_product Z dtype backend Schedulers.tree lor_land
           lor_comm_monoid INT64 lor_closed land_closed None empty3
           [1; 2] [2; 1] grid x12 matrix_meta vector_meta "vxm"%string
           eq_refl eq_refl).
  - repeat constructor.
  - discriminate.
  - discriminate.
  - repeat constructor.
  - repeat constructor.
  - repeat constructor.
Defined.

Lemma matmul_in_one_call_witness :
  _matmul backend (plus_times INT64) INT64 true false (Some StructuralMask)
          (Some Z.add)
          [BlockList ([InnerMatrix A22] ++ [InnerMatrix A22; InnerVector v3]);
           BlockList [InnerMatrix A22]] false
  = _matmul backend (plus_times INT64) INT64 true false (Some StructuralMask)
            (Some Z.add)
            [BlockList [InnerMatrix A22]; BlockList [InnerMatrix A22]] false.
Proof.
  apply (proj1 (proj2 (matmul_in_one_call backend (plus_times INT64) INT64 false
                         (Some StructuralMask) (Some Z.add)))
               [InnerMatrix A22] [InnerMatrix A22]
               [InnerMatrix A22; InnerVector v3]).
  reflexivity.
Defined.

Lemma update_axis_reduction_accumulates_witness :
  GbDelayed__update backend Schedulers.flat rowwise_expr x12_target
                    (Some a_mask) (Some Z.add) (Some true)
  = Ok (mkCollection
          (Array1 [InnerVector (mkVector INT64 [Some 8%Z]);
                   InnerVector (mkVector INT64 [Some 16%Z; Some 15%Z])])
          (GbVector empty3)).
Proof.
  refine (proj1 (@update_axis_reduction_accumulates Z dtype backend
                   Schedulers.flat rowwise_expr x12_target (Some a_mask)
                   (Some true) Z.add (GbVector empty3) x12
                   [mkVector INT64 [Some 5%Z];
                    mkVector INT64 [Some 16%Z; Some 10%Z]]
                   eq_refl eq_refl eq_refl _) eq_refl eq_refl).
  repeat constructor.
Defined.

Lemma written_reduction_witness :
  (exists r,
      reduce_unpartitioned backend "reduce" lor blocks_collection (Some INT64)
      = Ok (GbScalar r) /\
      (c <- GbDelayed__update backend Schedulers.tree
              (mkGbDelayed blocks_collection "reduce" [Const (ArgMonoid lor)] []
                           scalar_meta)
              scalar_target (Some a_mask) None (Some true) ;;
       compute c) = Ok (GbScalar r) /\
      GbDelayed__update backend Schedulers.tree
        (mkGbDelayed blocks_collection "reduce" [Const (ArgMonoid lor)] []
                     scalar_meta)
        scalar_target (Some a_mask) (Some Z.add) (Some true)
      = Ok (mkCollection
              (Array0 (InnerScalar
                         (mkScalar INT64
                            (combined backend Z.add INT64 (Some 4%Z) (s_value r)))))
              scalar_meta)) /\
  (exists r,
      reduce_unpartitioned backend "reduce_rowwise" lor grid_collection
                           (Some INT64) = Ok r /\
      (c <- GbDelayed__update backend Schedulers.tree
              (mkGbDelayed grid_collection "reduce_rowwise"
                           [Const (ArgMonoid lor)] [] (GbVector empty3))
              x12_target None None None ;;
       compute c) = Ok r).
Proof.
  split.
  - destruct (proj1 (@written_reduction Z dtype backend Schedulers.tree lor
                       lor_comm_monoid INT64 eq_refl lor_closed scalar_target
                       scalar_meta scalar_meta (Some a_mask) (Some true)
                       eq_refl eq_refl eq_refl)
                    vector_blocks vector_meta)
      as [r [H1 [H2 H3]]].
    + discriminate.
    + repeat constructor.
    + exists r. split; [exact H1 |]. split; [exact H2 |].
      exact (H3 Z.add s4 eq_refl).
  - apply (proj2 (@written_reduction Z dtype backend Schedulers.tree lor
                    lor_comm_monoid INT64 eq_refl lor_closed x12_target
                    (GbVector empty3) (GbVector empty3) None None
                    eq_refl eq_refl eq_refl)
                 [1; 2] [2; 1] grid matrix_meta "reduce_rowwise"%string).
    + repeat constructor.
    + discriminate.
    + discriminate.
    + repeat constructor.
    + simpl. auto.
Defined.
